(** * intake.catalog.base: watchers, catalogs and the catalog walk

    A shallow embedding of [intake/catalog/base.py].

    - Python objects with identity ([Catalog] instances) live in a store
      ([heap]), a list indexed by address; [State] objects are owned by
      exactly one catalog and are stored inside it.
    - Exceptions are an explicit [outcome]; effectful code runs in a small
      state-and-exception monad over the store.
    - The outside world (file system, HTTP, the config parser, the clock and
      the iteration order of Python sets) is a record of oracles, [World].
    - Time stamps are rationals ([Q]); Python uses floats, of which only the
      order and the subtraction [now - last] are used. *)

From Stdlib Require Import QArith Lqa.
From Stdlib Require Import Ascii DecimalString.
From stdpp Require Import gmap strings list.

(** ** Python values used by the module *)

(** [str.startswith] and [str.endswith]. *)
Definition startswith (s p : string) : bool := String.prefix p s.

Fixpoint endswith (s suf : string) : bool :=
  String.eqb s suf ||
  match s with
  | EmptyString => false
  | String _ s' => endswith s' suf
  end.

(** [a in b] on strings. *)
Fixpoint str_contains (s sub : string) : bool :=
  String.prefix sub s ||
  match s with
  | EmptyString => false
  | String _ s' => str_contains s' sub
  end.

(** Truthiness of an optional string ([if catalog.name]). *)
Definition truthy (n : option string) : bool :=
  match n with
  | None => false
  | Some EmptyString => false
  | Some _ => true
  end.

(** ['%d' % n]. *)
Definition fmt_d (n : Z) : string := NilZero.string_of_int (Z.to_int n).

(** Time stamps. *)
Definition time := Q.

Definition Qgtb (x y : Q) : bool := negb (Qle_bool x y).

(** An observable is a URI or a list of observables
    ([Catalog.__init__] flattens its arguments before [create_state]). *)
#[warnings="-register-all"]
Inductive Observable :=
| OStr (uri : string)
| OList (uris : list Observable).

(** Exceptions raised by the module and by its collaborators. *)
Inductive Exn :=
| TypeError
| ValueError
| KeyError (key : option string)
| OSError (path : string)
| ParseError (path : string)
| ConnectionError (url : string)
| UnpackError
| PyException (msg : string)
| RecursionError
| DanglingRef (a : nat)
| OutOfFuel.

Inductive outcome (A : Type) :=
| Ok (a : A)
| Raise (e : Exn).
Arguments Ok {A} a.
Arguments Raise {A} e.

(** ** Watcher state *)

Inductive Kind := Directory | Remote | Local | Collection.

Abbreviation addr := nat.

(** The fields of [State] and of its subclasses: [catalogs] is used by
    [DirectoryState] and [CollectionState] only. *)
Record State := mkState {
  kind : Kind;
  st_name : option string;
  observable : Observable;
  ttl : Q;
  _modification_time : time;
  _last_updated : time;
  catalogs : list addr
}.

(** [State.update_modification_time], [now] being the value of the
    [time.time()] call on its first line. *)
Definition update_modification_time (self : State) (value now : time)
  : bool * State :=
  if Qgtb (now - _last_updated self) (ttl self) then
    let updated := Qgtb value (_modification_time self) in
    (updated,
     mkState (kind self) (st_name self) (observable self) (ttl self)
             value now (catalogs self))
  else (false, self).

(** A probe is accepted when the TTL window since the last accepted probe
    has elapsed. *)
Definition accepted (self : State) (now : time) : Prop :=
  (ttl self < now - _last_updated self)%Q.

(** ** Collaborators *)

(** Entries and plugins are opaque to this module: a local entry is whatever
    the config parser returned, a remote entry is
    [RemoteCatalogEntry(url=source_url, **s)]. *)
Inductive Entry :=
| LocalEntry (descr : string)
| RemoteCatalogEntry (url : string) (opts : list (string * string)).

Definition Plugin := string.

(** The part of a [requests] response the module reads. *)
Record Response := mkResponse {
  url : string;
  status_code : Z;
  content : string
}.

(** The outside world as seen during one call. *)
Record World := mkWorld {
  listdir : string → outcome (list string);
  isdir : string → bool;
  getmtime : string → outcome time;
  (** [CatalogConfig(path)]: its [name], [entries] and [plugins] *)
  CatalogConfig :
    string → outcome (option string * gmap string Entry * list Plugin);
  requests_get : string → outcome Response;
  (** [msgpack.unpackb(content, encoding='utf-8')['sources']] *)
  unpack_sources : string → outcome (list (list (string * string)));
  urljoin : string → string → string;
  (** [urlparse(uri).netloc] *)
  netloc : string → string;
  (** the n-th reading of [time.time()] *)
  time_time : nat → time;
  (** the order in which a Python set of catalogs, or of strings, is
      iterated *)
  set_iter : list addr → list addr;
  set_iter_str : list string → list string;
  (** the floor of [clamp] *)
  ttl_floor : Q
}.

(** Modelled from the spec: [utils.clamp] is not part of the sources; the
    spec says that the TTL is "floor-clamped to a minimum". *)
Definition clamp (w : World) (t : Q) : Q :=
  if Qle_bool (ttl_floor w) t then t else ttl_floor w.

(** Modelled from the spec: [utils.flatten] is not part of the sources; the
    spec says that a sequence of observables is "recursively flattened". *)
Fixpoint flatten (o : Observable) : list string :=
  match o with
  | OStr s => [s]
  | OList l => (fix go (l : list Observable) : list string :=
                  match l with
                  | [] => []
                  | o' :: l' => (flatten o' ++ go l')%list
                  end) l
  end.

(** [os.path.join] of two components (posixpath). *)
Definition path_join (a b : string) : string :=
  if startswith b "/" then b
  else if String.eqb a EmptyString || endswith a "/" then a +:+ b
  else a +:+ "/" +:+ b.

(** [s.replace(old, new)] for single characters. *)
Fixpoint replace_char (old new : ascii) (s : string) : string :=
  match s with
  | EmptyString => EmptyString
  | String c s' =>
      String (if Ascii.eqb c old then new else c) (replace_char old new s')
  end.

Definition config_suffix (f : string) : bool :=
  endswith f ".yml" || endswith f ".yaml".

Definition http_prefix (s : string) : bool :=
  startswith s "http://" || startswith s "https://".

(** ** Catalogs and the store *)

Definition Snapshot : Type :=
  option string * gmap (option string) addr * gmap string Entry * list Plugin.

Record Catalog := mkCatalog {
  _state : State;
  name : option string;
  _children : gmap (option string) addr;
  _entries : gmap string Entry;
  _plugins : list Plugin
}.

Definition snapshot (c : Catalog) : Snapshot :=
  (name c, _children c, _entries c, _plugins c).

(** The store: the catalog objects by address, and the number of clock
    readings made so far. *)
Record Mem := mkMem {
  heap : list Catalog;
  clock_reads : nat
}.

(** ** The monad of store-passing computations that may raise *)

Definition M (A : Type) : Type := Mem → outcome A * Mem.

Definition ret {A} (a : A) : M A := λ σ, (Ok a, σ).
Definition raise {A} (e : Exn) : M A := λ σ, (Raise e, σ).
Definition bind {A B} (m : M A) (k : A → M B) : M B :=
  λ σ, match m σ with
       | (Ok a, σ') => k a σ'
       | (Raise e, σ') => (Raise e, σ')
       end.
Definition lift {A} (o : outcome A) : M A := λ σ, (o, σ).

(** stdpp's monad notation [x ← m; k] is used for [bind]. *)
Global Instance M_ret : MRet M := @ret.
Global Instance M_bind : MBind M := λ A B k m, bind m k.

Fixpoint mapM {A B} (f : A → M B) (l : list A) : M (list B) :=
  match l with
  | [] => ret []
  | x :: l' => y ← f x; ys ← mapM f l'; ret (y :: ys)
  end.

(** Object allocation, attribute reads and writes. A reference to an object
    outside the store cannot occur in Python; the model reports it as
    [DanglingRef]. *)
Definition alloc (c : Catalog) : M addr :=
  λ σ, (Ok (length (heap σ)), mkMem (heap σ ++ [c]) (clock_reads σ)).

Definition deref (a : addr) : M Catalog :=
  λ σ, match heap σ !! a with
       | Some c => (Ok c, σ)
       | None => (Raise (DanglingRef a), σ)
       end.

Definition modify (a : addr) (f : Catalog → Catalog) : M () :=
  λ σ, match heap σ !! a with
       | Some c => (Ok (), mkMem (<[a := f c]> (heap σ)) (clock_reads σ))
       | None => (Raise (DanglingRef a), σ)
       end.

(** [time.time()] *)
Definition clock (w : World) : M time :=
  λ σ, (Ok (time_time w (clock_reads σ)),
        mkMem (heap σ) (S (clock_reads σ))).

(** ** Watchers *)

Definition as_str (o : Observable) : outcome string :=
  match o with
  | OStr s => Ok s
  | OList _ => Raise TypeError
  end.

Definition State_init (w : World) (k : Kind) (nm : option string)
    (obs : Observable) (t : Q) (cs : list addr) : State :=
  mkState k nm obs (clamp w t) 0%Q 0%Q cs.

Definition set_catalogs (self : State) (cs : list addr) : State :=
  mkState (kind self) (st_name self) (observable self) (ttl self)
          (_modification_time self) (_last_updated self) cs.

Definition name_of (a : addr) : M (option string) :=
  c ← deref a; ret (name c).

(** [{catalog.name: catalog for catalog in catalogs}]: a later catalog
    replaces an earlier one of the same name. *)
Definition children_of (named : list (option string * addr))
  : gmap (option string) addr :=
  foldl (λ m na, <[na.1 := na.2]> m) ∅ named.

Definition children_map (cs : list addr) : M (gmap (option string) addr) :=
  named ← mapM (λ a, n ← name_of a; ret (n, a)) cs;
  ret (children_of named).

(** [{s['name']: RemoteCatalogEntry(url=source_url, **s) for s in sources}] *)
Definition source_name (s : list (string * string)) : outcome string :=
  match list_find (λ kv, kv.1 = "name") s with
  | Some (_, kv) => Ok kv.2
  | None => Raise (KeyError (Some "name"))
  end.

(** [key in s] for a source [s]. *)
Definition has_key (key : string) (s : list (string * string)) : bool :=
  bool_decide (key ∈ s.*1).

(** [RemoteCatalogEntry(url=source_url, **s)]: a source that has a [url]
    key of its own passes that keyword twice, which is a [TypeError] of the
    call. The constructor is not part of the sources; it is taken to accept
    the other keys. *)
Definition new_remote_entry (source_url : string)
    (s : list (string * string)) : outcome Entry :=
  if has_key "url" s then Raise TypeError
  else Ok (RemoteCatalogEntry source_url s).

(** The dictionary comprehension over the sources: for each source the key
    [s['name']], then the value. *)
Fixpoint remote_entries (source_url : string)
    (sources : list (list (string * string))) (acc : gmap string Entry)
  : outcome (gmap string Entry) :=
  match sources with
  | [] => Ok acc
  | s :: rest =>
      match source_name s with
      | Ok n =>
          match new_remote_entry source_url s with
          | Ok e => remote_entries source_url rest (<[n := e]> acc)
          | Raise e => Raise e
          end
      | Raise e => Raise e
      end
  end.

Definition status_error (resp : Response) : Exn :=
  PyException (url resp +:+ ": status code " +:+ fmt_d (status_code resp)).

(** [RemoteState.refresh] *)
Definition RemoteState_refresh (w : World) (self : State)
  : outcome Snapshot :=
  match as_str (observable self) with
  | Raise e => Raise e
  | Ok obs =>
      let base_url := obs +:+ "/" in
      let info_url := urljoin w base_url "v1/info" in
      let source_url := urljoin w base_url "v1/source" in
      let nm := replace_char ":" "_" (replace_char "." "_" (netloc w obs)) in
      match requests_get w info_url with
      | Raise e => Raise e
      | Ok response =>
          if bool_decide (status_code response ≠ 200%Z) then
            Raise (status_error response)
          else
            match unpack_sources w (content response) with
            | Raise e => Raise e
            | Ok sources =>
                match remote_entries source_url sources ∅ with
                | Raise e => Raise e
                | Ok entries => Ok (Some nm, ∅, entries, [])
                end
            end
      end
  end.

(** [LocalState.refresh] *)
Definition LocalState_refresh (w : World) (self : State) : outcome Snapshot :=
  match as_str (observable self) with
  | Raise e => Raise e
  | Ok obs =>
      match CatalogConfig w obs with
      | Raise e => Raise e
      | Ok (nm, entries, plugins) => Ok (nm, ∅, entries, plugins)
      end
  end.

Section Recursive.
(** The operations below call [Catalog(...)] and [catalog.reload()] on
    other catalogs; the two are tied together further down. *)
Variable w : World.
Variable Catalog_new : option string → Q → list Observable → M addr.
Variable reload : addr → M ().
Variable changed : addr → M bool.

(** [DirectoryState.refresh]; returns the snapshot and the state with its
    [catalogs] attribute reassigned. *)
Definition DirectoryState_refresh (self : State) : M (Snapshot * State) :=
  obs ← lift (as_str (observable self));
  files ← lift (listdir w obs);
  cs ← mapM (λ f, Catalog_new None 1%Q [OStr (path_join obs f)])
            (filter (λ f, config_suffix f = true) files);
  children ← children_map cs;
  ret ((st_name self, children, ∅, []), set_catalogs self cs).

(** [CollectionState.refresh] *)
Definition CollectionState_refresh (self : State) : M (Snapshot * State) :=
  _ ← mapM reload (catalogs self);
  children ← children_map (catalogs self);
  ret ((None, children, ∅, []), self).

(** [self._state.refresh()], dispatched on the class of the state. *)
Definition State_refresh (self : State) : M (Snapshot * State) :=
  match kind self with
  | Directory => DirectoryState_refresh self
  | Collection => CollectionState_refresh self
  | Remote => s ← lift (RemoteState_refresh w self); ret (s, self)
  | Local => s ← lift (LocalState_refresh w self); ret (s, self)
  end.

(** [create_state] together with the constructors of the four classes. *)
Definition create_state (nm : option string) (obs : Observable) (t : Q)
  : M State :=
  match obs with
  | OList uris =>
      cs ← mapM (λ uri, Catalog_new None 1%Q [uri]) uris;
      ret (State_init w Collection nm obs t cs)
  | OStr s =>
      if http_prefix s then ret (State_init w Remote nm obs t [])
      else if isdir w s then ret (State_init w Directory nm obs t [])
      else if config_suffix s then ret (State_init w Local nm obs t [])
      else raise TypeError
  end.

(** [Catalog.__init__] with positional arguments [args] and the keyword
    arguments [name] and [ttl]. *)
Definition Catalog_init (nm : option string) (t : Q)
    (args : list Observable) : M addr :=
  let flat := flatten (OList args) in
  let args' := match flat with
               | [s] => OStr s
               | _ => OList (OStr <$> flat)
               end in
  st ← create_state nm args' t;
  '(snap, st') ← State_refresh st;
  alloc (mkCatalog st' snap.1.1.1 snap.1.1.2 snap.1.2 snap.2).

(** [self.update_modification_time(value)] on the state of the catalog at
    [a]. *)
Definition probe (a : addr) (value : time) : M bool :=
  now ← clock w;
  c ← deref a;
  let r := update_modification_time (_state c) value now in
  _ ← modify a (λ c', mkCatalog r.2 (name c') (_children c') (_entries c')
                                (_plugins c'));
  ret r.1.

(** [self._state.changed()] for the catalog at [a], dispatched on the class
    of the state: [RemoteState] inherits [State.changed]. *)
Definition State_changed (a : addr) : M bool :=
  c ← deref a;
  let self := _state c in
  match kind self with
  | Remote =>
      value ← clock w;
      probe a value
  | Local =>
      obs ← lift (as_str (observable self));
      value ← lift (getmtime w obs);
      probe a value
  | Directory =>
      obs ← lift (as_str (observable self));
      value ← lift (getmtime w obs);
      modified ← probe a value;
      flags ← mapM changed (catalogs self);
      ret (existsb id (modified :: flags))
  | Collection =>
      flags ← mapM changed (catalogs self);
      ret (existsb id flags)
  end.
End Recursive.

(** The recursion between [Catalog(...)], [catalog.reload()] and the watchers
    is bounded by [fuel], the depth of the Python call stack. *)
Fixpoint Catalog_new (fuel : nat) (w : World) (nm : option string) (t : Q)
    (args : list Observable) {struct fuel} : M addr :=
  match fuel with
  | 0 => raise RecursionError
  | S f => Catalog_init w (Catalog_new f w) (Catalog_reload f w) nm t args
  end
with Catalog_reload (fuel : nat) (w : World) (self : addr) {struct fuel}
  : M () :=
  match fuel with
  | 0 => raise RecursionError
  | S f =>
      c ← deref self;
      '(snap, st') ← State_refresh w (Catalog_new f w) (Catalog_reload f w)
                                   (_state c);
      modify self (λ _, mkCatalog st' snap.1.1.1 snap.1.1.2 snap.1.2 snap.2)
  end.

(** The [changed] property of [Catalog]. *)
Fixpoint Catalog_changed (fuel : nat) (w : World) (self : addr) : M bool :=
  match fuel with
  | 0 => raise RecursionError
  | S f => State_changed w (Catalog_changed f w) self
  end.

(** Modelled from the spec: the decorator [utils.reload_on_change] is not part
    of the sources; the spec says that every read "must, before producing
    output, check [changed], and if true must [reload()] first". *)
Definition reload_on_change {A} (fuel : nat) (w : World) (f : addr → M A)
    (self : addr) : M A :=
  c ← Catalog_changed fuel w self;
  _ ← (if c : bool then Catalog_reload fuel w self else ret ());
  f self.

(** ** The walk *)

(** What [walk] yields: triples with [leaves=True], catalogs otherwise. *)
Definition Yield (leaves : bool) : Type :=
  if leaves then (addr * string * Entry)%type else addr.

Definition yields (leaves : bool) (catalog : addr) (c : Catalog)
  : list (Yield leaves) :=
  match leaves with
  | true => (λ se, (catalog, se.1, se.2)) <$> map_to_list (_entries c)
  | false => [catalog]
  end.

(** The [while queue:] loop of [Catalog.walk]. *)
Fixpoint walk_loop (w : World) (h : list Catalog) (leaves : bool)
    (fuel : nat) (visited : gset addr) (queue : list addr)
  : outcome (list (Yield leaves)) :=
  match fuel with
  | 0 => Raise OutOfFuel
  | S fuel' =>
      match queue with
      | [] => Ok []
      | catalog :: queue' =>
          if decide (catalog ∈ visited) then
            walk_loop w h leaves fuel' visited queue'
          else
            match h !! catalog with
            | None => Raise (DanglingRef catalog)
            | Some c =>
                let visited' := visited ∪ {[catalog]} in
                let fresh := map_img (_children c) ∖ visited' in
                match walk_loop w h leaves fuel' visited'
                        (queue' ++ set_iter w (elements fresh)) with
                | Ok rest => Ok (yields leaves catalog c ++ rest)
                | Raise e => Raise e
                end
            end
      end
  end.

(** Iterations that always suffice for a store of [n] catalogs. *)
Definition walk_fuel (n : nat) : nat := 2 + n * S n.

Definition walk_body (w : World) (leaves : bool) (self : addr)
  : M (list (Yield leaves)) :=
  λ σ, (walk_loop w (heap σ) leaves (walk_fuel (length (heap σ))) ∅ [self],
        σ).

(** [Catalog.walk], decorated. *)
Definition walk (fuel : nat) (w : World) (leaves : bool) (self : addr)
  : M (list (Yield leaves)) :=
  reload_on_change fuel w (walk_body w leaves) self.

(** [zip] applied to the unpacked triples: the transposition of a sequence of triples, a sequence
    of three columns, or of none when there is no triple. *)
Inductive Column :=
| CatalogCol (l : list addr)
| NameCol (l : list string)
| EntryCol (l : list Entry).

Definition zip_star (ts : list (addr * string * Entry)) : list Column :=
  match ts with
  | [] => []
  | _ => [CatalogCol (ts.*1.*1); NameCol (ts.*1.*2); EntryCol (ts.*2)]
  end.

(** [a, b, c = columns] *)
Definition unpack3 (cols : list Column) : outcome (Column * Column * Column) :=
  match cols with
  | [a; b; c] => Ok (a, b, c)
  | _ => Raise ValueError
  end.

Definition col_catalogs (c : Column) : list addr :=
  match c with CatalogCol l => l | _ => [] end.

Definition col_names (c : Column) : list string :=
  match c with NameCol l => l | _ => [] end.

(** [Catalog.get_catalogs] *)
Definition get_catalogs (fuel : nat) (w : World) (self : addr)
  : M (list string) :=
  ts ← walk fuel w true self;
  '(catalogs, _, _) ← lift (unpack3 (zip_star ts));
  names ← mapM name_of (col_catalogs catalogs);
  ret (set_iter_str w
         (remove_dups (omap (λ n, if truthy n then n else None) names))).

(** [Catalog.get_entries] *)
Definition get_entries (fuel : nat) (w : World) (self : addr)
  : M (list string) :=
  ts ← walk fuel w true self;
  '(_, names, _) ← lift (unpack3 (zip_star ts));
  ret (set_iter_str w (remove_dups (col_names names))).

(** [Catalog.get_catalog] *)
Definition get_catalog (fuel : nat) (w : World) (self : addr)
    (nm : option string) : M addr :=
  cs ← walk fuel w false self;
  named ← mapM (λ a, n ← name_of a; ret (n, a)) cs;
  match list_find (λ na, na.1 = nm) named with
  | Some (_, na) => ret na.2
  | None => raise (KeyError nm)
  end.

(** [Catalog.get_entry] *)
Definition get_entry (fuel : nat) (w : World) (self : addr) (nm : string)
  : M Entry :=
  reload_on_change fuel w
    (λ self, c ← deref self;
             match _entries c !! nm with
             | Some e => ret e
             | None => raise (KeyError (Some nm))
             end) self.

(** [Catalog.plugins] *)
Definition plugins (fuel : nat) (w : World) (self : addr) : M (list Plugin) :=
  reload_on_change fuel w (λ self, c ← deref self; ret (_plugins c)) self.

(** ** Specification-level notions *)

(** The spec's words for the string tests of the classifier. *)
Definition begins_with (p s : string) : Prop := ∃ rest, s = p +:+ rest.
Definition ends_with (suf s : string) : Prop := ∃ stem, s = stem +:+ suf.
Definition contains (sub s : string) : Prop :=
  ∃ pre post, s = pre +:+ sub +:+ post.

Definition has_config_suffix (s : string) : Prop :=
  ends_with ".yml" s ∨ ends_with ".yaml" s.



(** The state left by an accepted probe. *)
Definition stamped (self : State) (value now : time) : State :=
  mkState (kind self) (st_name self) (observable self) (ttl self)
          value now (catalogs self).

Definition set_state (st : State) (c : Catalog) : Catalog :=
  mkCatalog st (name c) (_children c) (_entries c) (_plugins c).

(** The number of clock readings a watcher of kind [k] makes before the one
    that its own staleness primitive uses as [now], and the value of that
    reading for a call of [changed] that starts in the store [σ]. *)
Definition probe_index (k : Kind) : nat :=
  match k with
  | Remote => 1
  | _ => 0
  end.

Definition probe_time (w : World) (σ : Mem) (k : Kind) : time :=
  time_time w (clock_reads σ + probe_index k).

(** The second half of claim C2 as it is worded: of two [changed()] calls on
    a node whose clock readings all lie within the TTL of each other, the
    second returns false. *)
Definition changed_twice_claim : Prop :=
  ∀ fuel w a σ c b1 σ1 b2 σ2,
    heap σ !! a = Some c →
    (0 < ttl (_state c))%Q →
    Catalog_changed fuel w a σ = (Ok b1, σ1) →
    Catalog_changed fuel w a σ1 = (Ok b2, σ2) →
    (∀ i j, clock_reads σ ≤ i < clock_reads σ2 →
            clock_reads σ ≤ j < clock_reads σ2 →
            (time_time w i - time_time w j <= ttl (_state c))%Q) →
    b2 = false.

(** The same, when moreover the first of the two calls is an accepted probe
    of the node's own primitive. *)
Definition changed_twice_after_accepted_claim : Prop :=
  ∀ fuel w a σ c b1 σ1 b2 σ2,
    heap σ !! a = Some c →
    (0 < ttl (_state c))%Q →
    accepted (_state c) (probe_time w σ (kind (_state c))) →
    Catalog_changed fuel w a σ = (Ok b1, σ1) →
    Catalog_changed fuel w a σ1 = (Ok b2, σ2) →
    (∀ i j, clock_reads σ ≤ i < clock_reads σ2 →
            clock_reads σ ≤ j < clock_reads σ2 →
            (time_time w i - time_time w j <= ttl (_state c))%Q) →
    b2 = false.

(** ** Example worlds and stores *)

(** A folder [/cat] with [a.yml] (one entry), [b.yaml] (no entry) and
    [c.txt]; a server that answers 404; a clock that advances by one second
    per reading from 1000. *)
Definition example_world : World := {|
  listdir p :=
    if String.eqb p "/cat" then Ok ["a.yml"; "b.yaml"; "c.txt"]
    else Raise (OSError p);
  isdir p := String.eqb p "/cat";
  getmtime p := Ok 5%Q;
  CatalogConfig p :=
    if String.eqb p "/cat/a.yml"
    then Ok (Some "a", {["x" := LocalEntry "csv"]}, [])
    else if String.eqb p "/cat/b.yaml" then Ok (Some "b", ∅, ["plug"])
    else Raise (ParseError p);
  requests_get u := Ok (mkResponse u 404 EmptyString);
  unpack_sources c := Ok [];
  urljoin a b := a +:+ b;
  netloc u := u;
  time_time n := (1000 + inject_Z (Z.of_nat n))%Q;
  set_iter l := l;
  set_iter_str l := l;
  ttl_floor := 0%Q
|}.

Definition with_clock (readings : list time) (w : World) : World :=
  mkWorld (listdir w) (isdir w) (getmtime w) (CatalogConfig w)
          (requests_get w) (unpack_sources w) (urljoin w) (netloc w)
          (λ n, nth n readings 0%Q) (set_iter w) (set_iter_str w)
          (ttl_floor w).

Definition with_mtime (m : time) (w : World) : World :=
  mkWorld (listdir w) (isdir w) (λ _, Ok m) (CatalogConfig w)
          (requests_get w) (unpack_sources w) (urljoin w) (netloc w)
          (time_time w) (set_iter w) (set_iter_str w) (ttl_floor w).

Definition empty_store : Mem := mkMem [] 0.

(** A remote catalog with a TTL of ten seconds, last probed at 1000. *)
Definition remote_node : Catalog :=
  mkCatalog (mkState Remote None (OStr "http://host/cat") 10%Q 1000%Q 1000%Q [])
            (Some "host") ∅ ∅ [].

(** A directory catalog with a TTL of ten seconds, last probed at 1000, and
    its one child, a local catalog with the default TTL of one second, last
    probed at 1019.5 (through a reference to the child itself). *)
Definition local_child : Catalog :=
  mkCatalog (mkState Local None (OStr "/cat/a.yml") 1%Q 5%Q (2039 # 2)%Q [])
            (Some "a") ∅ {["x" := LocalEntry "csv"]} [].

Definition directory_node : Catalog :=
  mkCatalog (mkState Directory None (OStr "/cat") 10%Q 5%Q 1000%Q [0])
            None {[Some "a" := 0]} ∅ [].

(** ** Reachability in the catalog tree *)

(** [y] is a value of the children map of the catalog at [x]. *)
Definition child_edge (h : list Catalog) (x y : addr) : Prop :=
  ∃ c, h !! x = Some c ∧ y ∈ (map_img (_children c) : gset addr).

Definition reachable (h : list Catalog) (root x : addr) : Prop :=
  rtc (child_edge h) root x.

(** Every child reference points into the store. *)
Definition closed_store (h : list Catalog) : Prop :=
  ∀ a c, h !! a = Some c →
    ∀ y, y ∈ (map_img (_children c) : gset addr) → y < length h.

(** Iterating a Python set yields its elements, in some order. *)
Definition set_iter_ok (w : World) : Prop := ∀ l, set_iter w l ≡ₚ l.

(** The triples that [walk] yields for the catalog at [a]. *)
Definition node_triples (h : list Catalog) (a : addr)
  : list (addr * string * Entry) :=
  match h !! a with
  | Some c => yields true a c
  | None => []
  end.

(** The listing of catalog names in the words of the spec (section 4.7):
    the distinct, non-empty names among all nodes from
    [walk(includeLeaves=false)]. *)
Definition listCatalogNames (fuel : nat) (w : World) (self : addr)
  : M (list string) :=
  cs ← walk fuel w false self;
  names ← mapM name_of cs;
  ret (set_iter_str w
         (remove_dups (omap (λ n, if truthy n then n else None) names))).

(** A local catalog without entries, freshly constructed. *)
Definition empty_local : Catalog :=
  mkCatalog (State_init example_world Local None (OStr "/cat/b.yaml") 1%Q [])
            (Some "b") ∅ ∅ ["plug"].

(** What one run of the loop guarantees, from a state of the loop in which
    the children of visited catalogs are visited or queued. *)
Definition walk_post (h : list Catalog) (V : gset addr) (Q l : list addr)
  : Prop :=
  NoDup l
  ∧ (∀ x, x ∈ l → x ∉ V)
  ∧ (∀ x, x ∈ l → ∃ q, q ∈ Q ∧ rtc (child_edge h) q x)
  ∧ (∀ q, q ∈ Q → q ∈ V ∨ q ∈ l)
  ∧ (∀ x y, x ∈ V ∨ x ∈ l → child_edge h x y → y ∈ V ∨ y ∈ l).

(** A decidable form of [closed_store]. *)
Definition closed_storeb (h : list Catalog) : bool :=
  forallb (λ c, forallb (λ y, y <? length h)
                        (elements (map_img (_children c) : gset addr))) h.

(** A store in which the catalog at 0 is a child of both children, 1 and 2,
    of the root, 3. *)
Definition leaf_node (nm : string) (entries : gmap string Entry) : Catalog :=
  mkCatalog (State_init example_world Local None
               (OStr ("/cat/" +:+ nm +:+ ".yml")) 1%Q [])
            (Some nm) ∅ entries [].

Definition group_node (children : list (string * addr)) : Catalog :=
  mkCatalog (State_init example_world Collection None (OList []) 1%Q
               (children.*2))
            None
            (children_of ((λ na, (Some na.1, na.2)) <$> children)) ∅ [].

Definition diamond_store : list Catalog :=
  [leaf_node "x" {["e" := LocalEntry "csv"]};
   group_node [("x", 0)];
   group_node [("x", 0)];
   group_node [("p", 1); ("q", 2)]].

(** ** Ownership in the store *)

(** [y] is a member of the collection at [x]: the edges that
    [CollectionState.refresh] follows when it reloads its members. *)
Definition cedge (h : list Catalog) (x y : addr) : Prop :=
  ∃ c, h !! x = Some c ∧ kind (_state c) = Collection
       ∧ y ∈ catalogs (_state c).

Definition cdesc (h : list Catalog) : addr → addr → Prop := rtc (cedge h).

(** The members of a collection are constructed before the collection is:
    in the store they lie below it. Every store built by [Catalog(...)] has
    this form. *)
Definition ordered_store (h : list Catalog) : Prop :=
  ∀ a c, h !! a = Some c → kind (_state c) = Collection →
    Forall (λ x, x < a) (catalogs (_state c)).

(** From [h] to [h'] no object disappears or changes class, and no
    collection changes its members. *)
Definition stable_store (h h' : list Catalog) : Prop :=
  length h ≤ length h'
  ∧ ∀ y c, h !! y = Some c →
      ∃ c', h' !! y = Some c'
            ∧ kind (_state c') = kind (_state c)
            ∧ (kind (_state c) = Collection →
               catalogs (_state c') = catalogs (_state c)).

(** The effect of an operation that takes the store [h] to [h']: of the
    objects of [h], only those in [F] may have been written. *)
Definition effect (h h' : list Catalog) (F : addr → Prop) : Prop :=
  ordered_store h' ∧ stable_store h h'
  ∧ ∀ y, y < length h → ¬ F y → h' !! y = h !! y.

(** [a] and the members it reaches were allocated after [h]. *)
Definition fresh_catalog (h h' : list Catalog) (a : addr) : Prop :=
  length h ≤ a < length h' ∧ ∀ y, cdesc h' a y → length h ≤ y.

Definition nothing : addr → Prop := λ _, False.

(** The objects that reloading the members [cs] may write. *)
Definition members_desc (h : list Catalog) (cs : list addr) : addr → Prop :=
  λ y, ∃ c, c ∈ cs ∧ cdesc h c y.

(** A decidable form of [ordered_store]. *)
Definition ordered_storeb (h : list Catalog) : bool :=
  forallb (λ ac : addr * Catalog,
             match kind (_state ac.2) with
             | Collection => forallb (λ x, x <? ac.1) (catalogs (_state ac.2))
             | _ => true
             end)
          (zip (seq 0 (length h)) h).

(** Claim C5 as it is worded: each [refresh] of a directory or collection
    watcher leaves fresh child objects and mutates no existing object. *)
Definition children_replaced_claim : Prop :=
  ∀ fuel w a σ c snap st' σ1,
    heap σ !! a = Some c →
    ordered_store (heap σ) →
    kind (_state c) = Directory ∨ kind (_state c) = Collection →
    State_refresh w (Catalog_new fuel w) (Catalog_reload fuel w)
      (_state c) σ = (Ok (snap, st'), σ1) →
    Forall (λ x, length (heap σ) ≤ x) (catalogs st')
    ∧ ∀ y, y < length (heap σ) → heap σ1 !! y = heap σ !! y.

Definition with_config
    (cfg : string → outcome (option string * gmap string Entry * list Plugin))
    (w : World) : World :=
  mkWorld (listdir w) (isdir w) (getmtime w) cfg
          (requests_get w) (unpack_sources w) (urljoin w) (netloc w)
          (time_time w) (set_iter w) (set_iter_str w) (ttl_floor w).

(** The example world after [a.yml] has gained an entry. *)
Definition edited_world : World :=
  with_config
    (λ p, if String.eqb p "/cat/a.yml"
          then Ok (Some "a", {["x" := LocalEntry "csv"; "y" := LocalEntry "hdf"]}, [])
          else CatalogConfig example_world p)
    example_world.

(** The collection over the two config files, built in the example world. *)
Definition collection_store : Mem :=
  (Catalog_new 3 example_world None 1%Q
     [OStr "/cat/a.yml"; OStr "/cat/b.yaml"] empty_store).2.

(** Claim C6 as it is worded: the children map of a directory refresh holds
    exactly one child per directory entry with a config-file suffix. *)
Definition one_child_per_entry_claim : Prop :=
  ∀ fuel w self σ obs files snap st' σ1,
    ordered_store (heap σ) →
    observable self = OStr obs →
    listdir w obs = Ok files →
    DirectoryState_refresh w (Catalog_new fuel w) self σ
    = (Ok (snap, st'), σ1) →
    size snap.1.1.2 = length (filter (λ f, config_suffix f = true) files).

(** A folder [/dup] with [a.yml] and [a.yaml], two files for which the
    parser discovers the same name. *)
Definition clash_world : World := {|
  listdir p :=
    if String.eqb p "/dup" then Ok ["a.yml"; "a.yaml"] else Raise (OSError p);
  isdir p := String.eqb p "/dup";
  getmtime p := Ok 5%Q;
  CatalogConfig p := Ok (Some "a", ∅, []);
  requests_get u := Raise (ConnectionError u);
  unpack_sources c := Ok [];
  urljoin a b := a +:+ b;
  netloc u := u;
  time_time n := 1000%Q;
  set_iter l := l;
  set_iter_str l := l;
  ttl_floor := 0%Q
|}.

(** A directory entry that is a plain config file which the parser
    accepts. *)
Definition plain_config (w : World) (p : string) : Prop :=
  http_prefix p = false ∧ isdir w p = false
  ∧ ∃ cfg, CatalogConfig w p = Ok cfg.

(** A directory watcher over [/cat], and one over [/dup], freshly
    constructed. *)
Definition cat_watcher : State :=
  mkState Directory None (OStr "/cat") 1%Q 0%Q 0%Q [].

Definition dup_watcher : State :=
  mkState Directory None (OStr "/dup") 1%Q 0%Q 0%Q [].

(** ** Further notions *)

(** The part of a watcher that the staleness primitive does not write. *)
Definition watcher_config (st : State)
  : Kind * option string * Observable * Q * list addr :=
  (kind st, st_name st, observable st, ttl st, catalogs st).

(** [h'] holds the objects of [h] with the same snapshots and the same
    watchers, up to the stored times of the watchers. *)
Definition same_cached (h h' : list Catalog) : Prop :=
  length h' = length h
  ∧ ∀ y c, h !! y = Some c →
      ∃ c', h' !! y = Some c' ∧ snapshot c' = snapshot c
            ∧ watcher_config (_state c') = watcher_config (_state c).

(** Iterating a Python set of strings yields its elements, in some order. *)
Definition set_iter_str_ok (w : World) : Prop := ∀ l, set_iter_str w l ≡ₚ l.

(** What a decorated read does before its body: it checks [changed], and
    reloads when it is true. *)
Definition revalidate (fuel : nat) (w : World) (self : addr) : M () :=
  reload_on_change fuel w (λ _, ret ()) self.

(** The catalog at [x], reachable from [root], has the entry [e] under the
    name [n]. *)
Definition tree_entry (h : list Catalog) (root x : addr) (n : string)
    (e : Entry) : Prop :=
  reachable h root x ∧ ∃ c, h !! x = Some c ∧ _entries c !! n = Some e.

(** The shape of the snapshots that the watchers return: a directory or a
    collection has no entries and no plugins of its own, a remote or local
    catalog has no children. *)
Definition shaped (c : Catalog) : Prop :=
  match kind (_state c) with
  | Directory | Collection => _entries c = ∅ ∧ _plugins c = []
  | Remote | Local => _children c = ∅
  end.

Definition sound_store (h : list Catalog) : Prop :=
  closed_store h ∧ Forall shaped h.

(** From [h] to [h'] the store does not shrink, and it stays closed and
    shaped if it was. *)
Definition preserves (h h' : list Catalog) : Prop :=
  length h ≤ length h'
  ∧ (closed_store h → closed_store h')
  ∧ (Forall shaped h → Forall shaped h').

(** [Catalog.__getitem__]: a catalog when [self._children] is non-empty, an
    entry otherwise. *)
Definition Catalog_getitem (fuel : nat) (w : World) (self : addr)
    (item : string) : M (addr + Entry) :=
  c ← deref self;
  if bool_decide (_children c ≠ ∅) then
    a ← get_catalog fuel w self (Some item); ret (inl a)
  else
    e ← get_entry fuel w self item; ret (inr e).

(** [Catalog.__dir__]; [Catalog.__iter__] iterates over the same list. *)
Definition Catalog_dir (fuel : nat) (w : World) (self : addr)
  : M (list string) :=
  c ← deref self;
  if bool_decide (_children c ≠ ∅) then get_catalogs fuel w self
  else get_entries fuel w self.

(** The name of the catalog at [a]. *)
Definition name_at (h : list Catalog) (a : addr) : option string :=
  from_option name None (h !! a).

(** A directory catalog over [/cat], loaded when the folder was still
    empty. *)
Definition empty_directory : Catalog :=
  mkCatalog cat_watcher None ∅ ∅ [].

(** The store that holds the local catalog over [/cat/a.yml] only. *)
Definition local_store : Mem :=
  (Catalog_new 3 example_world None 1%Q [OStr "/cat/a.yml"] empty_store).2.

(** The character [ch] occurs in [s]. *)
Definition has_char (ch : ascii) (s : string) : Prop :=
  In ch (String.list_ascii_of_string s).

(** A remote watcher over a server that answers with two sources of the
    same name. *)
Definition sources_world : World :=
  mkWorld (listdir example_world) (isdir example_world)
          (getmtime example_world) (CatalogConfig example_world)
          (λ u, Ok (mkResponse u 200 "packed"))
          (λ _, Ok [[("name", "t"); ("driver", "csv")];
                    [("name", "t"); ("driver", "hdf")]])
          (urljoin example_world) (λ _, "host.org:80")
          (time_time example_world) (set_iter example_world)
          (set_iter_str example_world) (ttl_floor example_world).

(** What identifies a watcher: its class and the arguments it was
    constructed with. *)
Definition watcher_identity (st : State)
  : Kind * option string * Observable * Q :=
  (kind st, st_name st, observable st, ttl st).

(** Every object of [h] is still in [h'], with a watcher of the same
    identity. *)
Definition keeps_watchers (h h' : list Catalog) : Prop :=
  ∀ y c, h !! y = Some c →
    ∃ c', h' !! y = Some c'
          ∧ watcher_identity (_state c') = watcher_identity (_state c).

(** Claim C7 as it is worded: the error of an info request that is not
    answered with 200 contains the URL that was requested. *)
Definition status_error_names_request_claim : Prop :=
  ∀ w self obs resp msg,
    observable self = OStr obs →
    requests_get w (urljoin w (obs +:+ "/") "v1/info") = Ok resp →
    status_code resp ≠ 200%Z →
    RemoteState_refresh w self = Raise (PyException msg) →
    contains (urljoin w (obs +:+ "/") "v1/info") msg
    ∧ contains (fmt_d (status_code resp)) msg.

(** A server that redirects every request to a login page, which answers
    404: the response carries the URL of the login page. *)
Definition redirect_world : World :=
  mkWorld (listdir example_world) (isdir example_world)
          (getmtime example_world) (CatalogConfig example_world)
          (λ _, Ok (mkResponse "https://sso.example/login" 404 EmptyString))
          (unpack_sources example_world) (urljoin example_world)
          (netloc example_world) (time_time example_world)
          (set_iter example_world) (set_iter_str example_world)
          (ttl_floor example_world).

(** Claim C10 as it is worded: on a remote watcher every accepted probe
    returns true. The clock never runs backwards, and the stored times are
    earlier readings of it. *)
Definition accepted_probe_true_claim : Prop :=
  ∀ fuel w a σ c b σ',
    heap σ !! a = Some c →
    kind (_state c) = Remote →
    (∀ i j, i ≤ j → (time_time w i <= time_time w j)%Q) →
    (_modification_time (_state c) <= _last_updated (_state c))%Q →
    (_last_updated (_state c) <= time_time w (clock_reads σ))%Q →
    accepted (_state c) (time_time w (S (clock_reads σ))) →
    Catalog_changed (S fuel) w a σ = (Ok b, σ') →
    b = true.

(** A clock that reads 1000 three times and then advances by one second
    per reading. *)
Definition stalled_world : World :=
  mkWorld (listdir example_world) (isdir example_world)
          (getmtime example_world) (CatalogConfig example_world)
          (requests_get example_world) (unpack_sources example_world)
          (urljoin example_world) (netloc example_world)
          (λ n, (1000 + inject_Z (Z.of_nat (n - 2)))%Q)
          (set_iter example_world) (set_iter_str example_world)
          (ttl_floor example_world).

(** A remote catalog with a TTL of zero, never probed. *)
Definition eager_remote_node : Catalog :=
  mkCatalog (State_init example_world Remote None (OStr "http://host/cat")
               0%Q [])
            (Some "host") ∅ ∅ [].

(** What [RemoteState.refresh] does to one character of the network
    location. *)
Definition sanitise (ch : ascii) : ascii :=
  if Ascii.eqb ch "." || Ascii.eqb ch ":" then "_"%char else ch.

(** A source that the comprehension of [RemoteState.refresh] accepts: it
    has a name, and no [url] key. *)
Definition good_source (s : list (string * string)) : Prop :=
  (∃ n, source_name s = Ok n) ∧ has_key "url" s = false.

(** * Properties *)

(** ** Strings *)

Lemma string_cons_app c (a b : string) :
  String c a +:+ b = String c (a +:+ b).
Proof. reflexivity. Qed.

Lemma string_nil_app (b : string) : EmptyString +:+ b = b.
Proof. reflexivity. Qed.

Lemma startswith_spec s p : startswith s p = true ↔ begins_with p s.
Proof.
  unfold startswith, begins_with. revert s.
  induction p as [|c p IH]; intros s.
  - split; [intros _; by exists s | by destruct s].
  - destruct s as [|d s]; simpl.
    + split; [done | intros [rest H]; by rewrite string_cons_app in H].
    + destruct (ascii_dec c d) as [->|Hne].
      * rewrite IH. split; intros [rest H]; exists rest;
          rewrite string_cons_app in *; congruence.
      * split; [done | intros [rest H]].
        rewrite string_cons_app in H. congruence.
Qed.

Lemma endswith_cons c s suf :
  endswith (String c s) suf = String.eqb (String c s) suf || endswith s suf.
Proof. reflexivity. Qed.

Lemma endswith_spec s suf : endswith s suf = true ↔ ends_with suf s.
Proof.
  unfold ends_with. induction s as [|c s IH].
  - change (endswith EmptyString suf)
      with (String.eqb EmptyString suf || false).
    rewrite orb_false_r, String.eqb_eq. split.
    + intros <-. by exists EmptyString.
    + intros [[|d stem] H]; [done | by rewrite string_cons_app in H].
  - rewrite endswith_cons, orb_true_iff, IH, String.eqb_eq. split.
    + intros [<- | [stem ->]]; [by exists EmptyString | by exists (String c stem)].
    + intros [[|d stem] H]; [by left | right].
      rewrite string_cons_app in H. injection H as -> ->. by exists stem.
Qed.


Lemma config_suffix_spec s : config_suffix s = true ↔ has_config_suffix s.
Proof.
  unfold config_suffix, has_config_suffix.
  by rewrite orb_true_iff, !endswith_spec.
Qed.

Lemma contains_app_l sub post : contains sub (sub +:+ post).
Proof. by exists EmptyString, post. Qed.

Lemma string_app_assoc (a b c : string) : (a +:+ b) +:+ c = a +:+ b +:+ c.
Proof.
  induction a as [|x a IH]; [done|].
  rewrite !string_cons_app. by rewrite IH.
Qed.

Lemma string_app_empty_r (a : string) : a +:+ EmptyString = a.
Proof.
  induction a as [|x a IH]; [done|].
  rewrite string_cons_app. by rewrite IH.
Qed.

Lemma contains_app_r pre sub : contains sub (pre +:+ sub).
Proof. exists pre, EmptyString. by rewrite string_app_empty_r. Qed.

Lemma contains_app_rr pre mid sub : contains sub (pre +:+ mid +:+ sub).
Proof.
  exists (pre +:+ mid), EmptyString.
  by rewrite string_app_empty_r, string_app_assoc.
Qed.

(** ** The classifier *)


(** ** The staleness primitive *)

Lemma Qgtb_spec x y : Qgtb x y = true ↔ (y < x)%Q.
Proof.
  unfold Qgtb. rewrite negb_true_iff, <-not_true_iff_false, Qle_bool_iff.
  split; [apply Qnot_le_lt | apply Qlt_not_le].
Qed.

Lemma Qgtb_false x y : Qgtb x y = false ↔ (x <= y)%Q.
Proof. unfold Qgtb. by rewrite negb_false_iff, Qle_bool_iff. Qed.

Lemma update_accepted self v now :
  accepted self now →
  update_modification_time self v now
  = (Qgtb v (_modification_time self), stamped self v now).
Proof.
  unfold accepted, update_modification_time. intros H.
  apply Qgtb_spec in H. by rewrite H.
Qed.

Lemma update_suppressed self v now :
  ¬ accepted self now → update_modification_time self v now = (false, self).
Proof.
  unfold accepted, update_modification_time. intros H.
  destruct (Qgtb _ _) eqn:E; [|done]. by apply Qgtb_spec in E.
Qed.

Lemma update_within_ttl self v1 now1 v2 now2 :
  accepted self now1 →
  (now2 - now1 <= ttl self)%Q →
  update_modification_time (update_modification_time self v1 now1).2 v2 now2
  = (false, stamped self v1 now1).
Proof.
  intros Hacc Hle. rewrite (update_accepted _ _ _ Hacc). simpl.
  apply update_suppressed. unfold accepted. simpl. lra.
Qed.

(** ** Running the monad *)

Ltac munfold :=
  unfold mbind, M_bind, bind, ret, raise, lift, deref, modify, clock,
    alloc in *.

Lemma Catalog_changed_S fuel w a :
  Catalog_changed (S fuel) w a = State_changed w (Catalog_changed fuel w) a.
Proof. reflexivity. Qed.

(** A [changed()] call on a remote or local node whose probe is accepted. *)
Lemma own_probe_accepted fuel w a σ c :
  heap σ !! a = Some c →
  kind (_state c) = Remote ∨ kind (_state c) = Local →
  accepted (_state c) (probe_time w σ (kind (_state c))) →
  ∀ r σ', Catalog_changed fuel w a σ = (Ok r, σ') →
  ∃ v, heap σ' = <[a := set_state
                          (stamped (_state c) v
                             (probe_time w σ (kind (_state c)))) c]> (heap σ)
       ∧ clock_reads σ' = clock_reads σ + S (probe_index (kind (_state c)))
       ∧ r = Qgtb v (_modification_time (_state c))
       ∧ (kind (_state c) = Remote → v = time_time w (clock_reads σ)).
Proof.
  intros Ha Hk Hacc r σ' Hrun. destruct fuel as [|fuel]; [done|].
  rewrite Catalog_changed_S in Hrun. unfold State_changed, probe in Hrun.
  unfold probe_time in *. munfold. rewrite Ha in Hrun.
  destruct Hk as [Hk|Hk]; rewrite Hk in *; simpl in *.
  - rewrite Ha in Hrun. replace (clock_reads σ + 1) with (S (clock_reads σ)) in * by lia.
    rewrite (update_accepted _ _ _ Hacc) in Hrun. simpl in Hrun.
    rewrite Ha in Hrun.
    injection Hrun as <- <-. eexists. simpl. repeat split; try done. lia.
  - destruct (as_str _) as [obs|e]; [|done].
    destruct (getmtime w obs) as [v|e]; [|done]. simpl in Hrun.
    rewrite Ha in Hrun. rewrite Nat.add_0_r in *.
    rewrite (update_accepted _ _ _ Hacc) in Hrun. simpl in Hrun.
    rewrite Ha in Hrun.
    injection Hrun as <- <-. exists v. simpl. repeat split; try done. lia.
Qed.

(** A [changed()] call on a remote or local node whose probe is suppressed. *)
Lemma own_probe_suppressed fuel w a σ c :
  heap σ !! a = Some c →
  kind (_state c) = Remote ∨ kind (_state c) = Local →
  ¬ accepted (_state c) (probe_time w σ (kind (_state c))) →
  (kind (_state c) = Local →
   ∃ obs m, observable (_state c) = OStr obs ∧ getmtime w obs = Ok m) →
  Catalog_changed (S fuel) w a σ
  = (Ok false,
     mkMem (heap σ) (clock_reads σ + S (probe_index (kind (_state c))))).
Proof.
  intros Ha Hk Hsup Hmt.
  rewrite Catalog_changed_S. unfold State_changed, probe.
  unfold probe_time in *. munfold. rewrite Ha.
  assert (<[a := set_state (_state c) c]> (heap σ) = heap σ) as Hid.
  { replace (set_state (_state c) c) with c by (by destruct c).
    by apply list_insert_id. }
  destruct Hk as [Hk|Hk]; rewrite Hk in *; simpl in *.
  - rewrite Ha. replace (clock_reads σ + 1) with (S (clock_reads σ)) in * by lia.
    rewrite (update_suppressed _ _ _ Hsup). simpl. rewrite ?Ha.
    unfold set_state in Hid. rewrite Hid. do 2 f_equal. lia.
  - destruct (Hmt eq_refl) as (obs & m & Hobs & Hm).
    rewrite Hobs. simpl. rewrite Hm. simpl.
    rewrite Ha. rewrite Nat.add_0_r in *.
    rewrite (update_suppressed _ _ _ Hsup). simpl. rewrite ?Ha.
    unfold set_state in Hid. rewrite Hid. do 2 f_equal. lia.
Qed.

(** C2 (as amended): the staleness primitive accepts a probe when
    [now - last_probe_time > ttl], then returns [v > last_modification_value]
    and stores [v] and [now]; otherwise it returns false and leaves the
    state alone. Consequently a probe made within the TTL of an accepted
    probe is suppressed: it returns false and changes nothing; and on a
    remote or local node a [changed()] call whose probe falls within the TTL
    of the accepted probe of the preceding [changed()] call returns false
    and leaves the store alone. A remote node needs nothing of the file
    system for this; a local node first asks for the modification time of
    its file, which must be there. *)
Theorem ttl_throttle :
  (∀ self v now,
     (accepted self now →
      update_modification_time self v now
      = (Qgtb v (_modification_time self), stamped self v now)
      ∧ (Qgtb v (_modification_time self) = true
         ↔ (_modification_time self < v)%Q))
     ∧ (¬ accepted self now →
        update_modification_time self v now = (false, self)))
  ∧ (∀ self v1 now1 v2 now2,
       accepted self now1 →
       (now2 - now1 <= ttl self)%Q →
       update_modification_time
         (update_modification_time self v1 now1).2 v2 now2
       = (false, (update_modification_time self v1 now1).2))
  ∧ (∀ fuel1 fuel2 w1 w2 a σ c b1 σ1,
       heap σ !! a = Some c →
       kind (_state c) = Remote ∨ kind (_state c) = Local →
       accepted (_state c) (probe_time w1 σ (kind (_state c))) →
       Catalog_changed fuel1 w1 a σ = (Ok b1, σ1) →
       (probe_time w2 σ1 (kind (_state c))
        - probe_time w1 σ (kind (_state c)) <= ttl (_state c))%Q →
       (kind (_state c) = Local →
        ∀ obs, observable (_state c) = OStr obs →
               ∃ m, getmtime w2 obs = Ok m) →
       Catalog_changed (S fuel2) w2 a σ1
       = (Ok false,
          mkMem (heap σ1)
                (clock_reads σ1 + S (probe_index (kind (_state c)))))).
Proof.
  split; [|split].
  - intros self v now. split.
    + intros H. split; [by apply update_accepted | apply Qgtb_spec].
    + apply update_suppressed.
  - intros self v1 now1 v2 now2 Hacc Hle.
    rewrite (update_within_ttl _ _ _ _ _ Hacc Hle).
    by rewrite (update_accepted _ _ _ Hacc).
  - intros fuel1 fuel2 w1 w2 a σ c b1 σ1 Ha Hk Hacc Hrun Hle Hmt.
    destruct (own_probe_accepted _ _ _ _ _ Ha Hk Hacc _ _ Hrun)
      as (v & Hheap & Hreads & _ & _).
    set (c1 := set_state (stamped (_state c) v
                 (probe_time w1 σ (kind (_state c)))) c) in *.
    assert (heap σ1 !! a = Some c1) as Ha1.
    { rewrite Hheap. apply list_lookup_insert_eq. by eapply lookup_lt_Some. }
    assert (kind (_state c1) = kind (_state c)) as Hk1 by done.
    assert (kind (_state c) = Local →
            ∃ obs m, observable (_state c) = OStr obs
                     ∧ getmtime w2 obs = Ok m) as Hobs.
    { intros Hl. destruct fuel1 as [|fuel1]; [done|].
      rewrite Catalog_changed_S in Hrun. unfold State_changed in Hrun.
      munfold. rewrite Ha, Hl in Hrun.
      destruct (observable (_state c)) as [obs|l] eqn:E; [|done].
      destruct (Hmt Hl obs eq_refl) as [m Hm]. by exists obs, m. }
    rewrite <-Hk1.
    apply own_probe_suppressed; rewrite ?Hk1; try done.
    unfold accepted. simpl. lra.
Qed.

Lemma ttl_throttle_witness :
  let w := with_clock [1020; 1020; 1025; 1025]%Q example_world in
  let σ := mkMem [remote_node] 0 in
  let σ1 := (Catalog_changed 1 w 0 σ).2 in
  (Catalog_changed 1 w 0 σ).1 = Ok true
  ∧ Catalog_changed 1 w 0 σ1
    = (Ok false, mkMem (heap σ1) (clock_reads σ1 + 2)).
Proof.
  intros w σ σ1. split; [by vm_compute|].
  apply (proj2 (proj2 ttl_throttle) 1 0 w w 0 σ remote_node true).
  - reflexivity.
  - by left.
  - by vm_compute.
  - by vm_compute.
  - by vm_compute.
  - intros Hl. discriminate Hl.
Defined.

(** C2, the claim as worded fails: a [changed()] call that follows a
    suppressed one within the TTL may itself be accepted and return true
    (remote node, TTL 10, last probe at 1000, calls at 1009 and 1011); and a
    directory node also reports its children, which have their own TTL
    (directory with TTL 10 probed at 1020 and 1021, its child with TTL 1
    last probed at 1019.5). *)
Lemma changed_twice_counterexample :
  ¬ changed_twice_claim ∧ ¬ changed_twice_after_accepted_claim.
Proof.
  split.
  - intros H.
    pose (w := with_clock [1009; 1009; 1011; 1011]%Q example_world).
    specialize (H 1 w 0 (mkMem [remote_node] 0) remote_node
                  false (mkMem [remote_node] 2) true
                  (mkMem [set_state (stamped (_state remote_node) 1011%Q 1011%Q)
                            remote_node] 4)).
    discriminate H; try reflexivity.
    intros i j [_ Hi] [_ Hj]. simpl in Hi, Hj.
    do 4 (destruct i as [|i]; [do 4 (destruct j as [|j]; [by vm_compute|]); lia|]).
    lia.
  - intros H.
    pose (w := with_clock [1020; 1020; 1021; 1021]%Q
                 (with_mtime 7%Q example_world)).
    pose (σ := mkMem [local_child; directory_node] 0).
    specialize (H 2 w 1 σ directory_node).
    discriminate (H _ _ true _ eq_refl eq_refl eq_refl eq_refl eq_refl).
    intros i j [_ Hi] [_ Hj]. simpl in Hi, Hj.
    do 4 (destruct i as [|i]; [do 4 (destruct j as [|j]; [by vm_compute|]); lia|]).
    lia.
Qed.

(** ** The base watcher behaviour, inherited by remote watchers *)

Lemma remote_changed_run fuel w a σ c :
  heap σ !! a = Some c →
  kind (_state c) = Remote →
  Catalog_changed (S fuel) w a σ
  = let r := update_modification_time (_state c)
               (time_time w (clock_reads σ))
               (time_time w (S (clock_reads σ))) in
    (Ok r.1, mkMem (<[a := set_state r.2 c]> (heap σ)) (clock_reads σ + 2)).
Proof.
  intros Ha Hk. rewrite Catalog_changed_S. unfold State_changed, probe.
  munfold. rewrite Ha, Hk. simpl. rewrite Ha. simpl. rewrite Ha.
  do 2 f_equal. lia.
Qed.

(** A freshly constructed state has both stored times at the sentinel. *)
Lemma State_init_times w k nm obs t cs :
  (_modification_time (State_init w k nm obs t cs)
   <= _last_updated (State_init w k nm obs t cs))%Q.
Proof. simpl. lra. Qed.

(** C10 (as amended): on a remote watcher, which inherits [State.changed],
    an accepted probe returns whether the clock reading [v] that [changed()]
    passes as the observed value is later than the stored modification
    value; the primitive reads the clock again for [now]. The probe returns
    true whenever the stored modification value is not later than the stored
    probe time and [v] is no further than the TTL before [now], in
    particular when both readings are the same instant: a read of a
    remote-backed catalog in an elapsed TTL window then reloads it, whatever
    the server holds, and the probe leaves the stored modification value not
    later than the stored probe time. *)
Theorem remote_accepted_probe_returns_true fuel w a σ c :
  heap σ !! a = Some c →
  kind (_state c) = Remote →
  let v := time_time w (clock_reads σ) in
  let now := time_time w (S (clock_reads σ)) in
  accepted (_state c) now →
  let c' := set_state (stamped (_state c) v now) c in
  let σ' := mkMem (<[a := c']> (heap σ)) (clock_reads σ + 2) in
  (∃ b, Catalog_changed (S fuel) w a σ = (Ok b, σ')
        ∧ (b = true ↔ (_modification_time (_state c) < v)%Q))
  ∧ ((_modification_time (_state c) <= _last_updated (_state c))%Q →
     (v <= now)%Q →
     (now - v <= ttl (_state c))%Q →
     Catalog_changed (S fuel) w a σ = (Ok true, σ')
     ∧ (_modification_time (_state c') <= _last_updated (_state c'))%Q
     ∧ (∀ A (read : addr → M A),
          reload_on_change (S fuel) w read a σ
          = (_ ← Catalog_reload (S fuel) w a; read a) σ')).
Proof.
  intros Ha Hk v now Hacc c' σ'.
  assert (Catalog_changed (S fuel) w a σ
          = (Ok (Qgtb v (_modification_time (_state c))), σ')) as Hrun.
  { rewrite (remote_changed_run _ _ _ _ _ Ha Hk).
    fold v now. by rewrite (update_accepted _ _ _ Hacc). }
  split.
  { eexists. split; [exact Hrun|]. apply Qgtb_spec. }
  intros Hinv Hmono Hnear.
  assert (Qgtb v (_modification_time (_state c)) = true) as Htrue.
  { apply Qgtb_spec. unfold accepted in Hacc. lra. }
  rewrite Htrue in Hrun.
  split; [done|]. split; [done|].
  intros A read. unfold reload_on_change.
  unfold mbind at 1, M_bind at 1, bind at 1. by rewrite Hrun.
Qed.

Lemma remote_accepted_probe_witness :
  let w := with_clock [1020; 1020]%Q example_world in
  let σ' := mkMem [set_state (stamped (_state remote_node) 1020%Q 1020%Q)
                     remote_node] 2 in
  (∃ b, Catalog_changed 1 w 0 (mkMem [remote_node] 0) = (Ok b, σ')
        ∧ (b = true ↔ (1000 < 1020)%Q))
  ∧ Catalog_changed 1 w 0 (mkMem [remote_node] 0) = (Ok true, σ').
Proof.
  intros w σ'.
  assert (accepted (_state remote_node) (time_time w 1)) as Hacc
    by by vm_compute.
  split.
  - exact (proj1 (remote_accepted_probe_returns_true 0 w 0
                    (mkMem [remote_node] 0) remote_node eq_refl eq_refl
                    Hacc)).
  - apply (proj2 (remote_accepted_probe_returns_true 0 w 0
                    (mkMem [remote_node] 0) remote_node eq_refl eq_refl
                    Hacc)); by vm_compute.
Defined.

(** C10, the claim as worded fails: an accepted probe returns false when the
    clock has not advanced since the reading that the previous accepted
    probe stored. A remote catalog with a TTL of zero is probed twice on a
    clock that reads 1000, 1000, 1000, 1001: the first probe stores 1000
    and 1000; the second passes 1000 as the observed value, is accepted at
    1001 and returns false. *)
Lemma accepted_probe_false_counterexample : ¬ accepted_probe_true_claim.
Proof.
  intros H.
  pose (σ1 := (Catalog_changed 1 stalled_world 0
                 (mkMem [eager_remote_node] 0)).2).
  pose (c1 := set_state (stamped (_state eager_remote_node) 1000%Q 1000%Q)
                eager_remote_node).
  assert (false = true) as Hf; [|discriminate Hf].
  apply (H 0 stalled_world 0 σ1 c1 false
           (Catalog_changed 1 stalled_world 0 σ1).2).
  - by vm_compute.
  - reflexivity.
  - intros i j Hij. simpl. apply Qplus_le_r. rewrite <-Zle_Qle. lia.
  - by vm_compute.
  - by vm_compute.
  - by vm_compute.
  - by vm_compute.
Qed.

(** The first of these two probes is the probe of a fresh watcher, and
    returns true. *)
Example accepted_probe_first_true :
  (Catalog_changed 1 stalled_world 0 (mkMem [eager_remote_node] 0)).1
  = Ok true.
Proof. by vm_compute. Qed.

(** ** Remote refresh *)

Lemma Catalog_reload_S fuel w a :
  Catalog_reload (S fuel) w a
  = (c ← deref a;
     '(snap, st') ← State_refresh w (Catalog_new fuel w)
                                  (Catalog_reload fuel w) (_state c);
     modify a (λ _, mkCatalog st' snap.1.1.1 snap.1.1.2 snap.1.2 snap.2)).
Proof. reflexivity. Qed.

Lemma contains_str_contains sub s :
  contains sub s → str_contains s sub = true.
Proof.
  intros (pre & post & ->). induction pre as [|ch pre IH].
  - rewrite string_nil_app.
    assert (startswith (sub +:+ post) sub = true) as Hpre.
    { apply startswith_spec. by exists post. }
    unfold startswith in Hpre.
    destruct (sub +:+ post); cbn [str_contains]; by rewrite Hpre.
  - rewrite string_cons_app. cbn [str_contains]. rewrite IH.
    apply orb_true_r.
Qed.

(** C7 (as amended): when the GET on the info endpoint answers with a status
    other than 200, [RemoteState.refresh] raises an exception whose message
    is the URL of the response, [: status code ] and the status code. The
    message therefore contains the status code and the URL that the
    response reports, which is the requested URL when the server answered
    the request itself, without a redirect. [reload] of the owning catalog
    raises the exception and leaves the store, hence the catalog's snapshot,
    as it was. *)
Theorem remote_refresh_status_error fuel w a σ c obs resp :
  heap σ !! a = Some c →
  kind (_state c) = Remote →
  observable (_state c) = OStr obs →
  requests_get w (urljoin w (obs +:+ "/") "v1/info") = Ok resp →
  status_code resp ≠ 200%Z →
  ∃ msg,
    RemoteState_refresh w (_state c) = Raise (PyException msg)
    ∧ msg = url resp +:+ ": status code " +:+ fmt_d (status_code resp)
    ∧ contains (url resp) msg
    ∧ (url resp = urljoin w (obs +:+ "/") "v1/info" →
       contains (urljoin w (obs +:+ "/") "v1/info") msg)
    ∧ contains (fmt_d (status_code resp)) msg
    ∧ Catalog_reload (S fuel) w a σ = (Raise (PyException msg), σ).
Proof.
  intros Ha Hk Hobs Hget Hstatus.
  exists (url resp +:+ ": status code " +:+ fmt_d (status_code resp)).
  assert (RemoteState_refresh w (_state c)
          = Raise (status_error resp)) as Hrefresh.
  { unfold RemoteState_refresh. rewrite Hobs. simpl. rewrite Hget.
    by rewrite bool_decide_true. }
  split; [done|]. split; [done|]. split; [apply contains_app_l|].
  split; [intros <-; apply contains_app_l|].
  split; [apply contains_app_rr|].
  rewrite Catalog_reload_S. munfold. rewrite Ha.
  unfold State_refresh. rewrite Hk. munfold. by rewrite Hrefresh.
Qed.

Lemma remote_refresh_status_error_witness :
  ∃ msg,
    RemoteState_refresh example_world (_state remote_node)
    = Raise (PyException msg)
    ∧ msg = "http://host/cat/v1/info: status code 404"
    ∧ contains "http://host/cat/v1/info" msg
    ∧ ("http://host/cat/v1/info" = "http://host/cat/v1/info" →
       contains "http://host/cat/v1/info" msg)
    ∧ contains "404" msg
    ∧ Catalog_reload 1 example_world 0 (mkMem [remote_node] 0)
      = (Raise (PyException msg), mkMem [remote_node] 0).
Proof.
  apply (remote_refresh_status_error 0 example_world 0
           (mkMem [remote_node] 0) remote_node "http://host/cat"
           (mkResponse "http://host/cat/v1/info" 404 EmptyString));
    done.
Defined.

(** C7, the claim as worded fails: the message names the URL of the
    response, not the URL of the request. When the server redirects the
    info request of [http://host/cat] to a login page that answers 404, the
    message is [https://sso.example/login: status code 404] and does not
    contain [http://host/cat/v1/info]. *)
Lemma status_error_request_counterexample :
  ¬ status_error_names_request_claim.
Proof.
  intros H.
  destruct (H redirect_world (_state remote_node) "http://host/cat"
              (mkResponse "https://sso.example/login" 404 EmptyString)
              "https://sso.example/login: status code 404")
    as [Hurl _]; [done..|].
  apply contains_str_contains in Hurl. by vm_compute in Hurl.
Qed.

(** ** The walk *)

Section Walk.
Variable w : World.
Variable h : list Catalog.
Hypothesis Hiter : set_iter_ok w.
Hypothesis Hclosed : closed_store h.

Local Abbreviation N := (length h).

Lemma walk_fresh_elem c (V : gset addr) y :
  y ∈ set_iter w (elements (map_img (_children c) ∖ V : gset addr))
  ↔ y ∈ (map_img (_children c) : gset addr) ∧ y ∉ V.
Proof. rewrite (Hiter _), elem_of_elements. set_solver. Qed.

Lemma bounded_size (V : gset addr) :
  (∀ x, x ∈ V → x < N) → size V ≤ N.
Proof.
  intros HV. rewrite <-(size_set_seq (C:=gset nat) 0 N).
  apply subseteq_size. intros x Hx. apply elem_of_set_seq.
  specialize (HV x Hx). lia.
Qed.

Lemma walk_fresh_length a c (V : gset addr) :
  h !! a = Some c →
  length (set_iter w (elements (map_img (_children c) ∖ V : gset addr)))
  ≤ N.
Proof.
  intros Ha. rewrite (Hiter _).
  change (size (map_img (_children c) ∖ V : gset addr) ≤ N).
  apply bounded_size. intros x Hx.
  apply (Hclosed a c Ha). set_solver.
Qed.

Lemma walk_loop_spec fuel :
  ∀ (V : gset addr) (Q : list addr),
    (∀ x, x ∈ V → x < N) →
    (∀ x, x ∈ Q → x < N) →
    (∀ x y, x ∈ V → child_edge h x y → y ∈ V ∨ y ∈ Q) →
    length Q + S N * (N - size V) < fuel →
    ∃ l, walk_loop w h false fuel V Q = Ok l ∧ walk_post h V Q l.
Proof.
  induction fuel as [|fuel IH]; intros V Q HV HQ Hpre Hfuel; [lia|].
  destruct Q as [|c Q]; simpl.
  { exists []. split; [done|]. unfold walk_post.
    split; [constructor|]. split; [set_solver|]. split; [set_solver|].
    split; [set_solver|]. intros x y [Hx|Hx] He; [|set_solver].
    destruct (Hpre x y Hx He); set_solver. }
  destruct (decide (c ∈ V)) as [Hc|Hc].
  - destruct (IH V Q) as (l & Hrun & Hnd & Hl & Hsound & Hq & Hcl).
    + done.
    + intros x Hx. apply HQ. set_solver.
    + intros x y Hx He. destruct (Hpre x y Hx He) as [|Hy]; [by left|].
      apply elem_of_cons in Hy as [->|]; auto.
    + simpl in Hfuel. lia.
    + exists l. split; [done|]. unfold walk_post.
      split; [done|]. split; [done|]. split.
      { intros x Hx. destruct (Hsound x Hx) as (q & ? & ?).
        exists q. set_solver. }
      split; [|done].
      intros q Hq'. apply elem_of_cons in Hq' as [->|]; auto.
  - assert (c < N) as HcN by (apply HQ; set_solver).
    destruct (h !! c) as [cat|] eqn:Hcat;
      [|apply lookup_ge_None in Hcat; lia].
    set (V' := V ∪ {[c]}).
    set (F := set_iter w (elements (map_img (_children cat) ∖ V' : gset addr))).
    assert (∀ x, x ∈ V' → x < N) as HV'.
    { intros x Hx. apply elem_of_union in Hx as [Hx|Hx]; [by apply HV|].
      apply elem_of_singleton in Hx. by subst. }
    assert (size V' = S (size V)) as Hsize.
    { unfold V'. rewrite size_union by set_solver.
      rewrite size_singleton. lia. }
    pose proof (bounded_size V' HV') as Hbound.
    pose proof (walk_fresh_length c cat V' Hcat) as Hk. fold F in Hk.
    destruct (IH V' (Q ++ F)) as (l & Hrun & Hnd & Hl & Hsound & Hq & Hcl).
    + done.
    + intros x Hx. apply elem_of_app in Hx as [Hx|Hx].
      * apply HQ. set_solver.
      * apply walk_fresh_elem in Hx as [Hx _]. by apply (Hclosed c cat).
    + intros x y Hx He. apply elem_of_union in Hx as [Hx|Hx].
      * destruct (Hpre x y Hx He) as [|Hy]; [left; set_solver|].
        apply elem_of_cons in Hy as [->|Hy]; [left; set_solver|].
        right. set_solver.
      * apply elem_of_singleton in Hx as ->.
        destruct He as (cat' & Hcat' & Hy).
        assert (cat' = cat) as -> by congruence.
        destruct (decide (y ∈ V')); [by left|right].
        apply elem_of_app. right. by apply walk_fresh_elem.
    + rewrite length_app. simpl in Hfuel. rewrite Hsize.
      assert (S N * (N - size V) = S N * (N - S (size V)) + S N) by nia.
      lia.
    + rewrite Hrun. exists (c :: l). split; [done|]. unfold walk_post.
      split.
      { constructor; [|done]. intros Hin. apply (Hl c Hin). set_solver. }
      split.
      { intros x Hx. apply elem_of_cons in Hx as [->|Hx]; [done|].
        specialize (Hl x Hx). set_solver. }
      split.
      { intros x Hx. apply elem_of_cons in Hx as [->|Hx].
        - exists c. split; [set_solver|done].
        - destruct (Hsound x Hx) as (q & Hq' & Hrtc).
          apply elem_of_app in Hq' as [Hq'|Hq'].
          + exists q. split; [set_solver|done].
          + exists c. split; [set_solver|].
            apply walk_fresh_elem in Hq' as [Hq' _].
            eapply rtc_l; [|done]. by exists cat. }
      split.
      { intros q Hq'. apply elem_of_cons in Hq' as [->|Hq'].
        - right. set_solver.
        - destruct (Hq q) as [Hv|]; [set_solver| |set_solver].
          apply elem_of_union in Hv as [|Hv]; [by left|].
          right. set_solver. }
      intros x y Hx He.
      destruct (Hcl x y) as [Hv|]; [|done| |set_solver].
      { destruct Hx as [|Hx]; [left; set_solver|].
        apply elem_of_cons in Hx as [->|]; [left; set_solver|by right]. }
      apply elem_of_union in Hv as [|Hv]; [by left|].
      right. set_solver.
Qed.

(** The walk with leaves visits the same catalogs in the same order. *)
Lemma walk_loop_leaves fuel :
  ∀ (V : gset addr) (Q l : list addr),
    walk_loop w h false fuel V Q = Ok l →
    walk_loop w h true fuel V Q = Ok (l ≫= node_triples h).
Proof.
  induction fuel as [|fuel IH]; intros V Q l; [done|].
  destruct Q as [|c Q]; simpl.
  { by intros [= <-]. }
  destruct (decide (c ∈ V)); [apply IH|].
  destruct (h !! c) as [cat|] eqn:Hcat; [|done].
  destruct (walk_loop w h false fuel _ _) as [rest|e] eqn:Hrest; [|done].
  intros [= <-]. rewrite (IH _ _ _ Hrest). simpl.
  unfold node_triples at 2. by rewrite Hcat.
Qed.

Lemma walk_from_root root :
  root < N →
  ∃ l, walk_loop w h false (walk_fuel N) ∅ [root] = Ok l
       ∧ NoDup l ∧ (∀ x, x ∈ l ↔ reachable h root x).
Proof.
  intros Hroot.
  destruct (walk_loop_spec (walk_fuel N) ∅ [root])
    as (l & Hrun & Hnd & _ & Hsound & Hq & Hcl).
  - set_solver.
  - intros x Hx. apply list_elem_of_singleton in Hx. by subst.
  - set_solver.
  - rewrite size_empty. unfold walk_fuel. simpl. nia.
  - exists l. split; [done|]. split; [done|]. intros x. split.
    + intros Hx. destruct (Hsound x Hx) as (q & Hq' & Hrtc).
      apply list_elem_of_singleton in Hq'. by subst.
    + intros Hreach.
      assert (root ∈ l) as Hin by (destruct (Hq root); set_solver).
      clear -Hreach Hin Hcl. induction Hreach as [|x y z He _ IH]; [done|].
      apply IH. destruct (Hcl x y); set_solver.
Qed.
End Walk.

(** C8: the walk keeps a visited set of catalog objects, so that on a closed
    store every catalog reachable from the root through children maps is
    visited exactly once, also when it is the child of two parents: without
    leaves the walk yields exactly the reachable catalogs, each once, and
    with leaves it yields the triples of the same catalogs in the same
    order. *)
Theorem walk_visits_once w σ root :
  set_iter_ok w →
  closed_store (heap σ) →
  root < length (heap σ) →
  ∃ l,
    walk_body w false root σ = (Ok l, σ)
    ∧ NoDup l
    ∧ (∀ x, x ∈ l ↔ reachable (heap σ) root x)
    ∧ walk_body w true root σ = (Ok (l ≫= node_triples (heap σ)), σ).
Proof.
  intros Hiter Hclosed Hroot.
  destruct (walk_from_root w (heap σ) Hiter Hclosed root Hroot)
    as (l & Hrun & Hnd & Hreach).
  exists l. unfold walk_body.
  split; [f_equal; exact Hrun|]. split; [done|]. split; [done|].
  f_equal. exact (walk_loop_leaves w (heap σ) _ _ _ _ Hrun).
Qed.

Lemma closed_storeb_spec h : closed_storeb h = true → closed_store h.
Proof.
  unfold closed_storeb, closed_store. rewrite forallb_forall.
  intros Hall a c Ha y Hy.
  assert (In c h) as Hin.
  { apply list_elem_of_In, list_elem_of_lookup. eauto. }
  specialize (Hall c Hin). rewrite forallb_forall in Hall.
  apply Nat.ltb_lt, Hall, list_elem_of_In, elem_of_elements, Hy.
Qed.

Lemma walk_visits_once_witness :
  ∃ l,
    walk_body example_world false 3 (mkMem diamond_store 0)
    = (Ok l, mkMem diamond_store 0)
    ∧ NoDup l
    ∧ (∀ x, x ∈ l ↔ reachable diamond_store 3 x)
    ∧ walk_body example_world true 3 (mkMem diamond_store 0)
      = (Ok (l ≫= node_triples diamond_store), mkMem diamond_store 0).
Proof.
  apply (walk_visits_once example_world (mkMem diamond_store 0) 3).
  - intros l. reflexivity.
  - apply closed_storeb_spec. by vm_compute.
  - simpl. lia.
Defined.

(** On the diamond, the shared catalog 0 is yielded once. *)
Example walk_diamond :
  (walk_body example_world false 3 (mkMem diamond_store 0)).1
  = Ok [3; 2; 1; 0]
  ∧ (walk_body example_world true 3 (mkMem diamond_store 0)).1
    = Ok [(0, "e", LocalEntry "csv")].
Proof. split; by vm_compute. Qed.

(** ** Listings *)

(** A tree without entries yields no triple. *)
Lemma walk_body_without_entries w σ root :
  set_iter_ok w →
  closed_store (heap σ) →
  root < length (heap σ) →
  (∀ x c, reachable (heap σ) root x → heap σ !! x = Some c →
          _entries c = ∅) →
  walk_body w true root σ = (Ok [], σ).
Proof.
  intros Hiter Hclosed Hroot Hempty.
  destruct (walk_from_root w (heap σ) Hiter Hclosed root Hroot)
    as (l & Hrun & _ & Hreach).
  unfold walk_body. rewrite (walk_loop_leaves w (heap σ) _ _ _ _ Hrun).
  do 2 f_equal.
  assert (∀ x, x ∈ l → node_triples (heap σ) x = []) as Hnone.
  { intros x Hx. unfold node_triples.
    destruct (heap σ !! x) as [c|] eqn:Hc; [|done].
    simpl. rewrite (Hempty x c); [|by apply Hreach|done].
    by rewrite map_to_list_empty. }
  clear Hreach Hrun. induction l as [|x l IH]; [done|].
  simpl. rewrite Hnone by set_solver. apply IH. set_solver.
Qed.

(** C9: when the walk with leaves yields no triple, as on a catalog without
    any entry in its subtree, [get_entries] and [get_catalogs] raise
    [ValueError] on unpacking the transposition of the empty sequence,
    instead of returning an empty list. *)
Theorem listing_raises_without_entries fuel w self σ σ' :
  walk fuel w true self σ = (Ok [], σ') →
  get_entries fuel w self σ = (Raise ValueError, σ')
  ∧ get_catalogs fuel w self σ = (Raise ValueError, σ').
Proof.
  intros Hwalk. unfold get_entries, get_catalogs.
  unfold mbind, M_bind, bind. by rewrite Hwalk.
Qed.

Lemma listing_raises_without_entries_witness :
  let σ := mkMem [empty_local] 0 in
  let σ' := (walk 1 example_world true 0 σ).2 in
  get_entries 1 example_world 0 σ = (Raise ValueError, σ')
  ∧ get_catalogs 1 example_world 0 σ = (Raise ValueError, σ').
Proof.
  intros σ σ'.
  apply (listing_raises_without_entries 1 example_world 0 σ σ').
  by vm_compute.
Defined.

(** C4: [get_catalogs] takes the catalogs from the triples of the walk with
    leaves, so a catalog without entries is missing from the listing. For the
    catalog over the folder [/cat] ([a.yml] with one entry, [b.yaml] with
    none), [get_catalogs] returns only [a], while the names of the nodes of
    the walk without leaves are [a] and [b], and [get_catalog], which uses
    the walk without leaves, finds [b]. *)
Theorem get_catalogs_omits_catalog_without_entries :
  let r := Catalog_new 3 example_world None 1%Q [OStr "/cat"] empty_store in
  r.1 = Ok 2
  ∧ (get_catalogs 3 example_world 2 r.2).1 = Ok ["a"]
  ∧ (listCatalogNames 3 example_world 2 r.2).1 = Ok ["b"; "a"]
  ∧ (get_catalog 3 example_world 2 (Some "b") r.2).1 = Ok 4.
Proof. repeat split; by vm_compute. Qed.

(** ** Frames: what construction and reload may write *)

Lemma cdesc_le h x y : ordered_store h → cdesc h x y → y ≤ x.
Proof.
  intros Hord Hd. induction Hd as [|x z y (c & Hx & Hk & Hz) _ IH]; [done|].
  pose proof (Hord x c Hx Hk) as Hall.
  rewrite Forall_forall in Hall. specialize (Hall z Hz). lia.
Qed.

Lemma stable_refl h : stable_store h h.
Proof. split; [done|]. intros y c Hy. by exists c. Qed.

Lemma stable_trans h1 h2 h3 :
  stable_store h1 h2 → stable_store h2 h3 → stable_store h1 h3.
Proof.
  intros [Hl1 H1] [Hl2 H2]. split; [lia|]. intros y c Hy.
  destruct (H1 y c Hy) as (c' & Hy' & Hk' & Hc').
  destruct (H2 y c' Hy') as (c'' & Hy'' & Hk'' & Hc'').
  exists c''. split; [done|]. split; [congruence|].
  intros Hk. rewrite Hc'' by congruence. by apply Hc'.
Qed.

Lemma stable_cedge h h' x y :
  stable_store h h' → x < length h → cedge h' x y → cedge h x y.
Proof.
  intros [_ Hst] Hx (c' & Hx' & Hk' & Hy).
  destruct (lookup_lt_is_Some_2 h x Hx) as [c Hc].
  destruct (Hst x c Hc) as (c'' & Hx'' & Hk'' & Hcs).
  assert (c'' = c') as -> by congruence.
  assert (kind (_state c) = Collection) as Hk by congruence.
  exists c. split; [done|]. split; [done|].
  by rewrite <-Hcs.
Qed.

Lemma stable_cdesc h h' x y :
  stable_store h h' → ordered_store h → x < length h →
  cdesc h' x y → cdesc h x y.
Proof.
  intros Hst Hord Hx Hd. induction Hd as [|x z y He _ IH]; [constructor|].
  pose proof (stable_cedge _ _ _ _ Hst Hx He) as He'.
  eapply rtc_l; [done|]. apply IH.
  assert (z ≤ x); [|lia].
  apply (cdesc_le h); [done|]. by apply rtc_once.
Qed.

Lemma effect_refl h F : ordered_store h → effect h h F.
Proof. intros Hord. split; [done|]. split; [apply stable_refl|done]. Qed.

Lemma effect_trans h1 h2 h3 (F1 F2 F : addr → Prop) :
  effect h1 h2 F1 → effect h2 h3 F2 →
  (∀ y, y < length h1 → F1 y → F y) →
  (∀ y, y < length h1 → F2 y → F y) →
  effect h1 h3 F.
Proof.
  intros (_ & Hst1 & Hf1) (Hord & Hst2 & Hf2) HF1 HF2.
  split; [done|]. split; [by eapply stable_trans|].
  intros y Hy HnF. rewrite Hf2, Hf1; try done.
  - intros ?. apply HnF. by apply HF1.
  - destruct Hst1. lia.
  - intros ?. apply HnF. by apply HF2.
Qed.

Lemma effect_length h h' F : effect h h' F → length h ≤ length h'.
Proof. by intros (_ & [? _] & _). Qed.

Lemma effect_ordered h h' F : effect h h' F → ordered_store h'.
Proof. by intros (? & _). Qed.

Lemma ordered_insert h a c c' :
  ordered_store h → h !! a = Some c →
  kind (_state c') = kind (_state c) →
  (kind (_state c) = Collection →
   catalogs (_state c') = catalogs (_state c)) →
  effect h (<[a := c']> h) (λ y, y = a).
Proof.
  intros Hord Ha Hk Hcs.
  assert (a < length h) as Hlt by by eapply lookup_lt_Some.
  split; [|split; [split|]].
  - intros y d Hy Hkd. destruct (decide (y = a)) as [->|Hne].
    + rewrite list_lookup_insert_eq in Hy by done. injection Hy as <-.
      rewrite Hcs by congruence. apply (Hord a c Ha). congruence.
    + rewrite list_lookup_insert_ne in Hy by done. by apply (Hord y d).
  - by rewrite length_insert.
  - intros y d Hy. destruct (decide (y = a)) as [->|Hne].
    + exists c'. rewrite list_lookup_insert_eq by done.
      assert (d = c) as -> by congruence. done.
    + exists d. by rewrite list_lookup_insert_ne by done.
  - intros y _ Hne. apply list_lookup_insert_ne. congruence.
Qed.

Lemma ordered_snoc h c :
  ordered_store h →
  (kind (_state c) = Collection →
   Forall (λ x, x < length h) (catalogs (_state c))) →
  effect h (h ++ [c]) nothing.
Proof.
  intros Hord Hc. split; [|split; [split|]].
  - intros y d Hy Hkd. destruct (decide (y < length h)) as [Hlt|Hge].
    + rewrite lookup_app_l in Hy by done. by apply (Hord y d).
    + assert (y = length h) as ->.
      { apply lookup_lt_Some in Hy. rewrite length_app in Hy. simpl in Hy. lia. }
      rewrite list_lookup_middle in Hy by done. injection Hy as <-.
      by apply Hc.
  - rewrite length_app. lia.
  - intros y d Hy. exists d. split; [|done].
    by apply lookup_app_l_Some.
  - intros y Hy _. by apply lookup_app_l.
Qed.

Lemma mapM_pure {A B} (f : A → M B) l σ r σ' :
  (∀ x σ r σ', f x σ = (r, σ') → σ' = σ) →
  mapM f l σ = (r, σ') → σ' = σ.
Proof.
  intros Hf. revert r σ'. induction l as [|x l IH]; intros r σ'; simpl.
  { by intros [= _ <-]. }
  munfold. destruct (f x σ) as [[y|e] σ1] eqn:Hx;
    pose proof (Hf _ _ _ _ Hx) as ->; [|by intros [= _ <-]].
  destruct (mapM f l σ) as [[ys|e] σ2] eqn:Hl;
    pose proof (IH _ _ eq_refl) as ->; by intros [= _ <-].
Qed.

Lemma named_pure cs σ r σ' :
  mapM (λ a, n ← name_of a; ret (n, a)) cs σ = (r, σ') → σ' = σ.
Proof.
  apply mapM_pure. clear. intros a σ r σ'. unfold name_of. munfold.
  destruct (heap σ !! a); by intros [= _ <-].
Qed.

Lemma children_map_pure cs σ r σ' : children_map cs σ = (r, σ') → σ' = σ.
Proof.
  unfold children_map. munfold.
  destruct (mapM _ cs σ) as [[named|e] σ1] eqn:Hn;
    apply named_pure in Hn as ->; by intros [= _ <-].
Qed.

(** The children map is built from the names that the catalogs have in the
    store, in the order of the list. *)
Lemma children_map_spec cs σ m σ' :
  children_map cs σ = (Ok m, σ') →
  ∃ cats, Forall2 (λ c cat, heap σ !! c = Some cat) cs cats
          ∧ m = children_of (zip (name <$> cats) cs).
Proof.
  unfold children_map. munfold.
  destruct (mapM _ cs σ) as [[named|e] σ1] eqn:Hn; [|done].
  intros [= <- _].
  assert (∃ cats, Forall2 (λ c cat, heap σ !! c = Some cat) cs cats
                  ∧ named = zip (name <$> cats) cs) as (cats & ? & ->);
    [|by exists cats].
  clear σ'. revert named σ1 Hn. induction cs as [|c cs IH]; simpl.
  { intros named σ1 [= <- _]. by exists []. }
  intros named σ1. unfold name_of. munfold.
  destruct (heap σ !! c) as [cat|] eqn:Hc; [|done].
  destruct (mapM _ cs σ) as [[named'|e] σ2] eqn:Hn; [|done].
  intros [= <- _]. destruct (IH _ _ eq_refl) as (cats & ? & ->).
  exists (cat :: cats). split; [by constructor|done].
Qed.

Lemma children_of_img named (x : addr) :
  x ∈ (map_img (children_of named) : gset addr) → x ∈ named.*2.
Proof.
  unfold children_of.
  assert (∀ acc : gmap (option string) addr,
            x ∈ (map_img (foldl (λ m na, <[na.1 := na.2]> m) acc named)
                 : gset addr) →
            x ∈ (map_img acc : gset addr) ∨ x ∈ named.*2) as Hgen.
  { induction named as [|[n a] named IH]; intros acc; simpl; [by left|].
    intros Hx. destruct (IH _ Hx) as [Hacc|]; [|right; set_solver].
    apply (map_img_insert_subseteq (SA:=gset addr)) in Hacc.
    set_solver. }
  intros Hx. destruct (Hgen ∅ Hx) as [Hemp|]; [|done].
  rewrite map_img_empty_L in Hemp. set_solver.
Qed.

Section Frames.
Variable w : World.
Variable new : option string → Q → list Observable → M addr.
Variable reload : addr → M ().

Hypothesis Hnew : ∀ nm t args σ r σ',
  new nm t args σ = (r, σ') → ordered_store (heap σ) →
  effect (heap σ) (heap σ') nothing
  ∧ ∀ a, r = Ok a → fresh_catalog (heap σ) (heap σ') a.

Hypothesis Hreload : ∀ a σ r σ',
  reload a σ = (r, σ') → ordered_store (heap σ) →
  effect (heap σ) (heap σ') (cdesc (heap σ) a).

Lemma fresh_catalog_mono h1 h2 h3 h4 a :
  fresh_catalog h2 h3 a →
  length h1 ≤ length h2 →
  ordered_store h3 → stable_store h3 h4 →
  fresh_catalog h1 h4 a.
Proof.
  intros [[Hlo Hhi] Hd] Hle Hord Hst. split.
  - destruct Hst. lia.
  - intros y Hy. apply (stable_cdesc h3) in Hy; [|done..].
    specialize (Hd y Hy). lia.
Qed.

Lemma mapM_new {A} (g : A → list Observable) nm t l σ r σ' :
  mapM (λ x, new nm t (g x)) l σ = (r, σ') →
  ordered_store (heap σ) →
  effect (heap σ) (heap σ') nothing
  ∧ ∀ cs, r = Ok cs → Forall (fresh_catalog (heap σ) (heap σ')) cs
                      ∧ length cs = length l.
Proof.
  revert σ r. induction l as [|x l IH]; intros σ r; simpl.
  { intros [= <- <-] Hord. split; [by apply effect_refl|].
    by intros cs [= <-]. }
  munfold. destruct (new nm t (g x) σ) as [[a|e] σ1] eqn:Hx.
  2:{ intros [= <- <-] Hord. by destruct (Hnew _ _ _ _ _ _ Hx Hord). }
  destruct (mapM _ l σ1) as [[cs|e] σ2] eqn:Hl; intros [= <- <-] Hord;
    destruct (Hnew _ _ _ _ _ _ Hx Hord) as [Heff1 Hfresh];
    destruct (IH _ _ Hl (effect_ordered _ _ _ Heff1)) as [Heff2 Hcs];
    (split; [by eapply effect_trans|]); [|done].
  intros ? [= <-]. destruct (Hcs cs eq_refl) as [Hall Hlen].
  split; [|simpl; by rewrite Hlen]. constructor.
  - eapply fresh_catalog_mono; [by apply Hfresh|done|..].
    + by eapply effect_ordered.
    + by destruct Heff2 as (_ & ? & _).
  - eapply Forall_impl; [done|]. intros c Hc.
    eapply fresh_catalog_mono; [done|by eapply effect_length|..].
    + by eapply effect_ordered.
    + apply stable_refl.
Qed.

Lemma mapM_reload cs σ r σ' :
  mapM reload cs σ = (r, σ') →
  ordered_store (heap σ) →
  Forall (λ c, c < length (heap σ)) cs →
  effect (heap σ) (heap σ') (members_desc (heap σ) cs).
Proof.
  revert σ r. induction cs as [|c cs IH]; intros σ r; simpl.
  { intros [= <- <-] Hord _. by apply effect_refl. }
  munfold. intros Hrun Hord Hall.
  apply Forall_cons in Hall as [Hc Hall].
  destruct (reload c σ) as [[[]|e] σ1] eqn:Hx;
    pose proof (Hreload _ _ _ _ Hx Hord) as Heff1.
  2:{ injection Hrun as <- <-.
      eapply effect_trans; [done|apply effect_refl, Heff1| |done].
      intros y _ Hy. exists c. split; [set_solver|done]. }
  assert (effect (heap σ1) (heap σ') (members_desc (heap σ1) cs)) as Heff2.
  { destruct (mapM reload cs σ1) as [[ys|e] σ2] eqn:Hl;
      injection Hrun as <- <-;
      (eapply IH; [done|by eapply effect_ordered|]);
      (eapply Forall_impl; [done|]); intros z Hz; simpl in Hz;
      apply effect_length in Heff1; lia. }
  eapply effect_trans; [done..| |].
  - intros y _ Hy. exists c. split; [set_solver|done].
  - intros y Hy (c' & Hc' & Hd). exists c'. split; [set_solver|].
    destruct Heff1 as (_ & Hst & _).
    apply (stable_cdesc _ _ _ _ Hst Hord); [|done].
    rewrite Forall_forall in Hall. by apply Hall.
Qed.
Lemma effect_weaken h h' (F F' : addr → Prop) :
  effect h h' F → (∀ y, y < length h → F y → F' y) → effect h h' F'.
Proof.
  intros (Hord & Hst & Hf) HF. split; [done|]. split; [done|].
  intros y Hy HnF. apply Hf; [done|]. intros ?. by apply HnF, HF.
Qed.

Lemma DirectoryState_refresh_effect self σ r σ' :
  DirectoryState_refresh w new self σ = (r, σ') →
  ordered_store (heap σ) →
  effect (heap σ) (heap σ') nothing
  ∧ ∀ snap st', r = Ok (snap, st') →
      st' = set_catalogs self (catalogs st')
      ∧ Forall (fresh_catalog (heap σ) (heap σ')) (catalogs st')
      ∧ ∃ obs files cats,
          observable self = OStr obs ∧ listdir w obs = Ok files
          ∧ length (catalogs st')
            = length (filter (λ f, config_suffix f = true) files)
          ∧ Forall2 (λ c cat, heap σ' !! c = Some cat) (catalogs st') cats
          ∧ snap = (st_name self,
                    children_of (zip (name <$> cats) (catalogs st')), ∅, []).
Proof.
  unfold DirectoryState_refresh. munfold.
  destruct (as_str (observable self)) as [obs|e] eqn:Hobs.
  2:{ intros [= <- <-] Hord. split; [by apply effect_refl|done]. }
  destruct (listdir w obs) as [files|e] eqn:Hfiles.
  2:{ intros [= <- <-] Hord. split; [by apply effect_refl|done]. }
  destruct (mapM _ _ σ) as [[cs|e] σ1] eqn:Hcs.
  2:{ intros [= <- <-] Hord.
      by destruct (mapM_new (λ f, [OStr (path_join obs f)]) _ _ _ _ _ _
                     Hcs Hord). }
  intros Hrun Hord.
  destruct (mapM_new (λ f, [OStr (path_join obs f)]) _ _ _ _ _ _ Hcs Hord)
    as [Heff Hfresh].
  destruct (Hfresh cs eq_refl) as [Hall Hlen].
  destruct (children_map cs σ1) as [[m|e] σ2] eqn:Hm;
    pose proof (children_map_pure _ _ _ _ Hm) as ->;
    injection Hrun as <- <-; (split; [done|]); [|done].
  intros snap st' [= <- <-]. simpl. split; [done|]. split; [done|].
  destruct (children_map_spec _ _ _ _ Hm) as (cats & Hcats & ->).
  exists obs, files, cats. repeat split; try done.
  destruct (observable self); simpl in Hobs; congruence.
Qed.

Lemma CollectionState_refresh_effect self σ r σ' :
  CollectionState_refresh reload self σ = (r, σ') →
  ordered_store (heap σ) →
  Forall (λ c, c < length (heap σ)) (catalogs self) →
  effect (heap σ) (heap σ') (members_desc (heap σ) (catalogs self))
  ∧ ∀ snap st', r = Ok (snap, st') →
      st' = self
      ∧ ∃ cats,
          Forall2 (λ c cat, heap σ' !! c = Some cat) (catalogs self) cats
          ∧ snap = (None,
                    children_of (zip (name <$> cats) (catalogs self)), ∅, []).
Proof.
  unfold CollectionState_refresh. munfold. intros Hrun Hord Hall.
  destruct (mapM reload (catalogs self) σ) as [[us|e] σ1] eqn:Hre;
    pose proof (mapM_reload _ _ _ _ Hre Hord Hall) as Heff.
  2:{ by injection Hrun as <- <-. }
  destruct (children_map _ σ1) as [[m|e] σ2] eqn:Hm;
    pose proof (children_map_pure _ _ _ _ Hm) as ->;
    injection Hrun as <- <-; (split; [done|]); [|done].
  intros snap st' [= <- <-]. split; [done|].
  destruct (children_map_spec _ _ _ _ Hm) as (cats & Hcats & ->).
  by exists cats.
Qed.

(** What [refresh] may write: nothing of the old store, except that a
    collection reloads its members. The state keeps its class, and a
    collection keeps its members. *)
Lemma State_refresh_effect self σ r σ' :
  State_refresh w new reload self σ = (r, σ') →
  ordered_store (heap σ) →
  (kind self = Collection →
   Forall (λ c, c < length (heap σ)) (catalogs self)) →
  effect (heap σ) (heap σ')
    (λ y, kind self = Collection ∧ members_desc (heap σ) (catalogs self) y)
  ∧ ∀ snap st', r = Ok (snap, st') →
      kind st' = kind self
      ∧ observable st' = observable self
      ∧ (kind self = Collection → catalogs st' = catalogs self)
      ∧ (kind self = Directory →
         Forall (fresh_catalog (heap σ) (heap σ')) (catalogs st')).
Proof.
  unfold State_refresh. intros Hrun Hord Hcs.
  destruct (kind self) eqn:Hk.
  - destruct (DirectoryState_refresh_effect _ _ _ _ Hrun Hord)
      as [Heff Hok].
    split.
    { eapply effect_weaken; [done|]. by intros y _ []. }
    intros snap st' ->. destruct (Hok _ _ eq_refl) as (Hst & Hfresh & _).
    rewrite Hst. simpl. by rewrite Hk.
  - munfold. destruct (RemoteState_refresh w self) as [s|e];
      injection Hrun as <- <-; (split; [by apply effect_refl|]); [|done].
    by intros snap st' [= <- <-].
  - munfold. destruct (LocalState_refresh w self) as [s|e];
      injection Hrun as <- <-; (split; [by apply effect_refl|]); [|done].
    by intros snap st' [= <- <-].
  - destruct (CollectionState_refresh_effect _ _ _ _ Hrun Hord (Hcs eq_refl))
      as [Heff Hok].
    split.
    { eapply effect_weaken; [done|]. by intros y _ Hy. }
    intros snap st' ->. by destruct (Hok _ _ eq_refl) as (-> & _).
Qed.

Lemma create_state_effect nm obs t σ r σ' :
  create_state w new nm obs t σ = (r, σ') →
  ordered_store (heap σ) →
  effect (heap σ) (heap σ') nothing
  ∧ ∀ st, r = Ok st →
      observable st = obs
      ∧ (kind st = Collection →
         Forall (fresh_catalog (heap σ) (heap σ')) (catalogs st)).
Proof.
  destruct obs as [s|uris]; simpl.
  - intros Hrun Hord.
    assert (σ' = σ ∧ ∀ st, r = Ok st → observable st = OStr s
                                       ∧ kind st ≠ Collection) as [-> Hst].
    { destruct (http_prefix s); [by injection Hrun as <- <-; split;
        [|intros ? [= <-]]|].
      destruct (isdir w s); [by injection Hrun as <- <-; split;
        [|intros ? [= <-]]|].
      destruct (config_suffix s); by injection Hrun as <- <-; split;
        [|intros ? [= <-]]. }
    split; [by apply effect_refl|]. intros st Hr.
    destruct (Hst st Hr). by split.
  - munfold. intros Hrun Hord.
    destruct (mapM _ uris σ) as [[cs|e] σ1] eqn:Hcs;
      destruct (mapM_new (λ uri, [uri]) _ _ _ _ _ _ Hcs Hord)
        as [Heff Hfresh];
      injection Hrun as <- <-; (split; [done|]); [|done].
    intros st [= <-]. split; [done|]. intros _.
    by destruct (Hfresh cs eq_refl).
Qed.
End Frames.

Lemma Catalog_new_S fuel w nm t args :
  Catalog_new (S fuel) w nm t args
  = Catalog_init w (Catalog_new fuel w) (Catalog_reload fuel w) nm t args.
Proof. reflexivity. Qed.

(** Construction writes nothing of the old store and returns a new object;
    reloading the catalog at [a] writes, of the old store, only [a] and the
    members it reaches. *)
Lemma frames w fuel :
  (∀ nm t args σ r σ',
     Catalog_new fuel w nm t args σ = (r, σ') → ordered_store (heap σ) →
     effect (heap σ) (heap σ') nothing
     ∧ ∀ a, r = Ok a → fresh_catalog (heap σ) (heap σ') a)
  ∧ (∀ a σ r σ',
       Catalog_reload fuel w a σ = (r, σ') → ordered_store (heap σ) →
       effect (heap σ) (heap σ') (cdesc (heap σ) a)).
Proof.
  induction fuel as [|fuel [IHnew IHreload]].
  { split.
    - intros nm t args σ r σ' [= <- <-] Hord.
      split; [by apply effect_refl|done].
    - intros a σ r σ' [= <- <-] Hord. by apply effect_refl. }
  split.
  - intros nm t args σ r σ' Hrun Hord.
    rewrite Catalog_new_S in Hrun. unfold Catalog_init in Hrun.
    set (args' := match flatten (OList args) with
                  | [s] => OStr s
                  | _ => OList (OStr <$> flatten (OList args))
                  end) in Hrun.
    munfold.
    destruct (create_state w _ nm args' t σ) as [[st|e] σ1] eqn:Hc;
      destruct (create_state_effect w _ IHnew _ _ _ _ _ _ Hc Hord)
        as [Heff1 Hst].
    2:{ by injection Hrun as <- <-. }
    destruct (Hst st eq_refl) as [_ Hfresh].
    pose proof (effect_ordered _ _ _ Heff1) as Hord1.
    assert (kind st = Collection →
            Forall (λ c, c < length (heap σ1)) (catalogs st)) as Hlt.
    { intros Hk. eapply Forall_impl; [by apply Hfresh|].
      intros c [[_ ?] _]. done. }
    destruct (State_refresh w _ _ st σ1) as [[[snap st']|e] σ2] eqn:Hr;
      destruct (State_refresh_effect w _ _ IHnew IHreload _ _ _ _ Hr Hord1 Hlt)
        as [Heff2 Hok].
    + assert (effect (heap σ) (heap σ2) nothing) as Heff12.
      { eapply effect_trans; [done..| |]; [done|].
        intros y Hy (Hk & c & Hc' & Hd).
        pose proof (Hfresh Hk) as Hall. rewrite Forall_forall in Hall.
        destruct (Hall c Hc') as [_ Hge]. specialize (Hge y Hd). lia. }
      destruct (Hok _ _ eq_refl) as (Hk' & _ & Hcs' & _).
      unfold alloc in Hrun. injection Hrun as <- <-. simpl.
      set (cat := mkCatalog st' snap.1.1.1 snap.1.1.2 snap.1.2 snap.2).
      assert (effect (heap σ2) (heap σ2 ++ [cat]) nothing) as Heff3.
      { apply ordered_snoc; [by eapply effect_ordered|].
        simpl. intros Hk. rewrite Hk' in Hk. rewrite (Hcs' Hk).
        eapply Forall_impl; [by apply Hlt|]. intros c Hc'. simpl in Hc'.
        apply effect_length in Heff2. lia. }
      split; [by eapply effect_trans|].
      intros a [= <-]. split.
      * rewrite length_app. simpl. apply effect_length in Heff12. lia.
      * intros y Hd. apply rtc_inv in Hd as [<-|(z & He & Hd)].
        { by eapply effect_length. }
        destruct He as (cat' & Hcat' & Hk & Hz).
        rewrite list_lookup_middle in Hcat' by done.
        injection Hcat' as <-. simpl in Hk, Hz.
        rewrite Hk' in Hk. rewrite (Hcs' Hk) in Hz.
        pose proof (Hfresh Hk) as Hall. rewrite Forall_forall in Hall.
        destruct (Hall z Hz) as [[_ Hzlt] Hge]. apply Hge.
        apply (stable_cdesc _ (heap σ2 ++ [cat])); [|done..].
        eapply stable_trans; [by destruct Heff2 as (_ & ? & _)|].
        by destruct Heff3 as (_ & ? & _).
    + injection Hrun as <- <-. split; [|done].
      eapply effect_trans; [done..| |]; [done|].
      intros y Hy (Hk & c & Hc' & Hd).
      pose proof (Hfresh Hk) as Hall. rewrite Forall_forall in Hall.
      destruct (Hall c Hc') as [_ Hge]. specialize (Hge y Hd). lia.
  - intros a σ r σ' Hrun Hord.
    rewrite Catalog_reload_S in Hrun. munfold.
    destruct (heap σ !! a) as [c|] eqn:Ha.
    2:{ injection Hrun as <- <-. by apply effect_refl. }
    assert (a < length (heap σ)) as Halt by by eapply lookup_lt_Some.
    assert (kind (_state c) = Collection →
            Forall (λ x, x < length (heap σ)) (catalogs (_state c))) as Hlt.
    { intros Hk. eapply Forall_impl; [by apply (Hord a c)|].
      intros x Hx. simpl in Hx. lia. }
    destruct (State_refresh w _ _ (_state c) σ)
      as [[[snap st']|e] σ1] eqn:Hr;
      destruct (State_refresh_effect w _ _ IHnew IHreload _ _ _ _ Hr Hord Hlt)
        as [Heff1 Hok].
    2:{ injection Hrun as <- <-. eapply effect_weaken; [done|].
        intros y _ (Hk & x & Hx & Hd). eapply rtc_l; [|done]. by exists c. }
    destruct (Hok _ _ eq_refl) as (Hk' & _ & Hcs' & _).
    pose proof Heff1 as (Hord1 & Hst1 & Hf1).
    destruct (proj2 Hst1 a c Ha) as (c1 & Ha1 & Hk1 & Hcs1).
    rewrite Ha1 in Hrun. injection Hrun as <- <-. simpl.
    eapply effect_trans; [exact Heff1| | |].
    + apply (ordered_insert _ _ c1); [done..| |]; simpl.
      * congruence.
      * intros Hk. rewrite Hcs', Hcs1; congruence.
    + intros y _ (Hk & x & Hx & Hd). eapply rtc_l; [|done]. by exists c.
    + intros y _ ->. constructor.
Qed.

Lemma Catalog_new_effect fuel w nm t args σ r σ' :
  Catalog_new fuel w nm t args σ = (r, σ') → ordered_store (heap σ) →
  effect (heap σ) (heap σ') nothing
  ∧ ∀ a, r = Ok a → fresh_catalog (heap σ) (heap σ') a.
Proof. apply frames. Qed.

Lemma Catalog_reload_effect fuel w a σ r σ' :
  Catalog_reload fuel w a σ = (r, σ') → ordered_store (heap σ) →
  effect (heap σ) (heap σ') (cdesc (heap σ) a).
Proof. apply frames. Qed.

Lemma ordered_empty : ordered_store [].
Proof. by intros a c Ha. Qed.

(** Every store built by [Catalog(...)] from the empty store is ordered. *)
Lemma Catalog_new_ordered fuel w nm t args r σ' :
  Catalog_new fuel w nm t args empty_store = (r, σ') →
  ordered_store (heap σ').
Proof.
  intros Hrun.
  destruct (Catalog_new_effect _ _ _ _ _ _ _ _ Hrun ordered_empty) as [H _].
  by eapply effect_ordered.
Qed.

Lemma ordered_storeb_spec h : ordered_storeb h = true → ordered_store h.
Proof.
  unfold ordered_storeb, ordered_store. rewrite forallb_forall.
  intros Hall a c Ha Hk.
  assert (In (a, c) (zip (seq 0 (length h)) h)) as Hin.
  { apply list_elem_of_In, list_elem_of_lookup. exists a.
    apply lookup_zip_with_Some. exists a, c. split; [done|]. split; [|done].
    apply lookup_seq. split; [done|]. by eapply lookup_lt_Some. }
  specialize (Hall _ Hin). simpl in Hall. rewrite Hk in Hall.
  rewrite forallb_forall in Hall. apply Forall_forall. intros x Hx.
  apply Nat.ltb_lt, Hall, list_elem_of_In, Hx.
Qed.

(** ** Reload *)

(** C1: [reload] is fetch-then-commit. When [refresh] returns a snapshot,
    [reload] replaces the name, children, entries and plugins of the catalog
    by those of the snapshot, all four at once; when [refresh] raises,
    [reload] raises the same error, writes nothing itself, and the catalog is
    left exactly as it was (a collection that fails half-way has reloaded
    some of its members, which are other objects). *)
Theorem reload_atomic fuel w a σ c :
  heap σ !! a = Some c →
  ordered_store (heap σ) →
  match State_refresh w (Catalog_new fuel w) (Catalog_reload fuel w)
          (_state c) σ with
  | (Ok (snap, st'), σ1) =>
      let c' := mkCatalog st' snap.1.1.1 snap.1.1.2 snap.1.2 snap.2 in
      Catalog_reload (S fuel) w a σ
      = (Ok (), mkMem (<[a := c']> (heap σ1)) (clock_reads σ1))
      ∧ <[a := c']> (heap σ1) !! a = Some c'
      ∧ snapshot c' = snap
  | (Raise e, σ1) =>
      Catalog_reload (S fuel) w a σ = (Raise e, σ1)
      ∧ heap σ1 !! a = Some c
  end.
Proof.
  intros Ha Hord.
  assert (a < length (heap σ)) as Halt by by eapply lookup_lt_Some.
  assert (kind (_state c) = Collection →
          Forall (λ x, x < length (heap σ)) (catalogs (_state c))) as Hlt.
  { intros Hk. eapply Forall_impl; [by apply (Hord a c)|].
    intros x Hx. simpl in Hx. lia. }
  rewrite Catalog_reload_S. munfold. rewrite Ha.
  destruct (State_refresh w _ _ (_state c) σ) as [[[snap st']|e] σ1] eqn:Hr;
    destruct (State_refresh_effect w _ _
                (Catalog_new_effect fuel w) (Catalog_reload_effect fuel w)
                _ _ _ _ Hr Hord Hlt) as [(Hord1 & Hst1 & Hf1) _].
  - destruct (proj2 Hst1 a c Ha) as (c1 & Ha1 & _). rewrite Ha1.
    split; [done|]. split.
    + apply list_lookup_insert_eq. by eapply lookup_lt_Some.
    + by destruct snap as [[[? ?] ?] ?].
  - split; [done|]. rewrite Hf1; [done..|].
    intros (Hk & x & Hx & Hd).
    pose proof (Hord a c Ha Hk) as Hall. rewrite Forall_forall in Hall.
    specialize (Hall x Hx). apply (cdesc_le _ _ _ Hord) in Hd. lia.
Qed.

Lemma reload_atomic_witness :
  (Catalog_reload 1 example_world 0 (mkMem [remote_node] 0)
   = (Raise (PyException "http://host/cat/v1/info: status code 404"),
      mkMem [remote_node] 0)
   ∧ [remote_node] !! 0 = Some remote_node)
  ∧ (let c' := mkCatalog (_state empty_local) (Some "b") ∅ ∅ ["plug"] in
     Catalog_reload 1 example_world 0
       (mkMem [mkCatalog (_state empty_local) None ∅ ∅ []] 0)
     = (Ok (), mkMem [c'] 0)
     ∧ [c'] !! 0 = Some c'
     ∧ snapshot c' = (Some "b", ∅, ∅, ["plug"])).
Proof.
  split.
  - apply (reload_atomic 0 example_world 0 (mkMem [remote_node] 0)
             remote_node eq_refl).
    apply ordered_storeb_spec. reflexivity.
  - apply (reload_atomic 0 example_world 0
             (mkMem [mkCatalog (_state empty_local) None ∅ ∅ []] 0)
             _ eq_refl).
    apply ordered_storeb_spec. reflexivity.
Defined.

(** ** Children across refreshes *)

Lemma zip_snd_elem {A B} (l : list A) (k : list B) x :
  x ∈ (zip l k).*2 → x ∈ k.
Proof.
  revert k. induction l as [|a l IH]; intros [|b k]; simpl; set_solver.
Qed.

(** C5 (as amended): a directory watcher replaces its children on each
    [refresh]: the catalogs it keeps and maps afterwards are objects
    allocated by this refresh, and no object of the old store is written. A
    collection watcher keeps the member objects it was constructed with:
    [refresh] reloads each of them in place and maps the same objects. *)
Theorem refresh_children_identity fuel w self σ snap st' σ1 :
  ordered_store (heap σ) →
  State_refresh w (Catalog_new fuel w) (Catalog_reload fuel w) self σ
  = (Ok (snap, st'), σ1) →
  (kind self = Directory →
   Forall (λ x, length (heap σ) ≤ x < length (heap σ1)) (catalogs st')
   ∧ (∀ x, x ∈ (map_img snap.1.1.2 : gset addr) → x ∈ catalogs st')
   ∧ ∀ y, y < length (heap σ) → heap σ1 !! y = heap σ !! y)
  ∧ (kind self = Collection →
     catalogs st' = catalogs self
     ∧ (∀ x, x ∈ (map_img snap.1.1.2 : gset addr) → x ∈ catalogs self)
     ∧ ∃ us, mapM (Catalog_reload fuel w) (catalogs self) σ = (Ok us, σ1)).
Proof.
  intros Hord Hrun. unfold State_refresh in Hrun. split; intros Hk;
    rewrite Hk in Hrun.
  - destruct (DirectoryState_refresh_effect w _ (Catalog_new_effect fuel w)
                _ _ _ _ Hrun Hord) as [(_ & _ & Hf) Hok].
    destruct (Hok _ _ eq_refl)
      as (_ & Hfresh & obs & files & cats & _ & _ & _ & _ & ->).
    split; [|split].
    + eapply Forall_impl; [exact Hfresh|]. by intros x [? _].
    + simpl. intros x Hx. apply children_of_img in Hx.
      by apply zip_snd_elem in Hx.
    + intros y Hy. apply Hf; [done|]. by intros [].
  - unfold CollectionState_refresh in Hrun. munfold.
    destruct (mapM _ (catalogs self) σ) as [[us|e] σ2] eqn:Hre; [|done].
    destruct (children_map _ σ2) as [[m|e] σ3] eqn:Hm; [|done].
    pose proof (children_map_pure _ _ _ _ Hm) as ->.
    injection Hrun as <- <- <-. split; [done|]. split; [|by exists us].
    simpl. intros x Hx.
    destruct (children_map_spec _ _ _ _ Hm) as (cats & _ & ->).
    apply children_of_img in Hx. by apply zip_snd_elem in Hx.
Qed.

Lemma refresh_children_identity_witness :
  let σ := (Catalog_new 3 example_world None 1%Q [OStr "/cat"]
              empty_store).2 in
  let r := State_refresh example_world (Catalog_new 2 example_world)
             (Catalog_reload 2 example_world)
             (mkState Directory None (OStr "/cat") 1%Q 0%Q 0%Q [0; 1]) σ in
  r.1 = Ok ((None, {[Some "a" := 3; Some "b" := 4]}, ∅, []),
            mkState Directory None (OStr "/cat") 1%Q 0%Q 0%Q [3; 4])
  ∧ Forall (λ x, 3 ≤ x < 5) [3; 4]
  ∧ ∀ y, y < 3 → heap r.2 !! y = heap σ !! y.
Proof.
  intros σ r.
  assert (r.1 = Ok ((None, {[Some "a" := 3; Some "b" := 4]}, ∅, []),
            mkState Directory None (OStr "/cat") 1%Q 0%Q 0%Q [3; 4])) as Hr
    by by vm_compute.
  split; [done|].
  destruct (refresh_children_identity 2 example_world
              (mkState Directory None (OStr "/cat") 1%Q 0%Q 0%Q [0; 1]) σ
              (None, {[Some "a" := 3; Some "b" := 4]}, ∅, [])
              (mkState Directory None (OStr "/cat") 1%Q 0%Q 0%Q [3; 4])
              r.2) as [Hdir _].
  - apply ordered_storeb_spec. by vm_compute.
  - transitivity (r.1, r.2); [exact (surjective_pairing r)|by rewrite Hr].
  - destruct (Hdir eq_refl) as (Hfresh & _ & Hsame). split; [|done].
    revert Hfresh. by vm_compute.
Defined.

(** C5, the claim as worded fails for collections: [refresh] of the
    collection over [a.yml] and [b.yaml], after [a.yml] has gained an entry,
    keeps the member objects 0 and 1 and writes the new entries into the
    object 0. *)
Lemma children_replaced_counterexample : ¬ children_replaced_claim.
Proof.
  intros H.
  assert (ordered_store (heap collection_store)) as Hord.
  { apply ordered_storeb_spec. by vm_compute. }
  destruct (heap collection_store !! 2) as [c|] eqn:Hc; [|by vm_compute in Hc].
  destruct (State_refresh edited_world (Catalog_new 1 edited_world)
              (Catalog_reload 1 edited_world) (_state c) collection_store)
    as [[[snap st']|e] σ1] eqn:Hr.
  2:{ vm_compute in Hc. injection Hc as <-. by vm_compute in Hr. }
  destruct (H 1 edited_world 2 collection_store c snap st' σ1 Hc Hord)
    as [Hfresh _].
  - right. vm_compute in Hc. by injection Hc as <-.
  - done.
  - vm_compute in Hc. injection Hc as <-. vm_compute in Hr.
    injection Hr as <- <- <-. revert Hfresh. vm_compute.
    intros Hall. apply Forall_cons in Hall as [Hle _]. lia.
Qed.

(** ** Directory refresh *)

Lemma foldl_insert_notin (named : list (option string * addr))
    (k : option string) (acc : gmap (option string) addr) :
  (∀ kv, kv ∈ named → kv.1 ≠ k) →
  foldl (λ m na, <[na.1 := na.2]> m) acc named !! k = acc !! k.
Proof.
  revert acc. induction named as [|[k0 v0] named IH]; intros acc Hne; [done|].
  simpl. rewrite IH by (intros kv Hkv; apply Hne; set_solver).
  apply lookup_insert_ne. apply (Hne (k0, v0)). set_solver.
Qed.

(** The last catalog of a given name is the child of that name. *)
Lemma children_of_lookup_last (named : list (option string * addr)) i
    (k : option string) (v : addr) :
  named !! i = Some (k, v) →
  (∀ j kv, i < j → named !! j = Some kv → kv.1 ≠ k) →
  children_of named !! k = Some v.
Proof.
  unfold children_of. generalize (∅ : gmap (option string) addr).
  revert i. induction named as [|[k0 v0] named IH]; intros i acc Hi Hlast;
    [done|].
  destruct i as [|i]; simpl in *.
  - injection Hi as -> ->. rewrite foldl_insert_notin.
    + apply lookup_insert_eq.
    + intros kv Hkv. apply list_elem_of_lookup in Hkv as [j Hj].
      apply (Hlast (S j)); [lia|done].
  - apply (IH i); [done|]. intros j kv Hij Hj.
    apply (Hlast (S j)); [lia|done].
Qed.

Lemma children_of_dom (named : list (option string * addr)) :
  dom (children_of named) = (list_to_set named.*1 : gset (option string)).
Proof.
  unfold children_of.
  assert (∀ acc : gmap (option string) addr,
            dom (foldl (λ m na, <[na.1 := na.2]> m) acc named)
            = dom acc ∪ list_to_set named.*1) as Hgen.
  { induction named as [|[k v] named IH]; intros acc; simpl.
    - set_solver.
    - rewrite IH, dom_insert_L. set_solver. }
  rewrite Hgen, dom_empty_L. set_solver.
Qed.

(** One child per distinct name. *)
Lemma children_of_size (named : list (option string * addr)) :
  size (children_of named) = length (remove_dups named.*1).
Proof.
  rewrite <-size_dom, children_of_dom.
  rewrite <-(size_list_to_set (C:=gset (option string)) (remove_dups named.*1))
    by apply NoDup_remove_dups.
  f_equal. apply set_eq. intros x.
  by rewrite !elem_of_list_to_set, elem_of_remove_dups.
Qed.

Lemma children_of_elem (named : list (option string * addr))
    (k : option string) (v : addr) :
  children_of named !! k = Some v → (k, v) ∈ named.
Proof.
  unfold children_of.
  assert (∀ acc : gmap (option string) addr,
            foldl (λ m na, <[na.1 := na.2]> m) acc named !! k = Some v →
            acc !! k = Some v ∨ (k, v) ∈ named) as Hgen.
  { induction named as [|[k0 v0] named IH]; intros acc; simpl; [by left|].
    intros Hl. destruct (IH _ Hl) as [Hacc|]; [|right; set_solver].
    destruct (decide (k0 = k)) as [->|Hne].
    - rewrite lookup_insert_eq in Hacc. injection Hacc as ->.
      right. set_solver.
    - rewrite lookup_insert_ne in Hacc by done. by left. }
  intros Hl. by destruct (Hgen ∅ Hl).
Qed.

Lemma Catalog_init_single w new reload nm t p :
  Catalog_init w new reload nm t [OStr p]
  = (st ← create_state w new nm (OStr p) t;
     '(snap, st') ← State_refresh w new reload st;
     alloc (mkCatalog st' snap.1.1.1 snap.1.1.2 snap.1.2 snap.2)).
Proof. reflexivity. Qed.

(** [Catalog(path)] returns a catalog that watches [path]. *)
Lemma Catalog_new_single fuel w nm t p σ a σ' :
  Catalog_new fuel w nm t [OStr p] σ = (Ok a, σ') →
  ordered_store (heap σ) →
  ∃ cat, heap σ' !! a = Some cat ∧ observable (_state cat) = OStr p.
Proof.
  destruct fuel as [|fuel]; [done|].
  rewrite Catalog_new_S, Catalog_init_single. munfold.
  intros Hrun Hord.
  destruct (create_state w _ nm (OStr p) t σ) as [[st|e] σ1] eqn:Hc; [|done].
  destruct (create_state_effect w _ (Catalog_new_effect fuel w)
              _ _ _ _ _ _ Hc Hord) as [Heff1 Hst].
  destruct (Hst st eq_refl) as [Hobs Hfresh].
  destruct (State_refresh w _ _ st σ1) as [[[snap st']|e] σ2] eqn:Hr; [|done].
  destruct (State_refresh_effect w _ _
              (Catalog_new_effect fuel w) (Catalog_reload_effect fuel w)
              _ _ _ _ Hr (effect_ordered _ _ _ Heff1)) as [_ Hok].
  { intros Hk. eapply Forall_impl; [by apply Hfresh|].
    by intros c [[_ ?] _]. }
  destruct (Hok _ _ eq_refl) as (_ & Hobs' & _).
  unfold alloc in Hrun. injection Hrun as <- <-. simpl.
  eexists. rewrite list_lookup_middle by done. split; [done|].
  simpl. congruence.
Qed.

Lemma mapM_new_observable fuel w obs l σ cs σ' :
  mapM (λ f, Catalog_new fuel w None 1%Q [OStr (path_join obs f)]) l σ
  = (Ok cs, σ') →
  ordered_store (heap σ) →
  Forall2 (λ f c, ∃ cat, heap σ' !! c = Some cat
                         ∧ observable (_state cat) = OStr (path_join obs f))
          l cs.
Proof.
  revert σ cs. induction l as [|f l IH]; intros σ cs; simpl.
  { intros [= <- _] _. constructor. }
  munfold. intros Hrun Hord.
  destruct (Catalog_new fuel w None 1%Q _ σ) as [[a|e] σ1] eqn:Ha; [|done].
  destruct (mapM _ l σ1) as [[cs'|e] σ2] eqn:Hl; [|done].
  injection Hrun as <- <-.
  destruct (Catalog_new_effect _ _ _ _ _ _ _ _ Ha Hord) as [Heff1 Hfresh].
  pose proof (effect_ordered _ _ _ Heff1) as Hord1.
  destruct (Catalog_new_single _ _ _ _ _ _ _ _ Ha Hord) as (cat & Hcat & Hobs).
  constructor; [|by eapply IH].
  exists cat. split; [|done].
  destruct (mapM_new _ (Catalog_new_effect fuel w)
              (λ f, [OStr (path_join obs f)]) _ _ _ _ _ _ Hl Hord1)
    as [(_ & _ & Hf) _].
  rewrite Hf; [done| |by intros []]. by eapply lookup_lt_Some.
Qed.

Lemma ends_with_app a f suf : ends_with suf f → ends_with suf (a +:+ f).
Proof.
  intros [stem ->]. exists (a +:+ stem). by rewrite string_app_assoc.
Qed.

Lemma config_suffix_path_join a f :
  config_suffix f = true → config_suffix (path_join a f) = true.
Proof.
  rewrite !config_suffix_spec. unfold path_join.
  destruct (startswith f "/"); [done|].
  destruct (_ || _); intros [H|H]; [left|right|left|right];
    repeat apply ends_with_app; done.
Qed.

(** Constructing a catalog over a plain config file succeeds. *)
Lemma Catalog_new_plain fuel w nm t p σ :
  plain_config w p → config_suffix p = true →
  ∃ cat, Catalog_new (S fuel) w nm t [OStr p] σ
         = (Ok (length (heap σ)),
            mkMem (heap σ ++ [cat]) (clock_reads σ)).
Proof.
  intros (Hh & Hd & [[n es] ps] & Hcfg) Hs.
  rewrite Catalog_new_S, Catalog_init_single. munfold. simpl.
  rewrite Hh, Hd, Hs. unfold State_refresh. simpl. munfold.
  unfold LocalState_refresh. simpl. rewrite Hcfg. by eexists.
Qed.

Lemma mapM_cons {A B} (f : A → M B) x l :
  mapM f (x :: l) = (y ← f x; ys ← mapM f l; ret (y :: ys)).
Proof. reflexivity. Qed.

Lemma mapM_new_plain fuel w obs l σ :
  Forall (λ f, config_suffix f = true ∧ plain_config w (path_join obs f)) l →
  ∃ cs σ',
    mapM (λ f, Catalog_new (S fuel) w None 1%Q [OStr (path_join obs f)]) l σ
    = (Ok cs, σ').
Proof.
  revert σ. induction l as [|f l IH]; intros σ Hall.
  { by eexists _, _. }
  rewrite mapM_cons.
  apply Forall_cons in Hall as [[Hs Hp] Hall].
  destruct (Catalog_new_plain fuel w None 1%Q _ σ Hp
              (config_suffix_path_join _ _ Hs)) as [cat Hnew].
  munfold. rewrite Hnew.
  destruct (IH (mkMem (heap σ ++ [cat]) (clock_reads σ)) Hall)
    as (cs & σ' & ->).
  by eexists _, _.
Qed.

Lemma children_map_returns cs σ :
  Forall (λ c, c < length (heap σ)) cs →
  ∃ m, children_map cs σ = (Ok m, σ).
Proof.
  intros Hall.
  assert (∃ named,
            mapM (λ a, n ← name_of a; ret (n, a)) cs σ = (Ok named, σ))
    as [named Hnamed].
  { induction cs as [|c cs IH]; [by eexists|].
    apply Forall_cons in Hall as [Hc Hall].
    destruct (IH Hall) as [named Hn]. rewrite mapM_cons.
    unfold name_of in *. munfold.
    destruct (lookup_lt_is_Some_2 _ _ Hc) as [cat ->]. rewrite Hn.
    by eexists. }
  unfold children_map. munfold. rewrite Hnamed. by eexists.
Qed.

Lemma remove_dups_NoDup `{EqDecision A} (l : list A) :
  NoDup l → remove_dups l = l.
Proof.
  induction 1 as [|x l Hx _ IH]; simpl; [done|].
  destruct (decide_rel _ x l); [done|]. by rewrite IH.
Qed.

(** C6 (as amended): [DirectoryState.refresh] lists the directory, keeps the
    entries with a config-file suffix and constructs one catalog per such
    entry, over the path of the entry; it returns the directory's own name,
    no entries, no plugins, and a children map keyed by the names that these
    catalogs discovered. The map holds one child per distinct name: under a
    name it holds the last catalog of that name, and it holds exactly one
    child per entry when the names are pairwise distinct. On a directory
    whose selected entries are plain config files that parse, the refresh
    returns. *)
Theorem directory_refresh_snapshot fuel w self σ obs files :
  ordered_store (heap σ) →
  observable self = OStr obs →
  listdir w obs = Ok files →
  let selected := filter (λ f, config_suffix f = true) files in
  (Forall (λ f, plain_config w (path_join obs f)) selected →
   ∃ snap st' σ1,
     DirectoryState_refresh w (Catalog_new (S fuel) w) self σ
     = (Ok (snap, st'), σ1))
  ∧ ∀ snap st' σ1,
      DirectoryState_refresh w (Catalog_new fuel w) self σ
      = (Ok (snap, st'), σ1) →
      ∃ cats,
        Forall2 (λ f c, ∃ cat, heap σ1 !! c = Some cat
                   ∧ observable (_state cat) = OStr (path_join obs f))
                selected (catalogs st')
        ∧ Forall2 (λ c cat, heap σ1 !! c = Some cat) (catalogs st') cats
        ∧ snap = (st_name self,
                  children_of (zip (name <$> cats) (catalogs st')), ∅, [])
        ∧ size snap.1.1.2 = length (remove_dups (name <$> cats))
        ∧ (NoDup (name <$> cats) → size snap.1.1.2 = length selected)
        ∧ (∀ k c, snap.1.1.2 !! k = Some c →
             ∃ i cat, catalogs st' !! i = Some c ∧ cats !! i = Some cat
                      ∧ name cat = k)
        ∧ (∀ i c cat,
             catalogs st' !! i = Some c → cats !! i = Some cat →
             (∀ j cat', i < j → cats !! j = Some cat' →
                        name cat' ≠ name cat) →
             snap.1.1.2 !! name cat = Some c).
Proof.
  intros Hord Hobs Hfiles selected. split.
  - intros Hplain. unfold DirectoryState_refresh. munfold.
    rewrite Hobs. cbn [as_str]. rewrite Hfiles. fold selected.
    destruct (mapM_new_plain fuel w obs selected σ) as (cs & σ1 & Hcs).
    { apply Forall_forall. intros f Hf. split.
      - unfold selected in Hf. by apply list_elem_of_filter in Hf as [? _].
      - rewrite Forall_forall in Hplain. by apply Hplain. }
    rewrite Hcs.
    destruct (mapM_new _ (Catalog_new_effect (S fuel) w)
                (λ f, [OStr (path_join obs f)]) _ _ _ _ _ _ Hcs Hord)
      as [_ Hfresh].
    destruct (Hfresh cs eq_refl) as [Hall _].
    destruct (children_map_returns cs σ1) as [m ->]; [|by eexists _, _, _].
    eapply Forall_impl; [exact Hall|]. by intros c [[_ ?] _].
  - intros snap st' σ1 Hrun. unfold DirectoryState_refresh in Hrun. munfold.
    rewrite Hobs in Hrun. cbn [as_str] in Hrun. rewrite Hfiles in Hrun.
    fold selected in Hrun.
    destruct (mapM _ selected σ) as [[cs|e] σ2] eqn:Hcs; [|done].
    destruct (children_map cs σ2) as [[m|e] σ3] eqn:Hm; [|done].
    pose proof (children_map_pure _ _ _ _ Hm) as ->.
    injection Hrun as <- <- <-. simpl.
    destruct (children_map_spec _ _ _ _ Hm) as (cats & Hcats & ->).
    pose proof (Forall2_length _ _ _ Hcats) as Hlen.
    pose proof (mapM_new_observable _ _ _ _ _ _ _ Hcs Hord) as Hpaths.
    pose proof (Forall2_length _ _ _ Hpaths) as Hlen'.
    assert ((zip (name <$> cats) cs).*1 = name <$> cats) as Hfst.
    { apply fst_zip. rewrite length_fmap. lia. }
    exists cats. split; [done|]. split; [done|]. split; [done|].
    split; [by rewrite children_of_size, Hfst|]. split.
    { intros Hnd. rewrite children_of_size, Hfst.
      rewrite (remove_dups_NoDup _ Hnd), length_fmap. lia. }
    split.
    + intros k c Hk. apply children_of_elem in Hk.
      apply list_elem_of_lookup in Hk as [i Hi].
      apply lookup_zip_with_Some in Hi as (n & c' & [= <- <-] & Hn & Hc).
      rewrite list_lookup_fmap in Hn.
      destruct (cats !! i) as [cat|] eqn:Hcat; [|done].
      injection Hn as <-. by exists i, cat.
    + intros i c cat Hc Hcat Hlast.
      apply (children_of_lookup_last _ i).
      * apply lookup_zip_with_Some. exists (name cat), c.
        split; [done|]. split; [|done].
        by rewrite list_lookup_fmap, Hcat.
      * intros j [n c'] Hij Hj. simpl.
        apply lookup_zip_with_Some in Hj as (n' & c'' & [= <- <-] & Hn & _).
        rewrite list_lookup_fmap in Hn.
        destruct (cats !! j) as [cat'|] eqn:Hcat'; [|done].
        injection Hn as <-. by apply (Hlast j).
Qed.

Lemma directory_refresh_snapshot_witness :
  ∃ snap st' σ1,
    DirectoryState_refresh example_world (Catalog_new 1 example_world)
      cat_watcher empty_store
    = (Ok (snap, st'), σ1).
Proof.
  apply (directory_refresh_snapshot 0 example_world cat_watcher empty_store
           "/cat" ["a.yml"; "b.yaml"; "c.txt"] ordered_empty eq_refl eq_refl).
  repeat constructor; by eexists.
Defined.

(** The folder with [a.yml], [b.yaml] and [c.txt] yields exactly two
    children, named [a] and [b]. *)
Example directory_refresh_two_children :
  (DirectoryState_refresh example_world (Catalog_new 1 example_world)
     cat_watcher empty_store).1
  = Ok ((None, {[Some "a" := 0; Some "b" := 1]}, ∅, []),
        set_catalogs cat_watcher [0; 1]).
Proof. by vm_compute. Qed.

(** C6, the claim as worded fails when two entries yield the same name: the
    folder with [a.yml] and [a.yaml], both named [a], yields one child for
    two entries. *)
Lemma one_child_per_entry_counterexample : ¬ one_child_per_entry_claim.
Proof.
  intros H.
  destruct (DirectoryState_refresh clash_world (Catalog_new 1 clash_world)
              dup_watcher empty_store) as [[[snap st']|e] σ1] eqn:Hr;
    [|by vm_compute in Hr].
  specialize (H 1 clash_world dup_watcher empty_store "/dup"
                ["a.yml"; "a.yaml"] snap st' σ1 ordered_empty
                eq_refl eq_refl Hr).
  vm_compute in Hr. injection Hr as <- <- <-. by vm_compute in H.
Qed.

(** * Further properties *)

(** ** What [changed] never does *)

(** Two stores hold the same objects up to the bookkeeping of the staleness
    primitive: same snapshots, and the same watchers except for their two
    stored times. *)
Lemma same_cached_refl h : same_cached h h.
Proof. split; [done|]. intros y c Hy. by exists c. Qed.

Lemma same_cached_trans h1 h2 h3 :
  same_cached h1 h2 → same_cached h2 h3 → same_cached h1 h3.
Proof.
  intros [Hl1 H1] [Hl2 H2]. split; [congruence|]. intros y c Hy.
  destruct (H1 y c Hy) as (c' & Hy' & Hs' & Hw').
  destruct (H2 y c' Hy') as (c'' & Hy'' & Hs'' & Hw'').
  exists c''. split; [done|]. split; congruence.
Qed.

Lemma probe_same_cached w a v σ r σ' :
  probe w a v σ = (r, σ') → same_cached (heap σ) (heap σ').
Proof.
  unfold probe. munfold. simpl.
  destruct (heap σ !! a) as [c|] eqn:Ha; simpl.
  2:{ intros [= _ <-]. apply same_cached_refl. }
  rewrite Ha. intros [= _ <-]. simpl. split; [by rewrite length_insert|].
  intros y d Hy. destruct (decide (y = a)) as [->|Hne].
  - assert (d = c) as -> by congruence.
    eexists. rewrite list_lookup_insert_eq by by eapply lookup_lt_Some.
    split; [done|]. split; [done|].
    unfold update_modification_time. by destruct (Qgtb _ _).
  - exists d. by rewrite list_lookup_insert_ne.
Qed.

Lemma mapM_same_cached {A B} (f : A → M B) l σ r σ' :
  (∀ x σ r σ', f x σ = (r, σ') → same_cached (heap σ) (heap σ')) →
  mapM f l σ = (r, σ') → same_cached (heap σ) (heap σ').
Proof.
  intros Hf. revert σ r σ'. induction l as [|x l IH]; intros σ r σ'.
  { intros [= _ <-]. apply same_cached_refl. }
  rewrite mapM_cons. munfold.
  destruct (f x σ) as [[y|e] σ1] eqn:Hx; pose proof (Hf _ _ _ _ Hx) as H1.
  2:{ by intros [= _ <-]. }
  destruct (mapM f l σ1) as [[ys|e] σ2] eqn:Hl;
    pose proof (IH _ _ _ Hl) as H2; intros [= _ <-];
    by eapply same_cached_trans.
Qed.

Lemma Catalog_changed_same_cached fuel w a σ r σ' :
  Catalog_changed fuel w a σ = (r, σ') → same_cached (heap σ) (heap σ').
Proof.
  revert a σ r σ'. induction fuel as [|fuel IH]; intros a σ r σ'.
  { intros [= _ <-]. apply same_cached_refl. }
  rewrite Catalog_changed_S. unfold State_changed. munfold.
  destruct (heap σ !! a) as [c|] eqn:Ha.
  2:{ intros [= _ <-]. apply same_cached_refl. }
  destruct (kind (_state c)).
  - destruct (as_str _) as [obs|e]; [|intros [= _ <-]; apply same_cached_refl].
    destruct (getmtime w obs) as [v|e];
      [|intros [= _ <-]; apply same_cached_refl].
    destruct (probe w a v σ) as [[m|e] σ1] eqn:Hp;
      pose proof (probe_same_cached _ _ _ _ _ _ Hp) as H1;
      [|by intros [= _ <-]].
    destruct (mapM _ (catalogs (_state c)) σ1) as [[fl|e] σ2] eqn:Hm;
      pose proof (mapM_same_cached _ _ _ _ _ IH Hm) as H2;
      intros [= _ <-]; by eapply same_cached_trans.
  - simpl. intros Hp. by apply probe_same_cached in Hp.
  - destruct (as_str _) as [obs|e]; [|intros [= _ <-]; apply same_cached_refl].
    destruct (getmtime w obs) as [v|e];
      [|intros [= _ <-]; apply same_cached_refl].
    intros Hp. by apply probe_same_cached in Hp.
  - destruct (mapM _ (catalogs (_state c)) σ) as [[fl|e] σ2] eqn:Hm;
      pose proof (mapM_same_cached _ _ _ _ _ IH Hm) as H2;
      by intros [= _ <-].
Qed.

(** X1: [changed()] only stamps watchers. Whatever it returns or raises, on
    whichever catalog, it allocates nothing and leaves the name, children,
    entries and plugins of every catalog, and the class, observable, TTL and
    member list of every watcher, as they were. *)
Theorem changed_keeps_snapshots fuel w a σ :
  same_cached (heap σ) (heap (Catalog_changed fuel w a σ).2).
Proof.
  destruct (Catalog_changed fuel w a σ) as [r σ'] eqn:Hrun.
  by eapply Catalog_changed_same_cached.
Qed.

(** ** Stores stay closed and shaped *)

Lemma preserves_refl h : preserves h h.
Proof. by split. Qed.

Lemma preserves_trans h1 h2 h3 :
  preserves h1 h2 → preserves h2 h3 → preserves h1 h3.
Proof.
  intros (Hl1 & Hc1 & Hs1) (Hl2 & Hc2 & Hs2).
  split; [lia|]. split; auto.
Qed.

Lemma same_cached_preserves h h' : same_cached h h' → preserves h h'.
Proof.
  intros [Hlen Hsame]. split; [lia|].
  assert (∀ y c', h' !! y = Some c' →
            ∃ c, h !! y = Some c ∧ snapshot c' = snapshot c
                 ∧ watcher_config (_state c') = watcher_config (_state c))
    as Hback.
  { intros y c' Hy.
    destruct (h !! y) as [c|] eqn:Hc.
    - destruct (Hsame y c Hc) as (c'' & Hy' & ? & ?).
      exists c. by assert (c'' = c') as -> by congruence.
    - apply lookup_ge_None in Hc. apply lookup_lt_Some in Hy. lia. }
  split.
  - intros Hclosed a c' Ha y Hy.
    destruct (Hback a c' Ha) as (c & Hc & [= _ Hch _ _] & _).
    rewrite Hlen. apply (Hclosed a c Hc). by rewrite <-Hch.
  - rewrite !Forall_lookup. intros Hsh a c' Ha.
    destruct (Hback a c' Ha) as (c & Hc & [= _ Hch He Hp] & [= Hk _ _ _ _]).
    specialize (Hsh a c Hc). unfold shaped in *.
    rewrite Hk, Hch, He, Hp. done.
Qed.

Lemma preserves_snoc h c :
  (∀ y, y ∈ (map_img (_children c) : gset addr) → y < length h) →
  shaped c → preserves h (h ++ [c]).
Proof.
  intros Hch Hsh. split; [rewrite length_app; lia|]. split.
  - intros Hclosed a c' Ha y Hy. rewrite length_app. simpl.
    apply lookup_app_Some in Ha as [Ha|[Hge Ha]].
    + specialize (Hclosed a c' Ha y Hy). lia.
    + apply list_lookup_singleton_Some in Ha as [_ <-].
      specialize (Hch y Hy). lia.
  - intros Hall. apply Forall_app. split; [done|]. by constructor.
Qed.

Lemma preserves_insert h a c :
  (∀ y, y ∈ (map_img (_children c) : gset addr) → y < length h) →
  shaped c → preserves h (<[a := c]> h).
Proof.
  intros Hch Hsh. split; [by rewrite length_insert|]. split.
  - intros Hclosed b c' Hb y Hy. rewrite length_insert.
    apply list_lookup_insert_Some in Hb as [(-> & <- & _)|[_ Hb]].
    + by apply Hch.
    + by apply (Hclosed b c').
  - intros Hall. by apply Forall_insert.
Qed.

Lemma mapM_preserves {A B} (f : A → M B) l σ r σ' :
  (∀ x σ r σ', f x σ = (r, σ') → preserves (heap σ) (heap σ')) →
  mapM f l σ = (r, σ') → preserves (heap σ) (heap σ').
Proof.
  intros Hf. revert σ r σ'. induction l as [|x l IH]; intros σ r σ'.
  { intros [= _ <-]. apply preserves_refl. }
  rewrite mapM_cons. munfold.
  destruct (f x σ) as [[y|e] σ1] eqn:Hx; pose proof (Hf _ _ _ _ Hx) as H1.
  2:{ by intros [= _ <-]. }
  destruct (mapM f l σ1) as [[ys|e] σ2] eqn:Hl;
    pose proof (IH _ _ _ Hl) as H2; intros [= _ <-];
    by eapply preserves_trans.
Qed.

(** The values of a children map built by [children_map] are objects of the
    store. *)
Lemma children_map_closed cs σ m σ' :
  children_map cs σ = (Ok m, σ') →
  ∀ y, y ∈ (map_img m : gset addr) → y < length (heap σ).
Proof.
  intros Hm y Hy.
  destruct (children_map_spec _ _ _ _ Hm) as (cats & Hcats & ->).
  apply children_of_img in Hy.
  apply list_elem_of_fmap in Hy as ([n c] & -> & Hin).
  apply list_elem_of_lookup in Hin as [i Hi].
  apply lookup_zip_with_Some in Hi as (n' & c' & [= <- <-] & _ & Hc).
  destruct (Forall2_lookup_l _ _ _ _ _ Hcats Hc) as (cat & _ & Hcat).
  by eapply lookup_lt_Some.
Qed.

Section Preservation.
Variable w : World.
Variable new : option string → Q → list Observable → M addr.
Variable reload : addr → M ().

Hypothesis Hnew : ∀ nm t args σ r σ',
  new nm t args σ = (r, σ') → preserves (heap σ) (heap σ').

Hypothesis Hreload : ∀ a σ r σ',
  reload a σ = (r, σ') → preserves (heap σ) (heap σ').

(** A snapshot returned by [refresh] refers to objects of the store only,
    and has the shape of the class of the watcher, which [refresh] keeps. *)
Lemma State_refresh_preserves self σ r σ' :
  State_refresh w new reload self σ = (r, σ') →
  preserves (heap σ) (heap σ')
  ∧ ∀ snap st', r = Ok (snap, st') →
      kind st' = kind self
      ∧ (∀ y, y ∈ (map_img snap.1.1.2 : gset addr) → y < length (heap σ'))
      ∧ shaped (mkCatalog st' snap.1.1.1 snap.1.1.2 snap.1.2 snap.2).
Proof.
  unfold State_refresh, shaped. simpl. destruct (kind self) eqn:Hk.
  - unfold DirectoryState_refresh. munfold.
    destruct (as_str (observable self)) as [obs|e].
    2:{ intros [= <- <-]. split; [apply preserves_refl|done]. }
    destruct (listdir w obs) as [files|e].
    2:{ intros [= <- <-]. split; [apply preserves_refl|done]. }
    destruct (mapM _ _ σ) as [[cs|e] σ1] eqn:Hcs;
      pose proof (mapM_preserves _ _ _ _ _
                    (λ x, Hnew None 1%Q [OStr (path_join obs x)]) Hcs)
        as Hp.
    2:{ by intros [= <- <-]. }
    destruct (children_map cs σ1) as [[m|e] σ2] eqn:Hm;
      pose proof (children_map_pure _ _ _ _ Hm) as ->;
      intros [= <- <-]; (split; [done|]); [|done].
    intros snap st' [= <- <-]. simpl. rewrite Hk. split; [done|].
    split; [|done]. by eapply children_map_closed.
  - munfold. destruct (RemoteState_refresh w self) as [s|e] eqn:Hs;
      intros [= <- <-]; (split; [apply preserves_refl|]); [|done].
    intros snap st' [= <- <-]. rewrite Hk. split; [done|].
    unfold RemoteState_refresh in Hs.
    destruct (as_str _); [|done].
    destruct (requests_get w _); [|done].
    destruct (bool_decide _); [done|].
    destruct (unpack_sources w _); [|done].
    destruct (remote_entries _ _ _); [|done].
    injection Hs as <-. simpl. split; [set_solver|done].
  - munfold. destruct (LocalState_refresh w self) as [s|e] eqn:Hs;
      intros [= <- <-]; (split; [apply preserves_refl|]); [|done].
    intros snap st' [= <- <-]. rewrite Hk. split; [done|].
    unfold LocalState_refresh in Hs.
    destruct (as_str _); [|done].
    destruct (CatalogConfig w _) as [[[n es] ps]|]; [|done].
    injection Hs as <-. simpl. split; [set_solver|done].
  - unfold CollectionState_refresh. munfold.
    destruct (mapM reload (catalogs self) σ) as [[us|e] σ1] eqn:Hre;
      pose proof (mapM_preserves _ _ _ _ _ Hreload Hre) as Hp.
    2:{ by intros [= <- <-]. }
    destruct (children_map _ σ1) as [[m|e] σ2] eqn:Hm;
      pose proof (children_map_pure _ _ _ _ Hm) as ->;
      intros [= <- <-]; (split; [done|]); [|done].
    intros snap st' [= <- <-]. simpl. rewrite Hk. split; [done|].
    split; [|done]. by eapply children_map_closed.
Qed.

Lemma create_state_preserves nm obs t σ r σ' :
  create_state w new nm obs t σ = (r, σ') → preserves (heap σ) (heap σ').
Proof.
  destruct obs as [s|uris]; simpl.
  - destruct (http_prefix s); [intros [= _ <-]; apply preserves_refl|].
    destruct (isdir w s); [intros [= _ <-]; apply preserves_refl|].
    destruct (config_suffix s); intros [= _ <-]; apply preserves_refl.
  - munfold.
    destruct (mapM _ uris σ) as [[cs|e] σ1] eqn:Hcs;
      pose proof (mapM_preserves _ _ _ _ _
                    (λ x, Hnew None 1%Q [x]) Hcs) as Hp;
      by intros [= _ <-].
Qed.
End Preservation.

Lemma Catalog_new_reload_preserve w fuel :
  (∀ nm t args σ r σ',
     Catalog_new fuel w nm t args σ = (r, σ') →
     preserves (heap σ) (heap σ'))
  ∧ (∀ a σ r σ',
       Catalog_reload fuel w a σ = (r, σ') → preserves (heap σ) (heap σ')).
Proof.
  induction fuel as [|fuel [IHnew IHreload]].
  { split.
    - intros nm t args σ r σ' [= _ <-]. apply preserves_refl.
    - intros a σ r σ' [= _ <-]. apply preserves_refl. }
  split.
  - intros nm t args σ r σ'. rewrite Catalog_new_S. unfold Catalog_init.
    set (args' := match flatten (OList args) with
                  | [s] => OStr s
                  | _ => OList (OStr <$> flatten (OList args))
                  end).
    munfold.
    destruct (create_state w _ nm args' t σ) as [[st|e] σ1] eqn:Hc;
      pose proof (create_state_preserves w _ IHnew _ _ _ _ _ _ Hc) as H1.
    2:{ by intros [= _ <-]. }
    destruct (State_refresh w _ _ st σ1) as [[[snap st']|e] σ2] eqn:Hr;
      destruct (State_refresh_preserves w _ _ IHnew IHreload _ _ _ _ Hr)
        as [H2 Hok].
    2:{ intros [= _ <-]. by eapply preserves_trans. }
    destruct (Hok _ _ eq_refl) as (_ & Hch & Hsh).
    intros [= _ <-]. simpl.
    eapply preserves_trans; [by eapply preserves_trans|].
    by apply preserves_snoc.
  - intros a σ r σ'. rewrite Catalog_reload_S. munfold.
    destruct (heap σ !! a) as [c|] eqn:Ha.
    2:{ intros [= _ <-]. apply preserves_refl. }
    destruct (State_refresh w _ _ (_state c) σ)
      as [[[snap st']|e] σ1] eqn:Hr;
      destruct (State_refresh_preserves w _ _ IHnew IHreload _ _ _ _ Hr)
        as [H1 Hok].
    2:{ by intros [= _ <-]. }
    destruct (Hok _ _ eq_refl) as (_ & Hch & Hsh).
    destruct (heap σ1 !! a) as [c1|]; [|by intros [= _ <-]].
    intros [= _ <-]. simpl.
    eapply preserves_trans; [done|]. by apply preserves_insert.
Qed.

Lemma reload_on_change_revalidate {A} fuel w (f : addr → M A) self σ :
  reload_on_change fuel w f self σ
  = match revalidate fuel w self σ with
    | (Ok _, σ1) => f self σ1
    | (Raise e, σ1) => (Raise e, σ1)
    end.
Proof.
  unfold revalidate, reload_on_change. munfold.
  destruct (Catalog_changed fuel w self σ) as [[[]|e] σ1]; [|done..].
  by destruct (Catalog_reload fuel w self σ1) as [[[]|e] σ2].
Qed.

Lemma revalidate_preserves fuel w self σ r σ' :
  revalidate fuel w self σ = (r, σ') → preserves (heap σ) (heap σ').
Proof.
  unfold revalidate, reload_on_change. munfold.
  destruct (Catalog_changed fuel w self σ) as [[b|e] σ1] eqn:Hc;
    pose proof (same_cached_preserves _ _
                  (Catalog_changed_same_cached _ _ _ _ _ _ Hc)) as H1.
  2:{ by intros [= _ <-]. }
  destruct b; [|by intros [= _ <-]].
  destruct (Catalog_reload fuel w self σ1) as [[[]|e] σ2] eqn:Hr;
    pose proof (proj2 (Catalog_new_reload_preserve w fuel) _ _ _ _ Hr) as H2;
    intros [= _ <-]; by eapply preserves_trans.
Qed.

Lemma preserves_sound h h' : preserves h h' → sound_store h → sound_store h'.
Proof. intros (_ & Hc & Hs) [? ?]. split; auto. Qed.

(** X2: a sound store stays sound. Construction, reload, [changed] and the prelude
    of every decorated read, whether they return or raise, leave no child
    reference that points outside the store, leave every directory and
    collection catalog without entries and plugins of its own, and every
    remote and local catalog without children. *)
Theorem sound_store_kept fuel w σ :
  sound_store (heap σ) →
  (∀ nm t args, sound_store (heap (Catalog_new fuel w nm t args σ).2))
  ∧ (∀ a, sound_store (heap (Catalog_reload fuel w a σ).2))
  ∧ (∀ a, sound_store (heap (Catalog_changed fuel w a σ).2))
  ∧ (∀ a, sound_store (heap (revalidate fuel w a σ).2)).
Proof.
  intros Hs. split; [|split; [|split]].
  - intros nm t args.
    destruct (Catalog_new fuel w nm t args σ) as [r σ'] eqn:Hrun.
    eapply preserves_sound; [|done].
    by eapply (proj1 (Catalog_new_reload_preserve w fuel)).
  - intros a. destruct (Catalog_reload fuel w a σ) as [r σ'] eqn:Hrun.
    eapply preserves_sound; [|done].
    by eapply (proj2 (Catalog_new_reload_preserve w fuel)).
  - intros a. destruct (Catalog_changed fuel w a σ) as [r σ'] eqn:Hrun.
    eapply preserves_sound; [|done].
    by eapply same_cached_preserves, Catalog_changed_same_cached.
  - intros a. destruct (revalidate fuel w a σ) as [r σ'] eqn:Hrun.
    eapply preserves_sound; [|done]. by eapply revalidate_preserves.
Qed.

Lemma sound_store_kept_witness :
  let σ := mkMem diamond_store 0 in
  (∀ nm t args,
     sound_store (heap (Catalog_new 3 example_world nm t args σ).2))
  ∧ (∀ a, sound_store (heap (Catalog_reload 3 example_world a σ).2))
  ∧ (∀ a, sound_store (heap (Catalog_changed 3 example_world a σ).2))
  ∧ (∀ a, sound_store (heap (revalidate 3 example_world a σ).2)).
Proof.
  apply (sound_store_kept 3 example_world (mkMem diamond_store 0)).
  split; [apply closed_storeb_spec; by vm_compute|].
  by repeat constructor.
Defined.

(** ** What the walk and the listings return *)

Lemma node_triples_elem h a x n e :
  (x, n, e) ∈ node_triples h a
  ↔ x = a ∧ ∃ c, h !! a = Some c ∧ _entries c !! n = Some e.
Proof.
  unfold node_triples. destruct (h !! a) as [c|] eqn:Hc; simpl.
  - rewrite list_elem_of_fmap. split.
    + intros ([n' e'] & [= -> -> ->] & Hin).
      apply elem_of_map_to_list in Hin. split; [done|]. by exists c.
    + intros (-> & c' & [= <-] & He). exists (n, e). split; [done|].
      by apply elem_of_map_to_list.
  - split; [by intros ?%elem_of_nil|]. by intros (_ & c & ? & _).
Qed.

Lemma node_triples_NoDup h a : NoDup (node_triples h a).
Proof.
  unfold node_triples. destruct (h !! a); [|constructor]. simpl.
  apply NoDup_fmap_2; [|apply NoDup_map_to_list].
  by intros [n e] [n' e'] [= -> ->].
Qed.

Lemma bind_triples h l root :
  NoDup l → (∀ x, x ∈ l ↔ reachable h root x) →
  NoDup (l ≫= node_triples h)
  ∧ ∀ x n e, (x, n, e) ∈ l ≫= node_triples h ↔ tree_entry h root x n e.
Proof.
  intros Hnd Hl. split.
  - apply NoDup_bind; [|intros; apply node_triples_NoDup|done].
    intros x1 x2 [[x n] e] _ _ H1 H2.
    apply node_triples_elem in H1 as [-> _].
    by apply node_triples_elem in H2 as [-> _].
  - intros x n e. rewrite list_elem_of_bind. unfold tree_entry. split.
    + intros (a & Hin & Ha). apply node_triples_elem in Hin as [-> ?].
      split; [by apply Hl|done].
    + intros [Hr Hc]. exists x. split; [|by apply Hl].
      by apply node_triples_elem.
Qed.

Lemma revalidate_closed fuel w self σ r σ1 :
  revalidate fuel w self σ = (r, σ1) →
  closed_store (heap σ) → self < length (heap σ) →
  closed_store (heap σ1) ∧ self < length (heap σ1).
Proof.
  intros Hrun Hc Hlt.
  destruct (revalidate_preserves _ _ _ _ _ _ Hrun) as (Hlen & Hcl & _).
  split; [auto|lia].
Qed.

Lemma walk_revalidated fuel w lv self σ σ1 :
  revalidate fuel w self σ = (Ok (), σ1) →
  walk fuel w lv self σ = walk_body w lv self σ1.
Proof.
  intros Hrun. unfold walk. by rewrite reload_on_change_revalidate, Hrun.
Qed.

(** The walk starts with the root. *)
Lemma walk_loop_root_first w h fuel root l :
  walk_loop w h false fuel ∅ [root] = Ok l → ∃ rest, l = root :: rest.
Proof.
  destruct fuel as [|fuel]; [done|]. simpl.
  destruct (decide (root ∈ (∅ : gset addr))) as [Hin|_]; [set_solver|].
  destruct (h !! root) as [c|]; [|done].
  destruct (walk_loop _ _ _ _ _ _) as [rest|e]; [|done].
  intros [= <-]. by exists rest.
Qed.

(** What the two walks return after a prelude that returned. *)
Lemma walk_runs fuel w self σ σ1 :
  set_iter_ok w →
  closed_store (heap σ) → self < length (heap σ) →
  revalidate fuel w self σ = (Ok (), σ1) →
  ∃ l, walk fuel w false self σ = (Ok l, σ1)
       ∧ walk fuel w true self σ = (Ok (l ≫= node_triples (heap σ1)), σ1)
       ∧ NoDup l ∧ (∀ x, x ∈ l ↔ reachable (heap σ1) self x)
       ∧ ∃ rest, l = self :: rest.
Proof.
  intros Hiter Hc Hlt Hrun.
  destruct (revalidate_closed _ _ _ _ _ _ Hrun Hc Hlt) as [Hc1 Hlt1].
  destruct (walk_from_root w (heap σ1) Hiter Hc1 self Hlt1)
    as (l & Hl & Hnd & Hreach).
  exists l. rewrite !(walk_revalidated _ _ _ _ _ _ Hrun). unfold walk_body.
  rewrite (walk_loop_leaves w (heap σ1) _ _ _ _ Hl), Hl.
  split; [done|]. split; [done|]. split; [done|]. split; [done|].
  by eapply walk_loop_root_first.
Qed.

(** X3: after a prelude that returned, on a store without dangling child
    references, [walk] with leaves terminates and yields every entry of
    every catalog reachable from the root through children maps exactly
    once, as a triple of the owning catalog, the entry's name and the entry,
    and nothing else. *)
Theorem walk_leaves_triples fuel w self σ σ1 :
  set_iter_ok w →
  closed_store (heap σ) → self < length (heap σ) →
  revalidate fuel w self σ = (Ok (), σ1) →
  ∃ ts, walk fuel w true self σ = (Ok ts, σ1)
        ∧ NoDup ts
        ∧ ∀ x n e, (x, n, e) ∈ ts ↔ tree_entry (heap σ1) self x n e.
Proof.
  intros Hiter Hc Hlt Hrun.
  destruct (walk_runs _ _ _ _ _ Hiter Hc Hlt Hrun)
    as (l & _ & Hts & Hnd & Hreach & _).
  exists (l ≫= node_triples (heap σ1)). split; [done|].
  by apply bind_triples.
Qed.

Lemma walk_leaves_triples_witness :
  let σ1 := (revalidate 3 example_world 2 collection_store).2 in
  ∃ ts, walk 3 example_world true 2 collection_store = (Ok ts, σ1)
        ∧ NoDup ts
        ∧ ∀ x n e, (x, n, e) ∈ ts ↔ tree_entry (heap σ1) 2 x n e.
Proof.
  apply (walk_leaves_triples 3 example_world 2 collection_store).
  - intros l. reflexivity.
  - apply closed_storeb_spec. by vm_compute.
  - vm_compute. lia.
  - by vm_compute.
Defined.

(** [get_entries] on the triples of a walk that yields at least one. *)
Lemma get_entries_of_walk fuel w self σ σ1 t ts :
  set_iter_str_ok w →
  walk fuel w true self σ = (Ok (t :: ts), σ1) →
  ∃ names, get_entries fuel w self σ = (Ok names, σ1)
           ∧ NoDup names
           ∧ ∀ n, n ∈ names ↔ ∃ x e, (x, n, e) ∈ t :: ts.
Proof.
  intros Hstr Hts. unfold get_entries. munfold. rewrite Hts.
  cbn [zip_star unpack3 col_names]. eexists. split; [done|]. split.
  { rewrite (Hstr _). apply NoDup_remove_dups. }
  intros n. rewrite (Hstr _), elem_of_remove_dups.
  rewrite list_elem_of_fmap. split.
  - intros ([x n'] & -> & Hx).
    apply list_elem_of_fmap in Hx as ([xn e] & Hx & He).
    simpl in Hx. subst xn. by exists x, e.
  - intros (x & e & He). exists (x, n). split; [done|].
    apply list_elem_of_fmap. by exists (x, n, e).
Qed.

(** X4: after a prelude that returned, when some reachable catalog has an
    entry, [get_entries] returns the names of the entries of the reachable
    catalogs, each name once. *)
Theorem get_entries_spec fuel w self σ σ1 x0 n0 e0 :
  set_iter_ok w → set_iter_str_ok w →
  closed_store (heap σ) → self < length (heap σ) →
  revalidate fuel w self σ = (Ok (), σ1) →
  tree_entry (heap σ1) self x0 n0 e0 →
  ∃ names, get_entries fuel w self σ = (Ok names, σ1)
           ∧ NoDup names
           ∧ ∀ n, n ∈ names ↔ ∃ x e, tree_entry (heap σ1) self x n e.
Proof.
  intros Hiter Hstr Hc Hlt Hrun H0.
  destruct (walk_runs _ _ _ _ _ Hiter Hc Hlt Hrun)
    as (l & _ & Hts & Hnd & Hreach & _).
  destruct (bind_triples (heap σ1) l self Hnd Hreach) as [_ Hin].
  destruct (l ≫= node_triples (heap σ1)) as [|t ts] eqn:Hl.
  { apply Hin in H0. by apply elem_of_nil in H0. }
  destruct (get_entries_of_walk _ _ _ _ _ _ _ Hstr Hts)
    as (names & Hnames & Hnd' & Hmem).
  exists names. split; [done|]. split; [done|].
  intros n. rewrite Hmem.
  split; intros (x & e & He); exists x, e; by apply Hin.
Qed.

Lemma get_entries_spec_witness :
  let σ1 := (revalidate 3 example_world 2 collection_store).2 in
  ∃ names, get_entries 3 example_world 2 collection_store = (Ok names, σ1)
           ∧ NoDup names
           ∧ ∀ n, n ∈ names ↔ ∃ x e, tree_entry (heap σ1) 2 x n e.
Proof.
  apply (get_entries_spec 3 example_world 2 collection_store _
           0 "x" (LocalEntry "csv")).
  - intros l. reflexivity.
  - intros l. reflexivity.
  - apply closed_storeb_spec. by vm_compute.
  - vm_compute. lia.
  - by vm_compute.
  - split.
    + eapply rtc_l; [|apply rtc_refl]. eexists. split; [by vm_compute|].
      by vm_compute.
    + eexists. split; by vm_compute.
Defined.

Lemma reachable_lt h root x :
  closed_store h → root < length h → reachable h root x → x < length h.
Proof.
  intros Hc Hroot Hr. induction Hr as [|x y z (c & Hx & Hy) _ IH]; [done|].
  apply IH. by apply (Hc x c).
Qed.

Lemma name_of_run a σ c :
  heap σ !! a = Some c → name_of a σ = (Ok (name c), σ).
Proof. intros Ha. unfold name_of. munfold. by rewrite Ha. Qed.

Lemma mapM_name_of l σ :
  Forall (λ a, a < length (heap σ)) l →
  mapM name_of l σ = (Ok (name_at (heap σ) <$> l), σ).
Proof.
  induction 1 as [|a l Ha _ IH]; [done|].
  rewrite mapM_cons. munfold.
  destruct (lookup_lt_is_Some_2 _ _ Ha) as [c Hc].
  rewrite (name_of_run _ _ _ Hc), IH, fmap_cons. unfold name_at.
  by rewrite Hc.
Qed.

Lemma mapM_named l σ :
  Forall (λ a, a < length (heap σ)) l →
  mapM (λ a, n ← name_of a; ret (n, a)) l σ
  = (Ok ((λ a, (name_at (heap σ) a, a)) <$> l), σ).
Proof.
  induction 1 as [|a l Ha _ IH]; [done|].
  rewrite mapM_cons. munfold.
  destruct (lookup_lt_is_Some_2 _ _ Ha) as [c Hc].
  rewrite (name_of_run _ _ _ Hc), IH, fmap_cons. unfold name_at.
  by rewrite Hc.
Qed.

(** X5: after a prelude that returned, when some reachable catalog has an
    entry, [get_catalogs] returns the non-empty names of the reachable
    catalogs that have an entry of their own, each name once: a catalog
    without entries, such as a directory or a collection, is not listed. *)
Theorem get_catalogs_spec fuel w self σ σ1 x0 n0 e0 :
  set_iter_ok w → set_iter_str_ok w →
  closed_store (heap σ) → self < length (heap σ) →
  revalidate fuel w self σ = (Ok (), σ1) →
  tree_entry (heap σ1) self x0 n0 e0 →
  ∃ names, get_catalogs fuel w self σ = (Ok names, σ1)
           ∧ NoDup names
           ∧ ∀ n, n ∈ names
                  ↔ n ≠ EmptyString
                    ∧ ∃ x c, reachable (heap σ1) self x
                             ∧ heap σ1 !! x = Some c
                             ∧ name c = Some n ∧ _entries c ≠ ∅.
Proof.
  intros Hiter Hstr Hc Hlt Hrun H0.
  unfold get_catalogs. munfold.
  destruct (revalidate_closed _ _ _ _ _ _ Hrun Hc Hlt) as [Hc1 Hlt1].
  destruct (walk_runs _ _ _ _ _ Hiter Hc Hlt Hrun)
    as (l & _ & Hts & Hnd & Hreach & _).
  destruct (bind_triples (heap σ1) l self Hnd Hreach) as [_ Hin].
  rewrite Hts.
  destruct (l ≫= node_triples (heap σ1)) as [|t ts] eqn:Hl.
  { apply Hin in H0. by apply elem_of_nil in H0. }
  cbn [zip_star unpack3 col_catalogs].
  assert (∀ x, x ∈ (t :: ts).*1.*1
               ↔ ∃ n e, tree_entry (heap σ1) self x n e) as Hxs.
  { intros x. rewrite list_elem_of_fmap. split.
    - intros ([x' n] & -> & Hx).
      apply list_elem_of_fmap in Hx as ([xn e] & Hx & He).
      simpl in Hx. subst xn. exists n, e. by apply Hin.
    - intros (n & e & He). apply Hin in He. exists (x, n). split; [done|].
      apply list_elem_of_fmap. by exists (x, n, e). }
  rewrite mapM_name_of.
  2:{ apply Forall_forall. intros x Hx. apply Hxs in Hx as (n & e & Hr & _).
      by eapply reachable_lt. }
  eexists. split; [done|]. split.
  { rewrite (Hstr _). apply NoDup_remove_dups. }
  intros n. rewrite (Hstr _), elem_of_remove_dups, list_elem_of_omap.
  split.
  - intros (on & Hon & Ht).
    assert (on = Some n ∧ n ≠ EmptyString) as [-> Hne].
    { destruct on as [[|a s]|]; simpl in Ht; [done| |done].
      by injection Ht as <-. }
    split; [done|].
    apply list_elem_of_fmap in Hon as (x & Hnm & Hx).
    apply Hxs in Hx as (n' & e' & Hr & c & Hx & He).
    exists x, c. unfold name_at in Hnm. rewrite Hx in Hnm. simpl in Hnm.
    split; [done|]. split; [done|]. split; [done|].
    intros Hemp. by rewrite Hemp in He.
  - intros (Hne & x & c & Hr & Hx & Hnm & He).
    exists (Some n). split; [|by destruct n].
    apply list_elem_of_fmap. exists x. split.
    { unfold name_at. by rewrite Hx. }
    apply map_choose in He as (n' & e' & He).
    apply Hxs. exists n', e'. split; [done|]. by exists c.
Qed.

Lemma get_catalogs_spec_witness :
  let σ1 := (revalidate 3 example_world 2 collection_store).2 in
  ∃ names, get_catalogs 3 example_world 2 collection_store = (Ok names, σ1)
           ∧ NoDup names
           ∧ ∀ n, n ∈ names
                  ↔ n ≠ EmptyString
                    ∧ ∃ x c, reachable (heap σ1) 2 x
                             ∧ heap σ1 !! x = Some c
                             ∧ name c = Some n ∧ _entries c ≠ ∅.
Proof.
  apply (get_catalogs_spec 3 example_world 2 collection_store _
           0 "x" (LocalEntry "csv")).
  - intros l. reflexivity.
  - intros l. reflexivity.
  - apply closed_storeb_spec. by vm_compute.
  - vm_compute. lia.
  - by vm_compute.
  - split.
    + eapply rtc_l; [|apply rtc_refl]. eexists. split; [by vm_compute|].
      by vm_compute.
    + eexists. split; by vm_compute.
Defined.

(** X6: after a prelude that returned, [get_catalog] returns the root when
    the root has the requested name; it raises [KeyError] with the requested
    name when no reachable catalog has it; and otherwise it returns a
    reachable catalog of that name. *)
Theorem get_catalog_spec fuel w self σ σ1 nm :
  set_iter_ok w →
  closed_store (heap σ) → self < length (heap σ) →
  revalidate fuel w self σ = (Ok (), σ1) →
  (name_at (heap σ1) self = nm →
   get_catalog fuel w self nm σ = (Ok self, σ1))
  ∧ ((∀ x c, reachable (heap σ1) self x → heap σ1 !! x = Some c →
             name c ≠ nm) →
     get_catalog fuel w self nm σ = (Raise (KeyError nm), σ1))
  ∧ ((∃ x c, reachable (heap σ1) self x ∧ heap σ1 !! x = Some c
             ∧ name c = nm) →
     ∃ a c, get_catalog fuel w self nm σ = (Ok a, σ1)
            ∧ reachable (heap σ1) self a ∧ heap σ1 !! a = Some c
            ∧ name c = nm).
Proof.
  intros Hiter Hc Hlt Hrun.
  unfold get_catalog. munfold.
  destruct (revalidate_closed _ _ _ _ _ _ Hrun Hc Hlt) as [Hc1 Hlt1].
  destruct (walk_runs _ _ _ _ _ Hiter Hc Hlt Hrun)
    as (l & Hl & _ & Hnd & Hreach & rest & Hfirst).
  rewrite Hl, mapM_named.
  2:{ apply Forall_forall. intros x Hx. apply Hreach in Hx.
      by eapply reachable_lt. }
  set (named := (λ a, (name_at (heap σ1) a, a)) <$> l).
  assert (∀ x, x ∈ l → ∃ c, heap σ1 !! x = Some c
                            ∧ name_at (heap σ1) x = name c) as Hat.
  { intros x Hx. apply Hreach in Hx.
    destruct (lookup_lt_is_Some_2 (heap σ1) x) as [c Hx'].
    { by eapply reachable_lt. }
    exists c. unfold name_at. by rewrite Hx'. }
  split; [|split].
  - intros Hnm. unfold named. rewrite Hfirst. simpl.
    by rewrite decide_True.
  - intros Hnone.
    destruct (list_find _ named) as [[i [n a]]|] eqn:Hfind; [|done].
    apply list_find_Some in Hfind as (Hi & Hn & _). simpl in Hn.
    apply list_lookup_fmap_Some_1 in Hi as (a' & [= -> ->] & Ha).
    destruct (Hat a') as (c & Hx & Hnm); [by eapply list_elem_of_lookup_2|].
    destruct (Hnone a' c); [|done|congruence].
    apply Hreach. by eapply list_elem_of_lookup_2.
  - intros (x & c & Hr & Hx & Hnm).
    destruct (list_find _ named) as [[i [n a]]|] eqn:Hfind.
    + apply list_find_Some in Hfind as (Hi & Hn & _). simpl in Hn.
      apply list_lookup_fmap_Some_1 in Hi as (a' & [= -> ->] & Ha).
      assert (a' ∈ l) as Hin by by eapply list_elem_of_lookup_2.
      destruct (Hat a' Hin) as (c' & Hx' & Hnm').
      exists a', c'. split; [done|]. split; [by apply Hreach|].
      split; [done|]. congruence.
    + apply list_find_None in Hfind. rewrite Forall_forall in Hfind.
      destruct (Hfind (name_at (heap σ1) x, x)).
      * apply list_elem_of_fmap. exists x. split; [done|]. by apply Hreach.
      * simpl. unfold name_at. by rewrite Hx.
Qed.

Lemma get_catalog_spec_witness :
  let σ1 := (revalidate 3 example_world 2 collection_store).2 in
  (name_at (heap σ1) 2 = Some "b" →
   get_catalog 3 example_world 2 (Some "b") collection_store = (Ok 2, σ1))
  ∧ ((∀ x c, reachable (heap σ1) 2 x → heap σ1 !! x = Some c →
             name c ≠ Some "b") →
     get_catalog 3 example_world 2 (Some "b") collection_store
     = (Raise (KeyError (Some "b")), σ1))
  ∧ ((∃ x c, reachable (heap σ1) 2 x ∧ heap σ1 !! x = Some c
             ∧ name c = Some "b") →
     ∃ a c, get_catalog 3 example_world 2 (Some "b") collection_store
            = (Ok a, σ1)
            ∧ reachable (heap σ1) 2 a ∧ heap σ1 !! a = Some c
            ∧ name c = Some "b").
Proof.
  apply (get_catalog_spec 3 example_world 2 collection_store _ (Some "b")).
  - intros l. reflexivity.
  - apply closed_storeb_spec. by vm_compute.
  - vm_compute. lia.
  - by vm_compute.
Defined.

(** ** Indexing and listing a catalog *)

(** A reload that returns leaves a catalog of the same class, with a
    snapshot of the shape of that class. *)
Lemma Catalog_reload_shaped fuel w a σ σ' c :
  heap σ !! a = Some c →
  Catalog_reload fuel w a σ = (Ok (), σ') →
  ∃ c', heap σ' !! a = Some c' ∧ kind (_state c') = kind (_state c)
        ∧ shaped c'.
Proof.
  intros Ha. destruct fuel as [|fuel]; [done|].
  rewrite Catalog_reload_S. munfold. rewrite Ha.
  destruct (State_refresh w _ _ (_state c) σ)
    as [[[snap st']|e] σ1] eqn:Hr; [|done].
  destruct (State_refresh_preserves w _ _
              (proj1 (Catalog_new_reload_preserve w fuel))
              (proj2 (Catalog_new_reload_preserve w fuel)) _ _ _ _ Hr)
    as [_ Hok].
  destruct (Hok _ _ eq_refl) as (Hk & _ & Hsh).
  destruct (heap σ1 !! a) as [c1|] eqn:Ha1; [|done].
  intros [= <-]. simpl. eexists.
  rewrite list_lookup_insert_eq by by eapply lookup_lt_Some.
  by split.
Qed.

Lemma revalidate_shaped fuel w self σ σ1 c :
  heap σ !! self = Some c → shaped c →
  revalidate fuel w self σ = (Ok (), σ1) →
  ∃ c1, heap σ1 !! self = Some c1 ∧ kind (_state c1) = kind (_state c)
        ∧ shaped c1.
Proof.
  intros Ha Hsh. unfold revalidate, reload_on_change. munfold.
  destruct (Catalog_changed fuel w self σ) as [[b|e] σ2] eqn:Hc; [|done].
  destruct (Catalog_changed_same_cached _ _ _ _ _ _ Hc) as [_ Hsame].
  destruct (Hsame _ _ Ha) as (c2 & Ha2 & [= _ Hch He Hp] & [= Hk _ _ _ _]).
  assert (shaped c2) as Hsh2.
  { unfold shaped in *. by rewrite Hk, Hch, He, Hp. }
  destruct b.
  - destruct (Catalog_reload fuel w self σ2) as [[[]|e] σ3] eqn:Hr; [|done].
    intros [= <-].
    destruct (Catalog_reload_shaped _ _ _ _ _ _ Ha2 Hr) as (c3 & ? & ? & ?).
    exists c3. split; [done|]. split; [congruence|done].
  - intros [= <-]. by exists c2.
Qed.

(** X7: indexing dispatches on the children that the catalog had before
    the access. A directory or collection catalog that has no children
    never answers [catalog[item]]: the access is served as an entry lookup,
    a directory or collection has no entries of its own also after the
    reload that the access may trigger and that may discover children, and
    so the access raises: the error of the prelude, or [KeyError] with the
    requested name. *)
Theorem getitem_without_children_raises fuel w self σ c item :
  heap σ !! self = Some c →
  kind (_state c) = Directory ∨ kind (_state c) = Collection →
  _children c = ∅ → _entries c = ∅ → _plugins c = [] →
  ∃ e σ', Catalog_getitem fuel w self item σ = (Raise e, σ')
          ∧ (revalidate fuel w self σ = (Ok (), σ') →
             e = KeyError (Some item)).
Proof.
  intros Ha Hk Hch He Hp.
  assert (shaped c) as Hsh.
  { unfold shaped. by destruct Hk as [-> | ->]. }
  unfold Catalog_getitem, get_entry. munfold. rewrite Ha.
  rewrite bool_decide_false by (intros Hne; by apply Hne).
  rewrite reload_on_change_revalidate.
  destruct (revalidate fuel w self σ) as [[[]|e] σ1] eqn:Hrun.
  2:{ by exists e, σ1. }
  destruct (revalidate_shaped _ _ _ _ _ _ Ha Hsh Hrun)
    as (c1 & Ha1 & Hk1 & Hsh1).
  rewrite Ha1.
  assert (_entries c1 = ∅) as ->.
  { unfold shaped in Hsh1. rewrite Hk1 in Hsh1.
    by destruct Hk as [Hk | Hk]; rewrite Hk in Hsh1; destruct Hsh1. }
  rewrite lookup_empty. by eexists _, _.
Qed.

Lemma getitem_without_children_raises_witness :
  ∃ e σ',
    Catalog_getitem 3 example_world 0 "a" (mkMem [empty_directory] 0)
    = (Raise e, σ')
    ∧ (revalidate 3 example_world 0 (mkMem [empty_directory] 0) = (Ok (), σ')
       → e = KeyError (Some "a")).
Proof.
  apply (getitem_without_children_raises 3 example_world 0
           (mkMem [empty_directory] 0) empty_directory "a").
  - reflexivity.
  - by left.
  - reflexivity.
  - reflexivity.
  - reflexivity.
Defined.

(** In that example the access reloads the directory, which discovers the
    two catalogs of the folder, and still raises [KeyError]. *)
Example getitem_stale_dispatch :
  let run := Catalog_getitem 3 example_world 0 "a"
               (mkMem [empty_directory] 0) in
  run.1 = Raise (KeyError (Some "a"))
  ∧ (_children <$> heap run.2 !! 0)
    = Some {[Some "a" := 1; Some "b" := 2]}.
Proof. split; by vm_compute. Qed.

Lemma reachable_leaf h self c x :
  h !! self = Some c → _children c = ∅ → reachable h self x → x = self.
Proof.
  intros Ha Hch Hr. apply rtc_inv in Hr as [->|(y & (c' & Ha' & Hy) & _)].
  - done.
  - assert (c' = c) as -> by congruence. rewrite Hch in Hy. set_solver.
Qed.

(** X8: a remote or local catalog behaves as the dictionary of its own
    entries. After a prelude that returned and left the catalog with at
    least one entry, [dir(catalog)] lists exactly the names [item] for which
    [catalog[item]] returns an entry, and [catalog[item]] returns the entry
    cached under that name. *)
Theorem leaf_dir_getitem_agree fuel w self σ σ1 c c1 n0 e0 :
  set_iter_ok w → set_iter_str_ok w →
  closed_store (heap σ) →
  heap σ !! self = Some c →
  kind (_state c) = Remote ∨ kind (_state c) = Local →
  _children c = ∅ →
  revalidate fuel w self σ = (Ok (), σ1) →
  heap σ1 !! self = Some c1 →
  _entries c1 !! n0 = Some e0 →
  ∃ names,
    Catalog_dir fuel w self σ = (Ok names, σ1)
    ∧ NoDup names
    ∧ ∀ item,
        (item ∈ names ↔ is_Some (_entries c1 !! item))
        ∧ (item ∈ names ↔
           ∃ e, Catalog_getitem fuel w self item σ = (Ok (inr e), σ1))
        ∧ ∀ e, Catalog_getitem fuel w self item σ = (Ok (inr e), σ1) →
               _entries c1 !! item = Some e.
Proof.
  intros Hiter Hstr Hc Ha Hk Hch Hrun Ha1 He0.
  assert (shaped c) as Hsh.
  { unfold shaped. by destruct Hk as [-> | ->]. }
  destruct (revalidate_shaped _ _ _ _ _ _ Ha Hsh Hrun)
    as (c1' & Ha1' & Hk1 & Hsh1).
  assert (c1' = c1) as -> by congruence.
  assert (_children c1 = ∅) as Hch1.
  { unfold shaped in Hsh1. rewrite Hk1 in Hsh1.
    by destruct Hk as [Hk | Hk]; rewrite Hk in Hsh1. }
  assert (self < length (heap σ)) as Hlt by by eapply lookup_lt_Some.
  destruct (walk_runs _ _ _ _ _ Hiter Hc Hlt Hrun)
    as (l & _ & Hts & Hndl & Hreach & _).
  destruct (bind_triples (heap σ1) l self Hndl Hreach) as [_ Hin].
  destruct (l ≫= node_triples (heap σ1)) as [|t ts] eqn:Hl.
  { assert (tree_entry (heap σ1) self self n0 e0) as H0.
    { split; [apply rtc_refl|]. by exists c1. }
    apply Hin in H0. by apply elem_of_nil in H0. }
  destruct (get_entries_of_walk _ _ _ _ _ _ _ Hstr Hts)
    as (names & Hnames & Hnd & Hmem).
  assert (∀ item, item ∈ names ↔ is_Some (_entries c1 !! item)) as Hown.
  { intros item. rewrite Hmem. split.
    - intros (x & e & Hx). apply Hin in Hx as (Hr & c' & Hx & He).
      apply (reachable_leaf _ _ c1) in Hr; [|done..]. subst x.
      assert (c' = c1) as -> by congruence. by exists e.
    - intros [e He]. exists self, e. apply Hin.
      split; [apply rtc_refl|]. by exists c1. }
  assert (∀ item,
            Catalog_getitem fuel w self item σ
            = (match _entries c1 !! item with
               | Some e => Ok (inr e)
               | None => Raise (KeyError (Some item))
               end, σ1)) as Hget.
  { intros item. unfold Catalog_getitem, get_entry. munfold. rewrite Ha.
    rewrite bool_decide_false by (intros Hne; by apply Hne).
    rewrite reload_on_change_revalidate, Hrun, Ha1.
    by destruct (_entries c1 !! item). }
  exists names. split.
  { unfold Catalog_dir. munfold. rewrite Ha.
    by rewrite bool_decide_false by (intros Hne; by apply Hne). }
  split; [done|]. intros item. split; [apply Hown|].
  rewrite Hown, Hget. split; [split|].
  - intros [e ->]. by exists e.
  - intros [e He]. by destruct (_entries c1 !! item).
  - intros e He. destruct (_entries c1 !! item); congruence.
Qed.

Lemma leaf_dir_getitem_agree_witness :
  let σ1 := (revalidate 3 example_world 0 local_store).2 in
  let c1 := mkCatalog (mkState Local None (OStr "/cat/a.yml") 1%Q 5%Q
                         (time_time example_world 0) [])
                      (Some "a") ∅ {["x" := LocalEntry "csv"]} [] in
  ∃ names,
    Catalog_dir 3 example_world 0 local_store = (Ok names, σ1)
    ∧ NoDup names
    ∧ ∀ item,
        (item ∈ names ↔ is_Some (_entries c1 !! item))
        ∧ (item ∈ names ↔
           ∃ e, Catalog_getitem 3 example_world 0 item local_store
                = (Ok (inr e), σ1))
        ∧ ∀ e, Catalog_getitem 3 example_world 0 item local_store
               = (Ok (inr e), σ1) →
               _entries c1 !! item = Some e.
Proof.
  intros σ1 c1.
  apply (leaf_dir_getitem_agree 3 example_world 0 local_store σ1
           (mkCatalog (State_init example_world Local None
                         (OStr "/cat/a.yml") 1%Q [])
                      (Some "a") ∅ {["x" := LocalEntry "csv"]} [])
           c1 "x" (LocalEntry "csv")).
  - intros l. reflexivity.
  - intros l. reflexivity.
  - apply closed_storeb_spec. by vm_compute.
  - by vm_compute.
  - by right.
  - reflexivity.
  - by vm_compute.
  - by vm_compute.
  - reflexivity.
Defined.

(** ** Construction *)

(** X9: what the [name] and [ttl] keywords of [Catalog(...)] become. The
    watcher stores the name and the clamped TTL, but only a directory
    catalog takes the name: a collection is named [None], a local catalog
    takes the name that its config file declares, and a remote catalog the
    network location of its URL with dots and colons replaced by
    underscores. *)
Theorem constructed_name fuel w nm t args σ a σ' :
  Catalog_new fuel w nm t args σ = (Ok a, σ') →
  ∃ c, heap σ' !! a = Some c
       ∧ st_name (_state c) = nm
       ∧ ttl (_state c) = clamp w t
       ∧ match kind (_state c) with
         | Directory => name c = nm
         | Collection => name c = None
         | Local =>
             ∃ obs cfg, observable (_state c) = OStr obs
                        ∧ CatalogConfig w obs = Ok cfg
                        ∧ name c = cfg.1.1
         | Remote =>
             ∃ obs, observable (_state c) = OStr obs
                    ∧ name c = Some (replace_char ":" "_"
                                       (replace_char "." "_" (netloc w obs)))
         end.
Proof.
  destruct fuel as [|fuel]; [done|].
  rewrite Catalog_new_S. unfold Catalog_init.
  set (args' := match flatten (OList args) with
                | [s] => OStr s
                | _ => OList (OStr <$> flatten (OList args))
                end).
  munfold.
  destruct (create_state w _ nm args' t σ) as [[st|e] σ1] eqn:Hc; [|done].
  assert (st_name st = nm ∧ ttl st = clamp w t
          ∧ match kind st with
            | Collection => True
            | _ => ∃ s, observable st = OStr s
            end) as (Hn & Ht & Hobs).
  { destruct args' as [s|uris]; simpl in Hc.
    - destruct (http_prefix s); [injection Hc as <- _; simpl; eauto|].
      destruct (isdir w s); [injection Hc as <- _; simpl; eauto|].
      destruct (config_suffix s); [|done].
      injection Hc as <- _; simpl; eauto.
    - munfold. destruct (mapM _ uris σ) as [[cs|e] σ2]; [|done].
      by injection Hc as <- _. }
  destruct (State_refresh w _ _ st σ1) as [[[snap st']|e] σ2] eqn:Hr; [|done].
  intros [= <- <-]. simpl. eexists.
  rewrite list_lookup_middle by done. split; [done|]. simpl.
  unfold State_refresh in Hr. destruct (kind st) eqn:Hk.
  - unfold DirectoryState_refresh in Hr. munfold.
    destruct (as_str _); [|done]. destruct (listdir w _); [|done].
    destruct (mapM _ _ σ1) as [[cs|e] σ3]; [|done].
    destruct (children_map cs σ3) as [[m|e] σ4]; [|done].
    injection Hr as <- <- _. simpl. by rewrite Hk.
  - munfold. destruct Hobs as [s Hs].
    destruct (RemoteState_refresh w st) as [sn|e] eqn:Hs'; [|done].
    injection Hr as <- <- _. rewrite Hk. split; [done|]. split; [done|].
    exists s. split; [done|].
    unfold RemoteState_refresh in Hs'. rewrite Hs in Hs'. simpl in Hs'.
    destruct (requests_get w _); [|done].
    destruct (bool_decide _); [done|].
    destruct (unpack_sources w _); [|done].
    destruct (remote_entries _ _ _); [|done]. by injection Hs' as <-.
  - munfold. destruct Hobs as [s Hs].
    destruct (LocalState_refresh w st) as [sn|e] eqn:Hs'; [|done].
    injection Hr as <- <- _. rewrite Hk. split; [done|]. split; [done|].
    unfold LocalState_refresh in Hs'. rewrite Hs in Hs'. simpl in Hs'.
    destruct (CatalogConfig w s) as [[[n es] ps]|] eqn:Hcfg; [|done].
    injection Hs' as <-. by exists s, (n, es, ps).
  - unfold CollectionState_refresh in Hr. munfold.
    destruct (mapM _ _ σ1) as [[us|e] σ3]; [|done].
    destruct (children_map _ σ3) as [[m|e] σ4]; [|done].
    injection Hr as <- <- _. simpl. by rewrite Hk.
Qed.

Lemma constructed_name_witness :
  let run := Catalog_new 3 example_world (Some "mine") 1%Q
               [OStr "/cat/a.yml"] empty_store in
  ∃ c, heap run.2 !! 0 = Some c
       ∧ st_name (_state c) = Some "mine"
       ∧ ttl (_state c) = clamp example_world 1%Q
       ∧ match kind (_state c) with
         | Directory => name c = Some "mine"
         | Collection => name c = None
         | Local =>
             ∃ obs cfg, observable (_state c) = OStr obs
                        ∧ CatalogConfig example_world obs = Ok cfg
                        ∧ name c = cfg.1.1
         | Remote =>
             ∃ obs, observable (_state c) = OStr obs
                    ∧ name c = Some (replace_char ":" "_"
                                       (replace_char "." "_"
                                          (netloc example_world obs)))
         end.
Proof.
  intros run.
  apply (constructed_name 3 example_world (Some "mine") 1%Q
           [OStr "/cat/a.yml"] empty_store 0 run.2).
  by vm_compute.
Defined.

(** The local catalog of that example is named [a], as its config file
    says, and not [mine]. *)
Example name_keyword_ignored :
  (name <$> heap (Catalog_new 3 example_world (Some "mine") 1%Q
                    [OStr "/cat/a.yml"] empty_store).2 !! 0)
  = Some (Some "a").
Proof. by vm_compute. Qed.

(** X10: construction does not record the modification time of a config
    file. The first [changed()] of a local catalog constructed over a plain
    config file returns true, whenever the file's modification time is
    positive and the clock reads more than the TTL: the first read parses
    the file a second time. *)
Theorem fresh_local_changed fuel fuel' w nm t p σ m :
  plain_config w p → config_suffix p = true →
  getmtime w p = Ok m → (0 < m)%Q →
  (clamp w t < time_time w (clock_reads σ))%Q →
  ∃ cat σ2,
    Catalog_new (S fuel) w nm t [OStr p] σ
    = (Ok (length (heap σ)), mkMem (heap σ ++ [cat]) (clock_reads σ))
    ∧ Catalog_changed (S fuel') w (length (heap σ))
        (mkMem (heap σ ++ [cat]) (clock_reads σ))
      = (Ok true, σ2).
Proof.
  intros (Hh & Hd & [[n es] ps] & Hcfg) Hs Hm Hpos Hnow.
  exists (mkCatalog (State_init w Local nm (OStr p) t []) n ∅ es ps).
  eexists. split.
  { rewrite Catalog_new_S, Catalog_init_single. munfold. simpl.
    rewrite Hh, Hd, Hs. unfold State_refresh. simpl. munfold.
    unfold LocalState_refresh. simpl. by rewrite Hcfg. }
  assert (Qgtb (time_time w (clock_reads σ) - 0) (clamp w t) = true) as Hacc.
  { apply Qgtb_spec. lra. }
  assert (Qgtb m 0 = true) as Hgt by by apply Qgtb_spec.
  rewrite Catalog_changed_S. unfold State_changed, probe. munfold. simpl.
  rewrite list_lookup_middle by done. simpl. rewrite Hm.
  rewrite list_lookup_middle by done. simpl.
  rewrite list_lookup_middle by done.
  unfold update_modification_time. simpl. by rewrite Hacc, Hgt.
Qed.

Lemma fresh_local_changed_witness :
  ∃ cat σ2,
    Catalog_new 1 example_world None 1%Q [OStr "/cat/a.yml"] empty_store
    = (Ok 0, mkMem [cat] 0)
    ∧ Catalog_changed 1 example_world 0 (mkMem [cat] 0) = (Ok true, σ2).
Proof.
  apply (fresh_local_changed 0 0 example_world None 1%Q "/cat/a.yml"
           empty_store 5%Q).
  - split; [done|]. split; [done|]. by eexists.
  - reflexivity.
  - reflexivity.
  - reflexivity.
  - reflexivity.
Defined.

(** ** The snapshot of a remote catalog *)

Lemma replace_char_absent old new s :
  old ≠ new → ¬ has_char old (replace_char old new s).
Proof.
  intros Hne. unfold has_char. induction s as [|c s IH]; simpl; [tauto|].
  intros [Hc|Hin]; [|tauto].
  destruct (Ascii.eqb c old) eqn:Heq; [congruence|].
  apply Ascii.eqb_neq in Heq. congruence.
Qed.

Lemma replace_char_keeps_absent ch old new s :
  ch ≠ new → ¬ has_char ch s → ¬ has_char ch (replace_char old new s).
Proof.
  intros Hne. unfold has_char. induction s as [|c s IH]; simpl; [tauto|].
  intros Hs [Hc|Hin]; [|tauto].
  destruct (Ascii.eqb c old); [congruence|]. tauto.
Qed.

Lemma replace_char_length old new s :
  String.length (replace_char old new s) = String.length s.
Proof. induction s as [|c s IH]; simpl; congruence. Qed.

Lemma replace_char_get old new s : ∀ i,
  String.get i (replace_char old new s)
  = (λ ch, if Ascii.eqb ch old then new else ch) <$> String.get i s.
Proof.
  induction s as [|c s IH]; intros [|i]; simpl; [done..|apply IH].
Qed.

(** Character by character, the name is the network location with dots and
    colons replaced by underscores. *)
Lemma sanitise_get s i :
  String.get i (replace_char ":" "_" (replace_char "." "_" s))
  = sanitise <$> String.get i s.
Proof.
  rewrite !replace_char_get. destruct (String.get i s) as [ch|]; [|done].
  simpl. f_equal. unfold sanitise.
  by destruct (Ascii.eqb ch ".").
Qed.

Lemma remote_entries_spec url sources : ∀ acc m,
  remote_entries url sources acc = Ok m →
  Forall good_source sources
  ∧ (∀ n e, m !! n = Some e →
       acc !! n = Some e
       ∨ ∃ s, s ∈ sources ∧ source_name s = Ok n
              ∧ e = RemoteCatalogEntry url s)
  ∧ (∀ n, is_Some (acc !! n) → is_Some (m !! n))
  ∧ (∀ i s n, sources !! i = Some s → source_name s = Ok n →
       (∀ j s', i < j → sources !! j = Some s' → source_name s' ≠ Ok n) →
       m !! n = Some (RemoteCatalogEntry url s)).
Proof.
  induction sources as [|s sources IH]; intros acc m; simpl.
  { intros [= <-]. split; [constructor|]. split; [by left|].
    split; [done|]. by intros i s n ?. }
  destruct (source_name s) as [k|e] eqn:Hk; [|done].
  unfold new_remote_entry. destruct (has_key "url" s) eqn:Hurl; [done|].
  intros Hrun.
  destruct (IH _ _ Hrun) as (Hgood & Hfrom & Hkeep & Hlast).
  split; [|split; [|split]].
  - constructor; [|done]. split; [by exists k|done].
  - intros n e Hn. destruct (Hfrom n e Hn) as [Hacc|(s' & Hs' & Hk' & ->)].
    + apply lookup_insert_Some in Hacc as [[<- <-]|[_ Hacc]]; [|by left].
      right. exists s. split; [set_solver|done].
    + right. exists s'. split; [set_solver|done].
  - intros n Hn. apply Hkeep. rewrite lookup_insert_is_Some.
    destruct (decide (k = n)); [by left|by right].
  - intros [|i] s' n Hi Hn Hafter; simpl in Hi.
    + injection Hi as <-. assert (k = n) as -> by congruence.
      destruct (Hkeep n) as [e He]; [by rewrite lookup_insert_eq|].
      destruct (Hfrom n e He) as [Hacc|(s' & Hs' & Hk' & ->)].
      * rewrite lookup_insert_eq in Hacc. by injection Hacc as <-.
      * apply list_elem_of_lookup in Hs' as [j Hj].
        destruct (Hafter (S j) s'); [lia|done|done].
    + apply (Hlast i s' n Hi Hn). intros j s'' Hij Hj.
      apply (Hafter (S j)); [lia|done].
Qed.

Lemma remote_entries_returns url sources : ∀ acc,
  Forall good_source sources →
  ∃ m, remote_entries url sources acc = Ok m.
Proof.
  induction sources as [|s sources IH]; intros acc Hall; simpl.
  { by eexists. }
  apply Forall_cons in Hall as [[[n ->] Hurl] Hall].
  unfold new_remote_entry. rewrite Hurl. by apply IH.
Qed.

Lemma remote_entries_raises url sources : ∀ acc e,
  remote_entries url sources acc = Raise e →
  (e = KeyError (Some "name")
   ∧ ∃ s, s ∈ sources ∧ source_name s = Raise e)
  ∨ (e = TypeError ∧ ∃ s, s ∈ sources ∧ has_key "url" s = true).
Proof.
  induction sources as [|s sources IH]; intros acc e; simpl; [done|].
  destruct (source_name s) as [k|e'] eqn:Hk.
  - unfold new_remote_entry. destruct (has_key "url" s) eqn:Hurl.
    + intros [= <-]. right. split; [done|]. exists s. split; [set_solver|done].
    + intros Hrun.
      destruct (IH _ _ Hrun) as [[-> (s' & Hs' & Hn)]|[-> (s' & Hs' & Hn)]].
      * left. split; [done|]. exists s'. split; [set_solver|done].
      * right. split; [done|]. exists s'. split; [set_solver|done].
  - intros [= ->]. left. split; [|exists s; split; [set_solver|done]].
    unfold source_name in Hk. destruct (list_find _ s) as [[? ?]|];
      congruence.
Qed.

(** X11: the snapshot of a remote catalog whose server answers with status
    200. The name is the network location of the URL with every dot and
    colon replaced by an underscore, character by character; there are no
    children and no plugins. When every source has a name and none has a
    [url] key of its own, the refresh returns and the entries are keyed by
    the source names, every entry is built from a source of that name and
    the one source URL of the watcher, and of two sources of the same name
    the later one is kept. Otherwise the refresh raises: [KeyError] for a
    source without a name, [TypeError] for a source with a [url] key, which
    would pass that keyword twice. *)
Theorem remote_refresh_snapshot w self obs resp sources :
  observable self = OStr obs →
  requests_get w (urljoin w (obs +:+ "/") "v1/info") = Ok resp →
  status_code resp = 200%Z →
  unpack_sources w (content resp) = Ok sources →
  let source_url := urljoin w (obs +:+ "/") "v1/source" in
  let nm := replace_char ":" "_" (replace_char "." "_" (netloc w obs)) in
  (∀ i, String.get i nm = sanitise <$> String.get i (netloc w obs))
  ∧ ¬ has_char "." nm ∧ ¬ has_char ":" nm
  ∧ String.length nm = String.length (netloc w obs)
  ∧ (Forall good_source sources →
     ∃ entries,
       RemoteState_refresh w self = Ok (Some nm, ∅, entries, [])
       ∧ (∀ n e, entries !! n = Some e →
            ∃ s, s ∈ sources ∧ source_name s = Ok n
                 ∧ e = RemoteCatalogEntry source_url s)
       ∧ (∀ i s n, sources !! i = Some s → source_name s = Ok n →
            (∀ j s', i < j → sources !! j = Some s' →
                     source_name s' ≠ Ok n) →
            entries !! n = Some (RemoteCatalogEntry source_url s)))
  ∧ (¬ Forall good_source sources →
     ∃ e, RemoteState_refresh w self = Raise e
          ∧ (e = KeyError (Some "name") ∨ e = TypeError)
          ∧ (Forall (λ s, has_key "url" s = false) sources →
             e = KeyError (Some "name"))
          ∧ (Forall (λ s, ∃ n, source_name s = Ok n) sources →
             e = TypeError)).
Proof.
  intros Hobs Hget Hstatus Hun source_url nm.
  split; [intros i; apply sanitise_get|].
  split; [by apply replace_char_keeps_absent; [|apply replace_char_absent]|].
  split; [by apply replace_char_absent|].
  split; [unfold nm; by rewrite !replace_char_length|].
  unfold RemoteState_refresh. rewrite Hobs. cbn [as_str].
  rewrite Hget, Hstatus, Hun.
  rewrite bool_decide_false by (intros Hne; by apply Hne).
  fold source_url nm. split.
  - intros Hall.
    destruct (remote_entries_returns source_url sources ∅ Hall)
      as [m Hm].
    rewrite Hm. exists m. split; [done|].
    destruct (remote_entries_spec _ _ _ _ Hm) as (_ & Hfrom & _ & Hlast).
    split; [|done].
    intros n e Hn. by destruct (Hfrom n e Hn) as [Hacc|?].
  - intros Hnot.
    destruct (remote_entries source_url sources ∅) as [m|e] eqn:Hm.
    { destruct Hnot. by destruct (remote_entries_spec _ _ _ _ Hm). }
    exists e. split; [done|].
    destruct (remote_entries_raises _ _ _ _ Hm)
      as [[-> (s & Hs & Hn)]|[-> (s & Hs & Hu)]].
    + split; [by left|]. split; [done|].
      intros Hall. rewrite Forall_forall in Hall.
      destruct (Hall s Hs) as [n Hn']. congruence.
    + split; [by right|]. split; [|done].
      intros Hall. rewrite Forall_forall in Hall.
      specialize (Hall s Hs). congruence.
Qed.

Lemma remote_refresh_snapshot_witness :
  let self := State_init sources_world Remote None
                (OStr "http://host.org:80") 1%Q [] in
  let sources := [[("name", "t"); ("driver", "csv")];
                  [("name", "t"); ("driver", "hdf")]] in
  let source_url := "http://host.org:80/v1/source" in
  let nm := "host_org_80" in
  (∀ i, String.get i nm = sanitise <$> String.get i "host.org:80")
  ∧ ¬ has_char "." nm ∧ ¬ has_char ":" nm
  ∧ String.length nm = String.length "host.org:80"
  ∧ (Forall good_source sources →
     ∃ entries,
       RemoteState_refresh sources_world self
       = Ok (Some nm, ∅, entries, [])
       ∧ (∀ n e, entries !! n = Some e →
            ∃ s, s ∈ sources ∧ source_name s = Ok n
                 ∧ e = RemoteCatalogEntry source_url s)
       ∧ (∀ i s n, sources !! i = Some s → source_name s = Ok n →
            (∀ j s', i < j → sources !! j = Some s' →
                     source_name s' ≠ Ok n) →
            entries !! n = Some (RemoteCatalogEntry source_url s)))
  ∧ (¬ Forall good_source sources →
     ∃ e, RemoteState_refresh sources_world self = Raise e
          ∧ (e = KeyError (Some "name") ∨ e = TypeError)
          ∧ (Forall (λ s, has_key "url" s = false) sources →
             e = KeyError (Some "name"))
          ∧ (Forall (λ s, ∃ n, source_name s = Ok n) sources →
             e = TypeError)).
Proof.
  intros self sources source_url nm.
  apply (remote_refresh_snapshot sources_world self "http://host.org:80"
           (mkResponse "http://host.org:80/v1/info" 200 "packed")
           sources);
    reflexivity.
Defined.

(** In that example the name is [host_org_80], both sources are accepted,
    and the one entry is built from the second source. *)
Example remote_refresh_last_source :
  Forall good_source [[("name", "t"); ("driver", "csv")];
                      [("name", "t"); ("driver", "hdf")]]
  ∧ RemoteState_refresh sources_world
      (State_init sources_world Remote None (OStr "http://host.org:80")
         1%Q [])
    = Ok (Some "host_org_80", ∅,
          {["t" := RemoteCatalogEntry "http://host.org:80/v1/source"
                     [("name", "t"); ("driver", "hdf")]]}, []).
Proof.
  split; [|by vm_compute].
  repeat constructor; by eexists.
Qed.

(** A source that has a [url] key of its own makes the refresh raise
    [TypeError]. *)
Example remote_refresh_url_key :
  remote_entries "http://host.org:80/v1/source"
    [[("name", "t"); ("url", "http://elsewhere")]] ∅
  = Raise TypeError.
Proof. by vm_compute. Qed.

(** ** Reads that are not served *)

Lemma reload_on_change_raises {A} fuel w (f : addr → M A) self σ e σ1 :
  Catalog_changed fuel w self σ = (Raise e, σ1) →
  reload_on_change fuel w f self σ = (Raise e, σ1).
Proof. intros Hc. unfold reload_on_change. munfold. by rewrite Hc. Qed.

(** X12: a local or directory catalog whose path cannot be examined, as
    when the file or folder has been removed, serves no read from its cache:
    [changed], the walk, the listings, the lookups, [plugins], indexing and
    [dir] all raise the error of [os.path.getmtime], and the store is left
    as it was. *)
Theorem reads_raise_on_stat_error fuel w self σ c obs e :
  heap σ !! self = Some c →
  kind (_state c) = Local ∨ kind (_state c) = Directory →
  observable (_state c) = OStr obs →
  getmtime w obs = Raise e →
  Catalog_changed (S fuel) w self σ = (Raise e, σ)
  ∧ (∀ lv, walk (S fuel) w lv self σ = (Raise e, σ))
  ∧ get_catalogs (S fuel) w self σ = (Raise e, σ)
  ∧ get_entries (S fuel) w self σ = (Raise e, σ)
  ∧ (∀ nm, get_catalog (S fuel) w self nm σ = (Raise e, σ))
  ∧ (∀ nm, get_entry (S fuel) w self nm σ = (Raise e, σ))
  ∧ plugins (S fuel) w self σ = (Raise e, σ)
  ∧ (∀ item, Catalog_getitem (S fuel) w self item σ = (Raise e, σ))
  ∧ Catalog_dir (S fuel) w self σ = (Raise e, σ).
Proof.
  intros Ha Hk Hobs Hm.
  assert (Catalog_changed (S fuel) w self σ = (Raise e, σ)) as Hc.
  { rewrite Catalog_changed_S. unfold State_changed. munfold. rewrite Ha.
    destruct Hk as [-> | ->]; rewrite Hobs; cbn [as_str]; by rewrite Hm. }
  assert (∀ lv, walk (S fuel) w lv self σ = (Raise e, σ)) as Hw.
  { intros lv. by apply reload_on_change_raises. }
  assert (get_catalogs (S fuel) w self σ = (Raise e, σ)) as Hcs.
  { unfold get_catalogs. munfold. by rewrite Hw. }
  assert (get_entries (S fuel) w self σ = (Raise e, σ)) as Hes.
  { unfold get_entries. munfold. by rewrite Hw. }
  assert (∀ nm, get_catalog (S fuel) w self nm σ = (Raise e, σ)) as Hgc.
  { intros nm. unfold get_catalog. munfold. by rewrite Hw. }
  assert (∀ nm, get_entry (S fuel) w self nm σ = (Raise e, σ)) as Hge.
  { intros nm. by apply reload_on_change_raises. }
  split; [done|]. split; [done|]. split; [done|]. split; [done|].
  split; [done|]. split; [done|].
  split; [by apply reload_on_change_raises|]. split.
  - intros item. unfold Catalog_getitem. munfold. rewrite Ha.
    destruct (bool_decide _); by rewrite ?Hgc, ?Hge.
  - unfold Catalog_dir. munfold. rewrite Ha. by destruct (bool_decide _).
Qed.

Lemma reads_raise_on_stat_error_witness :
  let w := mkWorld (listdir example_world) (isdir example_world)
             (λ p, Raise (OSError p)) (CatalogConfig example_world)
             (requests_get example_world) (unpack_sources example_world)
             (urljoin example_world) (netloc example_world)
             (time_time example_world) (set_iter example_world)
             (set_iter_str example_world) (ttl_floor example_world) in
  let σ := mkMem [local_child; directory_node] 0 in
  let e := OSError "/cat" in
  Catalog_changed 1 w 1 σ = (Raise e, σ)
  ∧ (∀ lv, walk 1 w lv 1 σ = (Raise e, σ))
  ∧ get_catalogs 1 w 1 σ = (Raise e, σ)
  ∧ get_entries 1 w 1 σ = (Raise e, σ)
  ∧ (∀ nm, get_catalog 1 w 1 nm σ = (Raise e, σ))
  ∧ (∀ nm, get_entry 1 w 1 nm σ = (Raise e, σ))
  ∧ plugins 1 w 1 σ = (Raise e, σ)
  ∧ (∀ item, Catalog_getitem 1 w 1 item σ = (Raise e, σ))
  ∧ Catalog_dir 1 w 1 σ = (Raise e, σ).
Proof.
  intros w σ e.
  apply (reads_raise_on_stat_error 0 w 1 σ directory_node "/cat" e).
  - reflexivity.
  - by right.
  - reflexivity.
  - reflexivity.
Defined.

(** X13: a directory or collection catalog has no plugins of its own. After
    a prelude that returned, [plugins] returns the empty list, whatever the
    plugins of its children are. *)
Theorem group_plugins_empty fuel w self σ σ1 c :
  heap σ !! self = Some c →
  kind (_state c) = Directory ∨ kind (_state c) = Collection →
  _entries c = ∅ → _plugins c = [] →
  revalidate fuel w self σ = (Ok (), σ1) →
  plugins fuel w self σ = (Ok [], σ1).
Proof.
  intros Ha Hk He Hp Hrun.
  assert (shaped c) as Hsh.
  { unfold shaped. by destruct Hk as [-> | ->]. }
  destruct (revalidate_shaped _ _ _ _ _ _ Ha Hsh Hrun)
    as (c1 & Ha1 & Hk1 & Hsh1).
  unfold plugins. rewrite reload_on_change_revalidate, Hrun. munfold.
  rewrite Ha1. unfold shaped in Hsh1. rewrite Hk1 in Hsh1.
  by destruct Hk as [Hk | Hk]; rewrite Hk in Hsh1; destruct Hsh1 as [_ ->].
Qed.

Lemma group_plugins_empty_witness :
  let σ := mkMem [empty_directory] 0 in
  plugins 3 example_world 0 σ
  = (Ok [], (revalidate 3 example_world 0 σ).2).
Proof.
  intros σ.
  apply (group_plugins_empty 3 example_world 0 σ _ empty_directory).
  - reflexivity.
  - by left.
  - reflexivity.
  - reflexivity.
  - by vm_compute.
Defined.

(** In that example the reload discovers the catalog of [b.yaml], which
    declares the plugin [plug]. *)
Example child_plugins_not_listed :
  let σ1 := (revalidate 3 example_world 0 (mkMem [empty_directory] 0)).2 in
  (_plugins <$> heap σ1 !! 2) = Some ["plug"]
  ∧ (_plugins <$> heap σ1 !! 0) = Some [].
Proof. split; by vm_compute. Qed.

(** ** Watchers keep their identity *)

Lemma keeps_refl h : keeps_watchers h h.
Proof. intros y c Hy. by exists c. Qed.

Lemma keeps_trans h1 h2 h3 :
  keeps_watchers h1 h2 → keeps_watchers h2 h3 → keeps_watchers h1 h3.
Proof.
  intros H1 H2 y c Hy.
  destruct (H1 y c Hy) as (c' & Hy' & Hi').
  destruct (H2 y c' Hy') as (c'' & Hy'' & Hi'').
  exists c''. split; [done|]. congruence.
Qed.

Lemma keeps_snoc h c : keeps_watchers h (h ++ [c]).
Proof.
  intros y c' Hy. exists c'. split; [|done]. by apply lookup_app_l_Some.
Qed.

Lemma keeps_insert h a c c' :
  h !! a = Some c →
  watcher_identity (_state c') = watcher_identity (_state c) →
  keeps_watchers h (<[a := c']> h).
Proof.
  intros Ha Hid y d Hy. destruct (decide (y = a)) as [->|Hne].
  - exists c'. rewrite list_lookup_insert_eq by by eapply lookup_lt_Some.
    split; [done|]. congruence.
  - exists d. by rewrite list_lookup_insert_ne.
Qed.

Lemma mapM_keeps {A B} (f : A → M B) l σ r σ' :
  (∀ x σ r σ', f x σ = (r, σ') → keeps_watchers (heap σ) (heap σ')) →
  mapM f l σ = (r, σ') → keeps_watchers (heap σ) (heap σ').
Proof.
  intros Hf. revert σ r σ'. induction l as [|x l IH]; intros σ r σ'.
  { intros [= _ <-]. apply keeps_refl. }
  rewrite mapM_cons. munfold.
  destruct (f x σ) as [[y|e] σ1] eqn:Hx; pose proof (Hf _ _ _ _ Hx) as H1.
  2:{ by intros [= _ <-]. }
  destruct (mapM f l σ1) as [[ys|e] σ2] eqn:Hl;
    pose proof (IH _ _ _ Hl) as H2; intros [= _ <-];
    by eapply keeps_trans.
Qed.

Section Identity.
Variable w : World.
Variable new : option string → Q → list Observable → M addr.
Variable reload : addr → M ().

Hypothesis Hnew : ∀ nm t args σ r σ',
  new nm t args σ = (r, σ') → keeps_watchers (heap σ) (heap σ').

Hypothesis Hreload : ∀ a σ r σ',
  reload a σ = (r, σ') → keeps_watchers (heap σ) (heap σ').

Lemma State_refresh_keeps self σ r σ' :
  State_refresh w new reload self σ = (r, σ') →
  keeps_watchers (heap σ) (heap σ')
  ∧ ∀ snap st', r = Ok (snap, st') →
      watcher_identity st' = watcher_identity self
      ∧ (kind self ≠ Directory → st' = self).
Proof.
  unfold State_refresh. destruct (kind self) eqn:Hk.
  - unfold DirectoryState_refresh. munfold.
    destruct (as_str (observable self)) as [obs|e].
    2:{ intros [= <- <-]. split; [apply keeps_refl|done]. }
    destruct (listdir w obs) as [files|e].
    2:{ intros [= <- <-]. split; [apply keeps_refl|done]. }
    destruct (mapM _ _ σ) as [[cs|e] σ1] eqn:Hcs;
      pose proof (mapM_keeps _ _ _ _ _
                    (λ x, Hnew None 1%Q [OStr (path_join obs x)]) Hcs)
        as Hp.
    2:{ by intros [= <- <-]. }
    destruct (children_map cs σ1) as [[m|e] σ2] eqn:Hm;
      pose proof (children_map_pure _ _ _ _ Hm) as ->;
      intros [= <- <-]; (split; [done|]); [|done].
    by intros snap st' [= <- <-].
  - munfold. destruct (RemoteState_refresh w self) as [s|e];
      intros [= <- <-]; (split; [apply keeps_refl|]); [|done].
    by intros snap st' [= <- <-].
  - munfold. destruct (LocalState_refresh w self) as [s|e];
      intros [= <- <-]; (split; [apply keeps_refl|]); [|done].
    by intros snap st' [= <- <-].
  - unfold CollectionState_refresh. munfold.
    destruct (mapM reload (catalogs self) σ) as [[us|e] σ1] eqn:Hre;
      pose proof (mapM_keeps _ _ _ _ _ Hreload Hre) as Hp.
    2:{ by intros [= <- <-]. }
    destruct (children_map _ σ1) as [[m|e] σ2] eqn:Hm;
      pose proof (children_map_pure _ _ _ _ Hm) as ->;
      intros [= <- <-]; (split; [done|]); [|done].
    by intros snap st' [= <- <-].
Qed.

Lemma create_state_keeps nm obs t σ r σ' :
  create_state w new nm obs t σ = (r, σ') →
  keeps_watchers (heap σ) (heap σ').
Proof.
  destruct obs as [s|uris]; simpl.
  - destruct (http_prefix s); [intros [= _ <-]; apply keeps_refl|].
    destruct (isdir w s); [intros [= _ <-]; apply keeps_refl|].
    destruct (config_suffix s); intros [= _ <-]; apply keeps_refl.
  - munfold.
    destruct (mapM _ uris σ) as [[cs|e] σ1] eqn:Hcs;
      pose proof (mapM_keeps _ _ _ _ _ (λ x, Hnew None 1%Q [x]) Hcs) as Hp;
      by intros [= _ <-].
Qed.
End Identity.

Lemma Catalog_new_reload_keep w fuel :
  (∀ nm t args σ r σ',
     Catalog_new fuel w nm t args σ = (r, σ') →
     keeps_watchers (heap σ) (heap σ'))
  ∧ (∀ a σ r σ',
       Catalog_reload fuel w a σ = (r, σ') →
       keeps_watchers (heap σ) (heap σ')).
Proof.
  induction fuel as [|fuel [IHnew IHreload]].
  { split.
    - intros nm t args σ r σ' [= _ <-]. apply keeps_refl.
    - intros a σ r σ' [= _ <-]. apply keeps_refl. }
  split.
  - intros nm t args σ r σ'. rewrite Catalog_new_S. unfold Catalog_init.
    set (args' := match flatten (OList args) with
                  | [s] => OStr s
                  | _ => OList (OStr <$> flatten (OList args))
                  end).
    munfold.
    destruct (create_state w _ nm args' t σ) as [[st|e] σ1] eqn:Hc;
      pose proof (create_state_keeps w _ IHnew _ _ _ _ _ _ Hc) as H1.
    2:{ by intros [= _ <-]. }
    destruct (State_refresh w _ _ st σ1) as [[[snap st']|e] σ2] eqn:Hr;
      destruct (State_refresh_keeps w _ _ IHnew IHreload _ _ _ _ Hr)
        as [H2 _].
    2:{ intros [= _ <-]. by eapply keeps_trans. }
    intros [= _ <-]. simpl.
    eapply keeps_trans; [by eapply keeps_trans|]. apply keeps_snoc.
  - intros a σ r σ'. rewrite Catalog_reload_S. munfold.
    destruct (heap σ !! a) as [c|] eqn:Ha.
    2:{ intros [= _ <-]. apply keeps_refl. }
    destruct (State_refresh w _ _ (_state c) σ)
      as [[[snap st']|e] σ1] eqn:Hr;
      destruct (State_refresh_keeps w _ _ IHnew IHreload _ _ _ _ Hr)
        as [H1 Hok].
    2:{ by intros [= _ <-]. }
    destruct (Hok _ _ eq_refl) as [Hid _].
    destruct (H1 a c Ha) as (c1 & Ha1 & Hid1).
    rewrite Ha1. intros [= _ <-]. simpl.
    eapply keeps_trans; [done|].
    eapply keeps_insert; [done|]. simpl. congruence.
Qed.

Lemma same_cached_keeps h h' : same_cached h h' → keeps_watchers h h'.
Proof.
  intros [_ Hsame] y c Hy.
  destruct (Hsame y c Hy) as (c' & Hy' & _ & [= Hk Hn Ho Ht _]).
  exists c'. split; [done|]. unfold watcher_identity. congruence.
Qed.

Lemma revalidate_keeps fuel w self σ r σ' :
  revalidate fuel w self σ = (r, σ') → keeps_watchers (heap σ) (heap σ').
Proof.
  unfold revalidate, reload_on_change. munfold.
  destruct (Catalog_changed fuel w self σ) as [[b|e] σ1] eqn:Hc;
    pose proof (same_cached_keeps _ _
                  (Catalog_changed_same_cached _ _ _ _ _ _ Hc)) as H1.
  2:{ by intros [= _ <-]. }
  destruct b; [|by intros [= _ <-]].
  destruct (Catalog_reload fuel w self σ1) as [[[]|e] σ2] eqn:Hr;
    pose proof (proj2 (Catalog_new_reload_keep w fuel) _ _ _ _ Hr) as H2;
    intros [= _ <-]; by eapply keeps_trans.
Qed.

(** X14: no operation of the module replaces, retargets or reclasses a
    watcher, or drops an object. Construction, reload and the prelude of a
    decorated read, whether they return or raise, leave every catalog of the
    store in place, with a watcher of the same class, name, observable and
    TTL. *)
Theorem watchers_keep_identity fuel w σ :
  (∀ nm t args,
     keeps_watchers (heap σ) (heap (Catalog_new fuel w nm t args σ).2))
  ∧ (∀ a, keeps_watchers (heap σ) (heap (Catalog_reload fuel w a σ).2))
  ∧ (∀ a, keeps_watchers (heap σ) (heap (revalidate fuel w a σ).2)).
Proof.
  split; [|split].
  - intros nm t args.
    destruct (Catalog_new fuel w nm t args σ) as [r σ'] eqn:Hrun.
    by eapply (proj1 (Catalog_new_reload_keep w fuel)).
  - intros a. destruct (Catalog_reload fuel w a σ) as [r σ'] eqn:Hrun.
    by eapply (proj2 (Catalog_new_reload_keep w fuel)).
  - intros a. destruct (revalidate fuel w a σ) as [r σ'] eqn:Hrun.
    by eapply revalidate_keeps.
Qed.

(** ** The members of a collection *)

(** The watcher of a catalog constructed over one URI. *)
Lemma Catalog_new_uri fuel w nm t s σ a σ' :
  Catalog_new fuel w nm t [OStr s] σ = (Ok a, σ') →
  ∃ c, heap σ' !! a = Some c
       ∧ watcher_identity (_state c)
         = (kind (_state c), nm, OStr s, clamp w t).
Proof.
  destruct fuel as [|fuel]; [done|].
  rewrite Catalog_new_S, Catalog_init_single. munfold.
  destruct (create_state w _ nm (OStr s) t σ) as [[st|e] σ1] eqn:Hc; [|done].
  assert (watcher_identity st = (kind st, nm, OStr s, clamp w t)) as Hid.
  { simpl in Hc.
    destruct (http_prefix s); [by injection Hc as <- _|].
    destruct (isdir w s); [by injection Hc as <- _|].
    destruct (config_suffix s); [|done]. by injection Hc as <- _. }
  destruct (State_refresh w _ _ st σ1) as [[[snap st']|e] σ2] eqn:Hr; [|done].
  destruct (State_refresh_keeps w _ _
              (proj1 (Catalog_new_reload_keep w fuel))
              (proj2 (Catalog_new_reload_keep w fuel)) _ _ _ _ Hr)
    as [_ Hok].
  destruct (Hok _ _ eq_refl) as [Hid' _].
  intros [= <- <-]. simpl. eexists.
  rewrite list_lookup_middle by done. split; [done|]. simpl.
  unfold watcher_identity in *. congruence.
Qed.

Lemma mapM_new_uris fuel w flat : ∀ σ cs σ',
  mapM (λ uri, Catalog_new fuel w None 1%Q [uri]) (OStr <$> flat) σ
  = (Ok cs, σ') →
  Forall2 (λ s m, ∃ cm, heap σ' !! m = Some cm
                        ∧ watcher_identity (_state cm)
                          = (kind (_state cm), None, OStr s, clamp w 1%Q))
          flat cs.
Proof.
  induction flat as [|s flat IH]; intros σ cs σ'.
  { intros [= <- _]. constructor. }
  rewrite fmap_cons, mapM_cons. munfold.
  destruct (Catalog_new fuel w None 1%Q [OStr s] σ) as [[a|e] σ1] eqn:Ha;
    [|done].
  destruct (mapM _ _ σ1) as [[cs'|e] σ2] eqn:Hl; [|done].
  intros [= <- <-]. constructor; [|by eapply IH].
  destruct (Catalog_new_uri _ _ _ _ _ _ _ _ Ha) as (c & Hc & Hid).
  destruct (mapM_keeps _ _ _ _ _
              (λ x, proj1 (Catalog_new_reload_keep w fuel) None 1%Q [x])
              Hl a c Hc) as (c' & Hc' & Hid').
  exists c'. split; [done|]. unfold watcher_identity in *.
  injection Hid as Hn Ho Ht. injection Hid' as Hk' Hn' Ho' Ht'.
  congruence.
Qed.

(** X15: when a collection is built, and of what. [Catalog(...)] builds a
    collection exactly when its flattened arguments are not a single URI;
    the collection then has one member per URI, in the order of the
    arguments, each a catalog over that URI with the default name and TTL:
    the keywords of the collection are not passed on to its members. *)
Theorem collection_members fuel w nm t args σ a σ' :
  Catalog_new fuel w nm t args σ = (Ok a, σ') →
  ∃ c, heap σ' !! a = Some c
       ∧ (kind (_state c) = Collection
          ↔ length (flatten (OList args)) ≠ 1)
       ∧ (kind (_state c) = Collection →
          Forall2 (λ s m, ∃ cm, heap σ' !! m = Some cm
                     ∧ watcher_identity (_state cm)
                       = (kind (_state cm), None, OStr s, clamp w 1%Q))
                  (flatten (OList args)) (catalogs (_state c))).
Proof.
  destruct fuel as [|fuel]; [done|].
  rewrite Catalog_new_S. unfold Catalog_init.
  set (flat := flatten (OList args)).
  set (args' := match flat with
                | [s] => OStr s
                | _ => OList (OStr <$> flat)
                end).
  munfold.
  destruct (create_state w _ nm args' t σ) as [[st|e] σ1] eqn:Hc; [|done].
  destruct (State_refresh w _ _ st σ1) as [[[snap st']|e] σ2] eqn:Hr; [|done].
  destruct (State_refresh_keeps w _ _
              (proj1 (Catalog_new_reload_keep w fuel))
              (proj2 (Catalog_new_reload_keep w fuel)) _ _ _ _ Hr)
    as [Hkeep Hok].
  destruct (Hok _ _ eq_refl) as [[= Hk _ _ _] Hsame].
  intros [= <- <-]. simpl. eexists.
  rewrite list_lookup_middle by done. split; [done|]. simpl. rewrite Hk.
  assert ((∃ s, args' = OStr s ∧ length flat = 1)
          ∨ (args' = OList (OStr <$> flat) ∧ length flat ≠ 1)) as Hcases.
  { unfold args'. destruct flat as [|s [|s' flat']]; simpl; eauto. }
  destruct Hcases as [(s & Hargs & Hlen)|[Hargs Hlen]]; rewrite Hargs in Hc.
  - assert (kind st ≠ Collection) as Hne.
    { simpl in Hc.
      destruct (http_prefix s); [by injection Hc as <- _|].
      destruct (isdir w s); [by injection Hc as <- _|].
      destruct (config_suffix s); [|done]. by injection Hc as <- _. }
    split; [split; [done|lia]|done].
  - simpl in Hc. munfold.
    destruct (mapM _ (OStr <$> flat) σ) as [[cs|e] σ3] eqn:Hcs; [|done].
    injection Hc as <- <-. simpl. split; [done|]. intros _.
    rewrite (Hsame ltac:(done)). simpl.
    eapply Forall2_impl; [by eapply mapM_new_uris|].
    intros s' m (cm & Hm & Hid).
    destruct (Hkeep m cm Hm) as (cm' & Hm' & Hid').
    exists cm'. split; [by apply lookup_app_l_Some|].
    unfold watcher_identity in *.
    injection Hid as Hn Ho Ht. injection Hid' as Hk' Hn' Ho' Ht'.
    congruence.
Qed.

Lemma collection_members_witness :
  let run := Catalog_new 3 example_world (Some "mine") 10%Q
               [OStr "/cat/a.yml"; OList [OStr "/cat/b.yaml"]] empty_store in
  let flat := flatten (OList [OStr "/cat/a.yml"; OList [OStr "/cat/b.yaml"]]) in
  ∃ c, heap run.2 !! 2 = Some c
       ∧ (kind (_state c) = Collection ↔ length flat ≠ 1)
       ∧ (kind (_state c) = Collection →
          Forall2 (λ s m, ∃ cm, heap run.2 !! m = Some cm
                     ∧ watcher_identity (_state cm)
                       = (kind (_state cm), None, OStr s,
                          clamp example_world 1%Q))
                  flat (catalogs (_state c))).
Proof.
  intros run flat.
  apply (collection_members 3 example_world (Some "mine") 10%Q
           [OStr "/cat/a.yml"; OList [OStr "/cat/b.yaml"]] empty_store
           2 run.2).
  by vm_compute.
Defined.
